(** * OOPS geometry core: paths, events, the path registry, the photon solver
      and the backplane cache, embedded from the Python sources.

    Numbers are Python floats in the sources; they are read here as real
    numbers, and an array of samples is read as one sample. *)

From Stdlib Require Import Reals Lra Psatz.
From stdpp Require Import gmap strings list fin_maps.

(** ** Python outcomes *)

(** The exceptions the embedded code can raise.  [RecursionError] also
    stands for a recursion that outruns the fuel of a fuelled definition. *)
Inductive exn : Set :=
| KeyError
| AssertionError
| TypeError
| IndexError
| AttributeError
| NotImplementedError
| ValueError
| RecursionError.

#[global] Instance exn_eq_dec : EqDecision exn.
Proof. solve_decision. Defined.

(** A call either returns a value or raises. *)
Definition result (A : Type) : Type := exn + A.

Definition ret {A : Type} (a : A) : result A := inr a.
Definition raise {A : Type} (e : exn) : result A := inl e.

Definition bind {A B : Type} (m : result A) (k : A -> result B) : result B :=
  match m with
  | inl e => inl e
  | inr a => k a
  end.

Notation "x <- m ;; k" := (bind m (fun x => k))
  (at level 100, m at next level, right associativity).

Definition assert (b : bool) : result unit :=
  if b then ret tt else raise AssertionError.

(** Code that also reads and writes a mutable state [S]: what it has written
    stays written when it raises. *)
Definition M (S A : Type) : Type := S -> result A * S.

Definition mret {S A : Type} (a : A) : M S A := fun s => (inr a, s).

Definition mraise {S A : Type} (e : exn) : M S A := fun s => (inl e, s).

Definition lift {S A : Type} (r : result A) : M S A := fun s => (r, s).

Definition mbind {S A B : Type} (m : M S A) (k : A -> M S B) : M S B :=
  fun s =>
    match m s with
    | (inl e, s') => (inl e, s')
    | (inr a, s') => k a s'
    end.

Notation "x <~ m ;; k" := (mbind m (fun x => k))
  (at level 100, m at next level, right associativity).

Definition get {S : Type} : M S S := fun s => (inr s, s).

Definition modify {S : Type} (f : S -> S) : M S unit := fun s => (inr tt, f s).

(** [try: m  except E: handler]. *)
Definition try_except {S A : Type} (E : exn) (m handler : M S A) : M S A :=
  fun s =>
    match m s with
    | (inl e, s') => if bool_decide (e = E) then handler s' else (inl e, s')
    | r => r
    end.

(** [try: m  except KeyError: handler]. *)
Definition try_KeyError {S A : Type} (m handler : M S A) : M S A :=
  try_except KeyError m handler.

(** [try: m  except: pass]. *)
Definition try_pass {S A : Type} (m : M S A) : M S unit :=
  fun s => (inr tt, snd (m s)).

(** ** Vector3 (oops.xarray, used through its arithmetic only) *)

Record Vector3 : Type := V3 { vx : R; vy : R; vz : R }.

Definition ZERO : Vector3 := V3 0 0 0.

Definition vadd (a b : Vector3) : Vector3 :=
  V3 (vx a + vx b) (vy a + vy b) (vz a + vz b).

Definition vsub (a b : Vector3) : Vector3 :=
  V3 (vx a - vx b) (vy a - vy b) (vz a - vz b).

Definition vneg (a : Vector3) : Vector3 :=
  V3 (- vx a) (- vy a) (- vz a).

Definition vscale (s : R) (a : Vector3) : Vector3 :=
  V3 (s * vx a) (s * vy a) (s * vz a).

Definition dot (a b : Vector3) : R :=
  (vx a * vx b + vy a * vy b + vz a * vz b)%R.

(** [a.norm()]: the Euclidean length. *)
Definition norm (a : Vector3) : R := sqrt (dot a a).

(** [a.proj(b)]: the component of [a] along [b]. *)
Definition proj (a b : Vector3) : Vector3 :=
  vscale (dot a b / dot b b) b.

(** [constants.C], the speed of light in km/s. *)
Definition C : R := 299792458 / 1000.

(** ** Events *)

(** An event object lives in a store; [loc] is a reference to one. *)
Definition loc : Set := nat.

Module Event.

(** [Event(time, pos, vel, origin_id, frame_id, perp, arr, dep, vflat)] and
    the [ssb] attribute.  [Empty()] is [None]. *)
Record t : Type := mk {
  time : R;
  pos : Vector3;
  vel : Vector3;
  origin_id : string;
  frame_id : string;
  perp : option Vector3;
  arr : option Vector3;
  dep : option Vector3;
  vflat : Vector3;
  ssb : option loc
}.

(** The constructor with its default photon fields. *)
Definition new (time : R) (pos vel : Vector3) (origin_id frame_id : string) : t :=
  mk time pos vel origin_id frame_id None None None ZERO None.

(** [Event.null_event(time, origin, frame)]. *)
Definition null_event (time : R) (origin_id frame_id : string) : t :=
  new time ZERO ZERO origin_id frame_id.

Definition set_time (x : R) (e : t) : t :=
  mk x (pos e) (vel e) (origin_id e) (frame_id e) (perp e) (arr e) (dep e)
     (vflat e) (ssb e).

Definition set_arr (x : option Vector3) (e : t) : t :=
  mk (time e) (pos e) (vel e) (origin_id e) (frame_id e) (perp e) x (dep e)
     (vflat e) (ssb e).

Definition set_dep (x : option Vector3) (e : t) : t :=
  mk (time e) (pos e) (vel e) (origin_id e) (frame_id e) (perp e) (arr e) x
     (vflat e) (ssb e).

Definition set_ssb (x : option loc) (e : t) : t :=
  mk (time e) (pos e) (vel e) (origin_id e) (frame_id e) (perp e) (arr e)
     (dep e) (vflat e) x.

End Event.

#[global] Instance Event_inhabited : Inhabited Event.t :=
  populate (Event.null_event 0 "SSB" "J2000").

(** ** Paths *)

Module Path.

(** A path object: the required attributes, its [event_at_time] method, and
    the ancestry the registry fills in for a primary definition (absent
    until then). *)
#[warnings="-register-all"]
Inductive t : Type := mk {
  path_id : string;
  origin_id : string;
  frame_id : string;
  event_at_time : R -> result Event.t;
  ancestry : option (list t)
}.

Definition set_ancestry (a : list t) (p : t) : t :=
  mk (path_id p) (origin_id p) (frame_id p) (event_at_time p) (Some a).

End Path.

(** [FixedPath(pos, origin, frame, id)]: fixed coordinates. *)
Definition FixedPath (pos : Vector3) (origin frame id : string) : Path.t :=
  Path.mk id origin frame
          (fun time => ret (Event.new time pos ZERO origin frame)) None.

(** [Waypoint(path_id, frame_id)]: always the origin. *)
Definition Waypoint (path_id frame_id : string) : Path.t :=
  Path.mk path_id path_id frame_id
          (fun time => ret (Event.null_event time path_id frame_id)) None.

(** ** Event operations of a path *)

(** [Path.subtract_from_event]: the same event with this path as origin. *)
Definition subtract_from_event (self : Path.t) (event : Event.t)
  : result Event.t :=
  _ <- assert (bool_decide (Path.origin_id self = Event.origin_id event)) ;;
  _ <- assert (bool_decide (Path.frame_id self = Event.frame_id event)) ;;
  offset <- Path.event_at_time self (Event.time event) ;;
  ret (Event.mk (Event.time event)
                (vsub (Event.pos event) (Event.pos offset))
                (vsub (Event.vel event) (Event.vel offset))
                (Path.path_id self) (Event.frame_id event)
                (Event.perp event) (Event.arr event) (Event.dep event)
                (Event.vflat event) (Event.ssb event)).

(** [Path.add_to_event]: the same event with this path's origin as origin. *)
Definition add_to_event (self : Path.t) (event : Event.t) : result Event.t :=
  _ <- assert (bool_decide (Path.path_id self = Event.origin_id event)) ;;
  _ <- assert (bool_decide (Path.frame_id self = Event.frame_id event)) ;;
  offset <- Path.event_at_time self (Event.time event) ;;
  ret (Event.mk (Event.time event)
                (vadd (Event.pos event) (Event.pos offset))
                (vadd (Event.vel event) (Event.vel offset))
                (Path.origin_id self) (Event.frame_id event)
                (Event.perp event) (Event.arr event) (Event.dep event)
                (Event.vflat event) None).

(** ** Photon solver *)

(** What the solver calls outside [oops/path]: the connector and the frame
    and origin changes of [oops.event], each of which can raise on a
    missing registration. *)
Class SolverEnv : Type := {
  (** [Path.connect(target, origin_id, frame_id)] *)
  connect_path : Path.t -> string -> string -> result Path.t;
  (** the event re-expressed relative to SSB in J2000 *)
  to_ssb : Event.t -> result Event.t;
  (** [event.wrt_frame(frame_id)] *)
  wrt_frame : Event.t -> string -> result Event.t;
  (** [event.wrt(path_id, frame_id)] *)
  wrt : Event.t -> string -> string -> result Event.t;
  (** [event.wrt_event(other)] *)
  wrt_event : Event.t -> Event.t -> result Event.t
}.

(** The store of event objects: a reference is an index. *)
Abbreviation store := (list Event.t).

(** A new object. *)
Definition alloc (e : Event.t) : M store loc :=
  fun h => (inr (length h), h ++ [e]).

(** Reading the object at [r]. *)
Definition deref (r : loc) : M store Event.t :=
  fun h => (inr (h !!! r), h).

Definition update (r : loc) (f : Event.t -> Event.t) (h : store) : store :=
  <[r := f (h !!! r)]> h.

(** Attribute assignment [obj.attr = value] on the object at [r]. *)
Definition assign (r : loc) (f : Event.t -> Event.t) : M store unit :=
  modify (update r f).

Section Solver.
Context {env : SolverEnv}.

(** Modelled from the spec: [Event.wrt_ssb] ([oops.event] is not among the
    sources).  The event is expressed relative to the common inertial root;
    the solver reads the result back through the event's [ssb] attribute, so
    it is kept there.  An event already relative to SSB in J2000 is its own
    SSB form. *)
Definition wrt_ssb (r : loc) : M store loc :=
  e <~ deref r ;;
  match Event.ssb e with
  | Some s => mret s
  | None =>
      if bool_decide (Event.origin_id e = "SSB" /\ Event.frame_id e = "J2000")
      then
        _ <~ assign r (Event.set_ssb (Some r)) ;;
        mret r
      else
        es <~ lift (to_ssb e) ;;
        s <~ alloc es ;;
        _ <~ assign s (Event.set_ssb (Some s)) ;;
        _ <~ assign r (Event.set_ssb (Some s)) ;;
        mret s
  end.

(** One pass of the loop body: the new light time. *)
Definition newton_step (path_wrt_ssb : Path.t) (event_time : R)
    (event_wrt_ssb : Event.t) (signed_c : R) (lt : R) : result R :=
  let path_time := (event_time + lt)%R in
  path_event <- Path.event_at_time path_wrt_ssb path_time ;;
  let delta_pos := vsub (Event.pos path_event) (Event.pos event_wrt_ssb) in
  let delta_vel := vsub (Event.vel path_event) (Event.vel event_wrt_ssb) in
  ret (lt - (norm delta_pos - lt * signed_c)
            / (norm (proj delta_vel delta_pos) - signed_c))%R.

(** [for iter in range(iters)]. *)
Fixpoint newton (iters : nat) (path_wrt_ssb : Path.t) (event_time : R)
    (event_wrt_ssb : Event.t) (signed_c : R) (lt : R) : result R :=
  match iters with
  | O => ret lt
  | S n =>
      lt <- newton_step path_wrt_ssb event_time event_wrt_ssb signed_c lt ;;
      newton n path_wrt_ssb event_time event_wrt_ssb signed_c lt
  end.

(** The photon fields for [sign < 0]: from the path, to the event. *)
Definition fill_arrival (event event_wrt_ssb path_event_ssb : loc)
    : M store unit :=
  (* path_event_ssb.dep = event_wrt_ssb.pos - path_event_ssb.pos *)
  es <~ deref event_wrt_ssb ;;
  pe <~ deref path_event_ssb ;;
  _ <~ assign path_event_ssb
         (Event.set_dep (Some (vsub (Event.pos es) (Event.pos pe)))) ;;
  (* event_wrt_ssb.arr = path_event_ssb.dep *)
  pe <~ deref path_event_ssb ;;
  _ <~ assign event_wrt_ssb (Event.set_arr (Event.dep pe)) ;;
  (* event.ssb.arr = event_wrt_ssb.arr *)
  ew <~ deref event_wrt_ssb ;;
  ev <~ deref event ;;
  s <~ lift (match Event.ssb ev with
             | Some s => ret s
             | None => raise AttributeError
             end) ;;
  _ <~ assign s (Event.set_arr (Event.arr ew)) ;;
  (* event.arr = event_wrt_ssb.wrt_frame(event.frame_id).arr *)
  ew <~ deref event_wrt_ssb ;;
  ev <~ deref event ;;
  ef <~ lift (wrt_frame ew (Event.frame_id ev)) ;;
  assign event (Event.set_arr (Event.arr ef)).

(** The photon fields otherwise: from the event, to the path. *)
Definition fill_departure (event event_wrt_ssb path_event_ssb : loc)
    : M store unit :=
  (* path_event_ssb.arr = path_event_ssb.pos - event_wrt_ssb.pos *)
  es <~ deref event_wrt_ssb ;;
  pe <~ deref path_event_ssb ;;
  _ <~ assign path_event_ssb
         (Event.set_arr (Some (vsub (Event.pos pe) (Event.pos es)))) ;;
  (* event_wrt_ssb.dep = path_event_ssb.arr *)
  pe <~ deref path_event_ssb ;;
  _ <~ assign event_wrt_ssb (Event.set_dep (Event.arr pe)) ;;
  (* event.ssb.dep = event_wrt_ssb.dep *)
  ew <~ deref event_wrt_ssb ;;
  ev <~ deref event ;;
  s <~ lift (match Event.ssb ev with
             | Some s => ret s
             | None => raise AttributeError
             end) ;;
  _ <~ assign s (Event.set_dep (Event.dep ew)) ;;
  (* event.dep = event_wrt_ssb.wrt_frame(event.frame_id).dep *)
  ew <~ deref event_wrt_ssb ;;
  ev <~ deref event ;;
  ef <~ lift (wrt_frame ew (Event.frame_id ev)) ;;
  assign event (Event.set_dep (Event.dep ef)).

(** [Path._solve_photon(event, sign, iters)] without [quick_info]: the pair
    [(absolute_event, relative_event)]; the light time is the time of the
    relative event. *)
Definition _solve_photon (self : Path.t) (event : loc) (sign : Z)
    (iters : nat) : M store (Event.t * Event.t) :=
  let signed_c := (IZR sign * C)%R in
  (* Define the path and event relative to the SSB in J2000 *)
  path_wrt_ssb <~ lift (connect_path self "SSB" "J2000") ;;
  event_wrt_ssb <~ wrt_ssb event ;;
  (* Make an initial guess at the light travel time *)
  e <~ deref event ;;
  e_ssb <~ deref event_wrt_ssb ;;
  pe <~ lift (Path.event_at_time path_wrt_ssb (Event.time e)) ;;
  let lt := (norm (vsub (Event.pos pe) (Event.pos e_ssb)) / signed_c)%R in
  (* Iterate a fixed number of times *)
  lt <~ lift (newton iters path_wrt_ssb (Event.time e) e_ssb signed_c lt) ;;
  let path_time := (Event.time e + lt)%R in
  (* Create the new event *)
  pe <~ lift (Path.event_at_time path_wrt_ssb path_time) ;;
  path_event_ssb <~ alloc pe ;;
  (* Fill in the photon paths *)
  _ <~ (if (sign <? 0)%Z
        then fill_arrival event event_wrt_ssb path_event_ssb
        else fill_departure event event_wrt_ssb path_event_ssb) ;;
  (* Transform the absolute and relative events *)
  pe <~ deref path_event_ssb ;;
  ev <~ deref event ;;
  absolute_event <~ lift (wrt pe (Path.path_id self) (Path.frame_id self)) ;;
  relative_event <~ lift (wrt_event pe ev) ;;
  relative_event <~ lift (wrt_frame relative_event (Event.frame_id ev)) ;;
  mret (Event.set_ssb (Some path_event_ssb) absolute_event,
        Event.set_ssb (Some path_event_ssb)
                      (Event.set_time lt relative_event)).

(** [Path.photon_from_event]: the photon departs from the event. *)
Definition photon_from_event (self : Path.t) (event : loc) (iters : nat)
    : M store (Event.t * Event.t) :=
  _solve_photon self event 1 iters.

(** [Path.photon_to_event]: the photon arrives at the event. *)
Definition photon_to_event (self : Path.t) (event : loc) (iters : nat)
    : M store (Event.t * Event.t) :=
  _solve_photon self event (-1) iters.

End Solver.

(** A path whose [event_at_time] returns an event at every time. *)
Definition evaluates (P : Path.t) : Prop :=
  forall t, exists e, Path.event_at_time P t = inr e.

(** A well-configured registry: no call of the solver into the connector or
    into [oops.event] raises. *)
Class EnvTotal (env : SolverEnv) : Prop := {
  connect_total :
    forall p a b, evaluates p ->
                  exists q, connect_path p a b = inr q /\ evaluates q;
  to_ssb_total : forall e, exists e', to_ssb e = inr e';
  wrt_frame_total : forall e f, exists e', wrt_frame e f = inr e';
  wrt_total : forall e a b, exists e', wrt e a b = inr e';
  wrt_event_total : forall e o, exists e', wrt_event e o = inr e'
}.

(** The configuration in which paths are registered relative to SSB in
    J2000 and events are given in that frame: the connector finds a path
    under its own triple, and the changes of origin and frame have nothing
    to do.  The separation of two events is the difference of their
    positions and velocities. *)
Definition inertial_env : SolverEnv := {|
  connect_path := fun p _ _ => ret p;
  to_ssb := fun e => ret e;
  wrt_frame := fun e _ => ret e;
  wrt := fun e _ _ => ret e;
  wrt_event := fun e o =>
    ret (Event.new (Event.time e)
                   (vsub (Event.pos e) (Event.pos o))
                   (vsub (Event.vel e) (Event.vel o))
                   (Event.origin_id o) (Event.frame_id o))
|}.

(** The two stationary paths of the concrete scenario, A at the root and B
    at 3e5 km along x, and the event on B at time [t]. *)
Definition path_A : Path.t := FixedPath ZERO "SSB" "J2000" "A".


Definition event_on_B (t : R) : Event.t :=
  Event.new t (V3 300000 0 0) ZERO "SSB" "J2000".

(** The Newton pass as the specification words it: residual
    [y = |dpos| - sign*c*lt], derivative
    [dy/dlt = dvel.dpos/|dpos| - sign*c], update [lt -= y / dy_dlt]. *)
Definition spec_newton_step (path_wrt_ssb : Path.t) (event_time : R)
    (event_wrt_ssb : Event.t) (signed_c : R) (lt : R) : result R :=
  path_event <- Path.event_at_time path_wrt_ssb (event_time + lt)%R ;;
  let delta_pos := vsub (Event.pos path_event) (Event.pos event_wrt_ssb) in
  let delta_vel := vsub (Event.vel path_event) (Event.vel event_wrt_ssb) in
  let y := (norm delta_pos - signed_c * lt)%R in
  let dy_dlt := (dot delta_vel delta_pos / norm delta_pos - signed_c)%R in
  ret (lt - y / dy_dlt)%R.

(** A target closing in on the observer along x at 1 km/s, 10 km away at
    time 0, relative to SSB in J2000. *)
Definition approaching_path : Path.t :=
  Path.mk "T" "SSB" "J2000"
          (fun time => ret (Event.new time (V3 (10 - time) 0 0) (V3 (-1) 0 0)
                                      "SSB" "J2000")) None.

(** ** LinearPath (oops/path/linearpath.py) *)

Module LinearPath.

(** A polymath Vector3: its values and, when it carries one, its time
    derivative [d_dt]. *)
Record Qube3 : Type := { vals : Vector3; d_dt : option Vector3 }.

(** [q.wod]: the vector without its derivatives. *)
Definition wod (q : Qube3) : Vector3 := vals q.

(** The objects [hasattr] is applied to in the constructor. *)
Inductive pyobj : Type :=
| PyStr (s : string)
| PyVector3 (q : Qube3).

(** Python's [hasattr(obj, name)]: the attribute name must be a string, any
    other object raises TypeError.  Of the attributes, only [d_dt] of a
    Vector3 is modelled: it is there when the vector carries the
    derivative. *)
Definition hasattr (obj name : pyobj) : result bool :=
  match name with
  | PyStr n =>
      ret (match obj with
           | PyVector3 q => bool_decide (n = "d_dt") && bool_decide (is_Some (d_dt q))
           | PyStr _ => false
           end)
  | PyVector3 _ => raise TypeError
  end.

(** The first argument of the constructor: a tuple or list of two vectors,
    or anything else, converted by [Vector3.as_vector3]. *)
Inductive pos_arg : Type :=
| Two (position velocity : Qube3)
| One (position : Qube3).

(** The attributes of a LinearPath the constructor computes. *)
Record t : Type := mk {
  pos : Vector3;
  vel : Vector3;
  epoch : R;
  path_id : option string;
  origin : string;
  frame : string
}.

(** [Event(time, (pos, vel), origin, frame)] of the later event class. *)
Record event : Type := Event {
  time : R;
  state : Vector3 * Vector3;
  event_origin : string;
  event_frame : string
}.

(** [LinearPath.__init__], up to the registration of the new path, which
    does not touch [pos] and [vel]. *)
Definition __init__ (pos : pos_arg) (epoch : R) (origin frame : string)
    (path_id : option string) : result t :=
  match pos with
  | Two p v => ret (mk (wod p) (wod v) epoch path_id origin frame)
  | One p =>
      (* hasattr('d_dt', pos) *)
      has <- hasattr (PyStr "d_dt") (PyVector3 p) ;;
      vel <- (if has : bool
              then match d_dt p with
                   | Some d => ret d
                   | None => raise AttributeError
                   end
              else ret ZERO) ;;
      ret (mk (wod p) vel epoch path_id origin frame)
  end.

(** [LinearPath.event_at_time]. *)
Definition event_at_time (self : t) (time : R) : event :=
  Event time
        (vadd (pos self) (vscale (time - epoch self) (vel self)), vel self)
        (origin self) (frame self).

(** [LinearPath.__getstate__]: what is pickled. *)
Definition __getstate__ (self : t) : Vector3 * R * string * string :=
  (pos self, epoch self, origin self, frame self).

(** [LinearPath.__setstate__]: [self.__init__] on the four values of the
    state.  The position of the state is the stored position, a single
    vector without derivatives. *)
Definition __setstate__ (state : Vector3 * R * string * string) : result t :=
  let '(pos, epoch, origin, frame) := state in
  __init__ (One {| vals := pos; d_dt := None |}) epoch origin frame None.

End LinearPath.

(** ** Frames (the frame classes and their registry are not among the
    sources) *)

Module Frame.

(** A connected frame: the rotation of positions, velocities and directions
    from the coordinates of [reference_id] to those of [frame_id] at a time,
    and back. *)
Record t : Type := mk {
  frame_id : string;
  reference_id : string;
  rotate_pos_vel : R -> Vector3 * Vector3 -> Vector3 * Vector3;
  unrotate_pos_vel : R -> Vector3 * Vector3 -> Vector3 * Vector3;
  rotate : R -> Vector3 -> Vector3;
  unrotate : R -> Vector3 -> Vector3
}.

End Frame.

(** [frame_registry.connect(frame_id, reference_id)]. *)
Class FrameRegistry : Type := {
  frame_connect : string -> string -> result Frame.t
}.

(** Modelled from the spec: [Event.rotate_by_frame] ([oops.event] is not
    among the sources).  The event is re-oriented from the frame's reference
    into the frame; its time and origin stay. *)
Definition rotate_by_frame (frame : Frame.t) (event : Event.t)
  : result Event.t :=
  _ <- assert (bool_decide (Event.frame_id event = Frame.reference_id frame)) ;;
  let t := Event.time event in
  let pv := Frame.rotate_pos_vel frame t (Event.pos event, Event.vel event) in
  ret (Event.mk t (fst pv) (snd pv) (Event.origin_id event)
                (Frame.frame_id frame)
                (Frame.rotate frame t <$> Event.perp event)
                (Frame.rotate frame t <$> Event.arr event)
                (Frame.rotate frame t <$> Event.dep event)
                (Frame.rotate frame t (Event.vflat event))
                (Event.ssb event)).

(** Modelled from the spec: [Event.unrotate_by_frame], the way back. *)
Definition unrotate_by_frame (frame : Frame.t) (event : Event.t)
  : result Event.t :=
  _ <- assert (bool_decide (Event.frame_id event = Frame.frame_id frame)) ;;
  let t := Event.time event in
  let pv := Frame.unrotate_pos_vel frame t (Event.pos event, Event.vel event) in
  ret (Event.mk t (fst pv) (snd pv) (Event.origin_id event)
                (Frame.reference_id frame)
                (Frame.unrotate frame t <$> Event.perp event)
                (Frame.unrotate frame t <$> Event.arr event)
                (Frame.unrotate frame t <$> Event.dep event)
                (Frame.unrotate frame t (Event.vflat event))
                (Event.ssb event)).

(** ** The required subclasses of Path *)

Section Subclasses.
Context {frames : FrameRegistry}.

(** The frames between consecutive paths of a chain. *)
Fixpoint link_frames (paths : list Path.t) : result (list Frame.t) :=
  match paths with
  | p :: ((q :: _) as rest) =>
      f <- frame_connect (Path.frame_id p) (Path.frame_id q) ;;
      fs <- link_frames rest ;;
      ret (f :: fs)
  | _ => ret []
  end.

(** The loop of [Linked.event_at_time] over the paths after the first. *)
Fixpoint linked_loop (paths : list Path.t) (frames : list Frame.t)
    (event : Event.t) : result Event.t :=
  match paths, frames with
  | p :: paths, f :: frames =>
      event <- unrotate_by_frame f event ;;
      event <- add_to_event p event ;;
      linked_loop paths frames event
  | [], _ => ret event
  | _ :: _, [] => raise IndexError
  end.

(** [Linked(paths)]: the chain of paths, each the origin of the one before,
    as one path from the last origin to the first endpoint. *)
Definition Linked (paths : list Path.t) : result Path.t :=
  fs <- link_frames paths ;;
  match paths, last paths with
  | first :: rest, Some final =>
      ret (Path.mk (Path.path_id first) (Path.origin_id final)
                   (Path.frame_id final)
                   (fun time =>
                      event <- Path.event_at_time first time ;;
                      linked_loop rest fs event)
                   None)
  | _, _ => raise IndexError
  end.

(** [Relative(path, origin)]: the separation of two paths with a common
    origin, in the frame of [origin]. *)
Definition Relative (path origin : Path.t) : result Path.t :=
  _ <- assert (bool_decide (Path.origin_id path = Path.origin_id origin)) ;;
  path_frame <- frame_connect (Path.frame_id path) (Path.frame_id origin) ;;
  ret (Path.mk (Path.path_id path) (Path.path_id origin)
               (Path.frame_id origin)
               (fun time =>
                  event <- Path.event_at_time path time ;;
                  event <- unrotate_by_frame path_frame event ;;
                  subtract_from_event origin event)
               None).

(** [Reversed(path)]: the negated events of a path. *)
Definition Reversed (path : Path.t) : Path.t :=
  Path.mk (Path.origin_id path) (Path.path_id path) (Path.frame_id path)
          (fun time =>
             event <- Path.event_at_time path time ;;
             ret (Event.mk (Event.time event)
                           (vneg (Event.pos event)) (vneg (Event.vel event))
                           (Event.origin_id event) (Event.frame_id event)
                           None None None ZERO (Event.ssb event)))
          None.

(** [Rotated(path, frame)]: the events of a path in another frame. *)
Definition Rotated (path : Path.t) (newframe_id : string) : result Path.t :=
  frame <- frame_connect newframe_id (Path.frame_id path) ;;
  ret (Path.mk (Path.path_id path) (Path.origin_id path) newframe_id
               (fun time =>
                  event <- Path.event_at_time path time ;;
                  rotate_by_frame frame event)
               None).

End Subclasses.

(** ** The path registry *)

(** A registry key: a path ID, a pair [(path_id, origin_id)] or a triple
    [(path_id, origin_id, frame_id)]. *)
Inductive key : Set :=
| Key1 (path_id : string)
| Key2 (path_id origin_id : string)
| Key3 (path_id origin_id frame_id : string).

#[global] Instance key_eq_dec : EqDecision key.
Proof. solve_decision. Defined.

#[global] Instance key_countable : Countable key.
Proof.
  refine (inj_countable'
    (fun k => match k with
              | Key1 a => inl a
              | Key2 a b => inr (inl (a, b))
              | Key3 a b c => inr (inr (a, b, c))
              end)
    (fun s => match s with
              | inl a => Key1 a
              | inr (inl (a, b)) => Key2 a b
              | inr (inr (a, b, c)) => Key3 a b c
              end) _).
  by intros [].
Defined.

(** [registry.REGISTRY]. *)
Abbreviation registry := (gmap key Path.t).

(** [registry.SSB]: the waypoint of the Solar System Barycenter, its own
    ancestry. *)
Definition SSB : Path.t :=
  Path.set_ancestry [Waypoint "SSB" "J2000"] (Waypoint "SSB" "J2000").

(** [Path.initialize_registry]. *)
Definition initialize_registry : registry :=
  <[Key3 "SSB" "SSB" "J2000" := SSB]>
    (<[Key2 "SSB" "SSB" := SSB]> (<[Key1 "SSB" := SSB]> ∅)).

(** [registry.REGISTRY[key]]. *)
Definition lookup_key (k : key) : M registry Path.t :=
  fun reg =>
    match reg !! k with
    | Some p => (inr p, reg)
    | None => (inl KeyError, reg)
    end.

(** [registry.REGISTRY[key] = path]. *)
Definition store_key (k : key) (p : Path.t) : M registry unit :=
  modify (insert k p).

(** [del registry.REGISTRY[key]]. *)
Definition del_key (k : key) : M registry unit :=
  fun reg =>
    match reg !! k with
    | Some _ => (inr tt, delete k reg)
    | None => (inl KeyError, reg)
    end.

(** [key not in registry.REGISTRY]: store unless present. *)
Definition store_if_absent (k : key) (p : Path.t) : M registry unit :=
  fun reg =>
    match reg !! k with
    | Some _ => (inr tt, reg)
    | None => (inr tt, <[k := p]> reg)
    end.

(** [Path.common_ancestry]: the first ancestor of [path1], in order, whose
    ID also names an ancestor of [path2], with the two ancestry lists cut
    after it. *)
Fixpoint find_id (id : string) (l : list Path.t) : option nat :=
  match l with
  | [] => None
  | p :: l =>
      if bool_decide (Path.path_id p = id) then Some O
      else S <$> find_id id l
  end.

Fixpoint common_ancestry_from (i : nat) (rest1 anc1 anc2 : list Path.t)
  : list Path.t * list Path.t :=
  match rest1 with
  | [] => (anc1, anc2)
  | p :: rest1 =>
      match find_id (Path.path_id p) anc2 with
      | Some j => (take (S i) anc1, take (S j) anc2)
      | None => common_ancestry_from (S i) rest1 anc1 anc2
      end
  end.

Definition common_ancestry (path1 path2 : Path.t)
  : result (list Path.t * list Path.t) :=
  match Path.ancestry path1, Path.ancestry path2 with
  | Some anc1, Some anc2 => ret (common_ancestry_from O anc1 anc1 anc2)
  | _, _ => raise AttributeError
  end.

(** [l[:-1]]. *)
Definition drop_last {A : Type} (l : list A) : list A :=
  take (length l - 1) l.

Section Connector.
Context {frames : FrameRegistry}.

(** One side of [connect_to]: the path from the common ancestor to the end
    of an ancestry chain, looked up or constructed. *)
Definition chain_path (register : Path.t -> M registry unit)
    (primary : Path.t) (chain : list Path.t) : M registry (option Path.t) :=
  match chain, last chain with
  | [], _ | _, None => mret None
  | [_], _ => mret (Some primary)
  | _, Some final =>
      p <~ try_KeyError
             (lookup_key (Key2 (Path.path_id primary) (Path.origin_id final)))
             (p <~ lift (Linked chain) ;;
              _ <~ register p ;;
              mret p) ;;
      mret (Some p)
  end.

(** [Path.connect_to(origin, frame)], given the [register] method. *)
Definition connect_to_with (register : Path.t -> M registry unit)
    (self : Path.t) (origin : string) (frame : option string)
  : M registry Path.t :=
  (* Get the endpoint paths and the frame *)
  target <~ lookup_key (Key1 (Path.path_id self)) ;;
  origin <~ lookup_key (Key1 origin) ;;
  let frame_id := default (Path.frame_id origin) frame in
  (* Find the common ancestry *)
  ancestries <~ lift (common_ancestry target origin) ;;
  (* We can ignore the final (matching) entry in each list *)
  let target_ancestry := drop_last (fst ancestries) in
  let origin_ancestry := drop_last (snd ancestries) in
  (* Look up or construct the paths from the common ancestor *)
  target_path <~ chain_path register target target_ancestry ;;
  origin_path <~ chain_path register origin origin_ancestry ;;
  (* Construct the relative path, irrespective of frame *)
  result <~ lift (match origin_path, target_path with
                  | None, None => ret (Waypoint (Path.path_id self) frame_id)
                  | None, Some target_path => ret target_path
                  | Some origin_path, None => ret (Reversed origin_path)
                  | Some origin_path, Some target_path =>
                      Relative target_path origin_path
                  end) ;;
  _ <~ register result ;;
  (* Rotate it into the proper frame if necessary *)
  if bool_decide (Path.frame_id result = frame_id) then mret result
  else
    result <~ lift (Rotated result frame_id) ;;
    _ <~ register result ;;
    mret result.

(** [Path.register(shortcut)].  The recursion through [connect_to] is cut
    by [fuel]. *)
Fixpoint register (fuel : nat) (self : Path.t) (shortcut : option string)
  : M registry unit :=
  match fuel with
  | O => mraise RecursionError
  | S fuel =>
      (* Make sure the registry is initialized *)
      _ <~ modify (fun reg : registry =>
                     if bool_decide (size reg = 0%nat)
                     then initialize_registry else reg) ;;
      match shortcut with
      | Some shortcut =>
          (* Handle a shortcut *)
          _ <~ store_key (Key1 shortcut) self ;;
          store_key (Key3 (Path.path_id self) (Path.origin_id self)
                          (Path.frame_id self)) self
      | None =>
          (* Make sure the origin is registered *)
          origin <~ lookup_key (Key1 (Path.origin_id self)) ;;
          (* If the ID is unregistered, insert this as a primary definition *)
          self <~ try_KeyError
            (_ <~ lookup_key (Key1 (Path.path_id self)) ;; mret self)
            ((* Fill in the ancestry too *)
             anc <~ lift (match Path.ancestry origin with
                          | Some a => ret a
                          | None => raise AttributeError
                          end) ;;
             let self := Path.set_ancestry (self :: anc) self in
             _ <~ store_key (Key1 (Path.path_id self)) self ;;
             (* Also define the "Waypoint" versions *)
             let waypoint := Waypoint (Path.path_id self) (Path.frame_id self) in
             _ <~ store_key (Key2 (Path.path_id self) (Path.path_id self))
                            waypoint ;;
             _ <~ store_key (Key3 (Path.path_id self) (Path.path_id self)
                                  (Path.frame_id self)) waypoint ;;
             (* Also define the path with respect to the SSB if possible *)
             _ <~ (if bool_decide (Path.origin_id self = "SSB"
                                   /\ Path.frame_id self = "J2000")
                   then mret tt
                   else try_pass
                     (wrt_ssb <~ connect_to_with
                                   (fun p => register fuel p None)
                                   self "SSB" (Some "J2000") ;;
                      _ <~ store_key (Key3 (Path.path_id wrt_ssb) "SSB" "J2000")
                                     wrt_ssb ;;
                      store_if_absent (Key2 (Path.path_id wrt_ssb) "SSB")
                                      wrt_ssb)) ;;
             mret self) ;;
          (* Secondary and tertiary definitions *)
          _ <~ store_if_absent
                 (Key2 (Path.path_id self) (Path.origin_id self)) self ;;
          store_if_absent
            (Key3 (Path.path_id self) (Path.origin_id self)
                  (Path.frame_id self)) self
      end
  end.

(** [Path.connect_to(origin, frame)]. *)
Definition connect_to (fuel : nat) (self : Path.t) (origin : string)
    (frame : option string) : M registry Path.t :=
  connect_to_with (fun p => register fuel p None) self origin frame.

(** [Path.connect(target, origin, frame)] on path IDs. *)
Definition connect (fuel : nat) (target_id origin_id : string)
    (frame : option string) : M registry Path.t :=
  frame_id <~ match frame with
              | Some f => mret f
              | None =>
                  origin <~ lookup_key (Key1 origin_id) ;;
                  mret (Path.frame_id origin)
              end ;;
  (* If the path already exists, just return it *)
  try_KeyError (lookup_key (Key3 target_id origin_id frame_id))
    ((* If the path exists but the frame is wrong, return a rotated version *)
     try_KeyError
       (newpath <~ lookup_key (Key2 target_id origin_id) ;;
        result <~ lift (Rotated newpath frame_id) ;;
        _ <~ register fuel result None ;;
        mret result)
       ((* Otherwise, construct it from the common ancestor *)
        target_path <~ lookup_key (Key1 target_id) ;;
        connect_to fuel target_path origin_id (Some frame_id))).

End Connector.

(** The body of the loop of [Path.unregister] for one key. *)
Definition unregister_key (path_id : string) (k : key) : M registry unit :=
  match k with
  | Key1 a =>
      if bool_decide (path_id = a) then del_key k else mret tt
  | Key2 a b | Key3 a b _ =>
      _ <~ (if bool_decide (path_id = a) then del_key k else mret tt) ;;
      if bool_decide (path_id = b) then del_key k else mret tt
  end.

(** The loop of [Path.unregister] over a snapshot of the keys. *)
Fixpoint unregister_keys (path_id : string) (keys : list key)
  : M registry unit :=
  match keys with
  | [] => mret tt
  | k :: keys =>
      _ <~ unregister_key path_id k ;;
      unregister_keys path_id keys
  end.

(** [registry.REGISTRY.keys()]: the keys, in the order of the dictionary. *)
Definition keys (reg : registry) : list key := (map_to_list reg).*1.

(** [Path.unregister]. *)
Definition unregister (self : Path.t) : M registry unit :=
  fun reg => unregister_keys (Path.path_id self) (keys reg) reg.

(** [Path.unregister_frame]. *)
Definition unregister_frame (frame_id : string) : M registry unit :=
  fun reg =>
    (fix loop (ks : list key) : M registry unit :=
       match ks with
       | [] => mret tt
       | k :: ks =>
           _ <~ match k with
                | Key3 _ _ c =>
                    if bool_decide (frame_id = c) then del_key k else mret tt
                | _ => mret tt
                end ;;
           loop ks
       end) (keys reg) reg.

(** [Path.reregister]. *)
Definition reregister {frames : FrameRegistry} (fuel : nat) (self : Path.t)
  : M registry unit :=
  _ <~ unregister self ;;
  register fuel self None.

(** [Path.lookup]. *)
Definition lookup (k : key) : M registry Path.t := lookup_key k.

(** A frame registry that knows J2000 only: every frame connects to itself
    by the identity, nothing else is registered. *)
Definition identity_frame (frame_id : string) : Frame.t :=
  Frame.mk frame_id frame_id (fun _ pv => pv) (fun _ pv => pv)
           (fun _ v => v) (fun _ v => v).

Definition j2000_frames : FrameRegistry := {|
  frame_connect := fun frame_id reference_id =>
    if bool_decide (frame_id = reference_id /\ frame_id = "J2000")
    then ret (identity_frame frame_id)
    else raise KeyError
|}.

(** ** Backplane (oops_/backplane.py) *)

Module Backplane.

(** What the backplane consumes from its collaborators: events and arrays,
    the surfaces and paths of the registered bodies with their photon
    solvers, and the arithmetic of the quantities modelled here.  A photon
    solver returns the new event and the destination event with its arrival
    fields filled in. *)
Class World : Type := {
  event : Type;
  array : Type;
  surface : Type;
  path : Type;
  event_inhabited : Inhabited event;
  (** [Backplane.get_surface(surface_id)] *)
  get_surface : string -> result surface;
  intercept_DERIVS_ARE_IMPLEMENTED : surface -> bool;
  (** [Backplane.get_path(path_id)] *)
  get_path : string -> result path;
  (** [surface.photon_to_event(dest, derivs)] *)
  surface_photon_to_event : surface -> bool -> event -> result (event * event);
  (** [path.photon_to_event(dest)] *)
  path_photon_to_event : path -> event -> result (event * event);
  (** [event.plain()] *)
  plain : event -> event;
  (** the [event_key] and [surface] attributes put on a new event *)
  annotate : list string -> event -> event;
  (** [event.arr == Empty()] *)
  arr_is_Empty : event -> bool;
  (** [event.subfields[direction + "_lt"]] *)
  subfield_lt : event -> string -> result array;
  (** [event.time] *)
  time_of : event -> array;
  (** [abs(lt)] and [lt * constants.C] *)
  array_abs : array -> array;
  array_times_C : array -> array;
  (** [Surface.resolution(event.pos.d_dlos * meshgrid.dlos_duv)] *)
  resolution_of : event -> result (array * array);
  (** what [register_backplane] makes of a value before it stores it *)
  as_backplane : array -> array
}.

#[global] Existing Instance event_inhabited.

(** A key of an event dictionary: a tuple of body names, or the name alone
    of a one-body chain. *)
Inductive ekey : Set :=
| EName (body : string)
| EChain (chain : list string).

#[global] Instance ekey_eq_dec : EqDecision ekey.
Proof. solve_decision. Defined.

#[global] Instance ekey_countable : Countable ekey.
Proof.
  refine (inj_countable'
    (fun k => match k with EName a => inl a | EChain l => inr l end)
    (fun s => match s with inl a => EName a | inr l => EChain l end) _).
  by intros [].
Defined.

(** A key of the backplane dictionary: the name of the method, the event
    key and the further parameters. *)
Definition bkey : Set := string * list string * list string.

(** A call of a photon solver, for counting: not part of the Backplane
    object. *)
Inductive call : Set :=
| SurfaceSolve (chain : list string) (derivs : bool)
| PathSolve (chain : list string).

#[global] Instance call_eq_dec : EqDecision call.
Proof. solve_decision. Defined.

Section Methods.
Context {world : World}.

(** The Backplane object: the event objects it refers to, its dictionaries,
    and the solver calls made so far. *)
Record t : Type := mk {
  objs : list event;
  surface_events_w_derivs : gmap ekey loc;
  surface_events : gmap ekey loc;
  path_events : gmap ekey loc;
  backplanes : gmap bkey array;
  calls : list call
}.

(** [Backplane.__init__], from the event of the observation. *)
Definition __init__ (obs_event : event) : t :=
  mk [obs_event; plain obs_event]
     {[EChain [] := 0%nat]} {[EChain [] := 1%nat]} ∅ ∅ [].

Definition new_event (e : event) : M t loc :=
  fun b => (inr (length (objs b)),
            mk (objs b ++ [e]) (surface_events_w_derivs b) (surface_events b)
               (path_events b) (backplanes b) (calls b)).

Definition read_event (r : loc) : M t event :=
  fun b => (inr (objs b !!! r), b).

Definition write_event (r : loc) (e : event) : M t unit :=
  modify (fun b => mk (<[r := e]> (objs b)) (surface_events_w_derivs b)
                      (surface_events b) (path_events b) (backplanes b)
                      (calls b)).

Definition count_call (c : call) : M t unit :=
  modify (fun b => mk (objs b) (surface_events_w_derivs b) (surface_events b)
                      (path_events b) (backplanes b) (calls b ++ [c])).

Definition set_surface_event_w_derivs (k : ekey) (r : loc) : M t unit :=
  modify (fun b => mk (objs b) (<[k := r]> (surface_events_w_derivs b))
                      (surface_events b) (path_events b) (backplanes b)
                      (calls b)).

Definition set_surface_event (k : ekey) (r : loc) : M t unit :=
  modify (fun b => mk (objs b) (surface_events_w_derivs b)
                      (<[k := r]> (surface_events b)) (path_events b)
                      (backplanes b) (calls b)).

Definition set_path_event (k : ekey) (r : loc) : M t unit :=
  modify (fun b => mk (objs b) (surface_events_w_derivs b) (surface_events b)
                      (<[k := r]> (path_events b)) (backplanes b) (calls b)).

(** [dict[key]]. *)
Definition item {K V : Type} `{Countable K} (dict : t -> gmap K V) (k : K)
  : M t V :=
  fun b =>
    match dict b !! k with
    | Some v => (inr v, b)
    | None => (inl KeyError, b)
    end.

(** [str.upper] on ASCII letters. *)
Definition upper_ascii (c : Ascii.ascii) : Ascii.ascii :=
  let n := Ascii.nat_of_ascii c in
  if (97 <=? n)%nat && (n <=? 122)%nat
  then Ascii.ascii_of_nat (n - 32) else c.

Fixpoint upper (s : string) : string :=
  match s with
  | EmptyString => EmptyString
  | String c s => String (upper_ascii c) (upper s)
  end.

(** The argument given for an event key. *)
Inductive pykey : Type :=
| PyString (s : string)
| PyTuple (l : list string)
| PyOther.

(** [Backplane.standardize_event_key]. *)
Definition standardize_event_key (event_key : pykey) : result (list string) :=
  match event_key with
  | PyString s => ret [s]
  | PyTuple l => ret l
  | PyOther => raise ValueError
  end.

(** [surface.photon_to_event(dest, derivs)] on the objects of the
    backplane: the destination is updated, the new event is a new object. *)
Definition solve_surface (chain : list string) (s : surface) (derivs : bool)
    (dest : loc) : M t event :=
  _ <~ count_call (SurfaceSolve chain derivs) ;;
  d <~ read_event dest ;;
  r <~ lift (surface_photon_to_event s derivs d) ;;
  _ <~ write_event dest (snd r) ;;
  mret (fst r).

Definition solve_path (chain : list string) (p : path) (dest : loc)
  : M t event :=
  _ <~ count_call (PathSolve chain) ;;
  d <~ read_event dest ;;
  r <~ lift (path_photon_to_event p d) ;;
  _ <~ write_event dest (snd r) ;;
  mret (fst r).

(** [Backplane.get_surface_event_w_derivs], given the destination
    [get_surface_event(event_key[1:])]. *)
Definition get_surface_event_w_derivs_from (dest : M t loc)
    (event_key : list string) : M t loc :=
  (* If the event already exists, return it *)
  try_KeyError (item surface_events_w_derivs (EChain event_key))
    ((* Create the event *)
     dest <~ dest ;;
     match event_key with
     | [] => mraise IndexError
     | body :: rest =>
         surface <~ lift (get_surface body) ;;
         event <~ solve_surface event_key surface true dest ;;
         (* Save extra information in the event object *)
         event <~ new_event (annotate event_key event) ;;
         _ <~ set_surface_event_w_derivs (EChain event_key) event ;;
         e <~ read_event event ;;
         event_wo_derivs <~ new_event (annotate event_key (plain e)) ;;
         _ <~ set_surface_event (EChain event_key) event_wo_derivs ;;
         (* Also save into the dictionary keyed by the string name alone *)
         _ <~ (if bool_decide (length event_key = 1%nat)
               then
                 _ <~ set_surface_event_w_derivs (EName body) event ;;
                 set_surface_event (EName body) event_wo_derivs
               else mret tt) ;;
         mret event
     end).

(** [Backplane.get_path_event], given the destination. *)
Definition get_path_event_from (dest : M t loc) (event_key : list string)
  : M t loc :=
  (* If the event already exists, return it *)
  try_KeyError (item path_events (EChain event_key))
    ((* Create the event *)
     dest <~ dest ;;
     match event_key with
     | [] => mraise IndexError
     | body :: rest =>
         path <~ lift (get_path (upper body)) ;;
         event <~ solve_path event_key path dest ;;
         event <~ new_event (annotate event_key event) ;;
         _ <~ set_path_event (EChain event_key) event ;;
         (* For a tuple of length 1, also register under the name string *)
         _ <~ (if bool_decide (length event_key = 1%nat)
               then set_path_event (EName body) event
               else mret tt) ;;
         mret event
     end).

(** [Backplane.get_surface_event] on a standardized key. *)
Fixpoint get_surface_event (event_key : list string) : M t loc :=
  (* If the event already exists, return it *)
  try_KeyError (item surface_events (EChain event_key))
    (match event_key with
     | [] => mraise IndexError
     | body :: rest =>
         (* The Sun is treated as a path, not a surface, unless it is first *)
         if bool_decide (upper body = "SUN") && (1 <? length event_key)%nat
         then get_path_event_from (get_surface_event rest) event_key
         else
           (* Look up the photon's departure surface and destination *)
           dest <~ get_surface_event rest ;;
           surface <~ lift (get_surface body) ;;
           let solve :=
             (* Create the event and save it in the dictionary *)
             event <~ solve_surface event_key surface false dest ;;
             event <~ new_event (annotate event_key event) ;;
             _ <~ set_surface_event (EChain event_key) event ;;
             mret event in
           (* Calculate derivatives for the first step from the observer *)
           if bool_decide (length event_key = 1%nat)
              && intercept_DERIVS_ARE_IMPLEMENTED surface
           then
             try_except NotImplementedError
               (_ <~ get_surface_event_w_derivs_from (get_surface_event rest)
                                                     event_key ;;
                item surface_events (EChain event_key))
               solve
           else solve
     end).

(** [Backplane.get_surface_event_w_derivs]. *)
Definition get_surface_event_w_derivs (event_key : list string) : M t loc :=
  get_surface_event_w_derivs_from (get_surface_event (tail event_key))
                                  event_key.

(** [Backplane.get_path_event]. *)
Definition get_path_event (event_key : list string) : M t loc :=
  get_path_event_from (get_surface_event (tail event_key)) event_key.

(** [Backplane.get_surface_event_with_arr]. *)
Definition get_surface_event_with_arr (event_key : list string) : M t loc :=
  event <~ get_surface_event event_key ;;
  e <~ read_event event ;;
  _ <~ (if arr_is_Empty e
        then _ <~ get_path_event ("sun" :: event_key) ;; mret tt
        else mret tt) ;;
  mret event.

(** [Backplane.register_backplane]. *)
Definition register_backplane (key : bkey) (backplane : array) : M t unit :=
  modify (fun b => mk (objs b) (surface_events_w_derivs b) (surface_events b)
                      (path_events b)
                      (<[key := as_backplane backplane]> (backplanes b))
                      (calls b)).

(** [key not in self.backplanes.keys()]. *)
Definition absent (key : bkey) : M t bool :=
  fun b => (inr (bool_decide (backplanes b !! key = None)), b).

(** [assert direction in ("dep", "arr")]. *)
Definition assert_direction (direction : string) : M t unit :=
  lift (assert (bool_decide (direction = "dep" \/ direction = "arr"))).

(** [Backplane.light_time]. *)
Definition light_time (event_key : pykey) (direction : string) : M t array :=
  event_key <~ lift (standardize_event_key event_key) ;;
  _ <~ assert_direction direction ;;
  let key := ("light_time", event_key, [direction]) in
  fresh <~ absent key ;;
  _ <~ (if fresh : bool
        then
          event <~ (if bool_decide (direction = "arr")
                    then get_surface_event_with_arr event_key
                    else get_surface_event event_key) ;;
          e <~ read_event event ;;
          lt <~ lift (subfield_lt e direction) ;;
          register_backplane key (array_abs lt)
        else mret tt) ;;
  item backplanes key.

(** [Backplane.distance]. *)
Definition distance (event_key : pykey) (direction : string) : M t array :=
  event_key' <~ lift (standardize_event_key event_key) ;;
  _ <~ assert_direction direction ;;
  let key := ("distance", event_key', [direction]) in
  fresh <~ absent key ;;
  _ <~ (if fresh : bool
        then
          lt <~ light_time (PyTuple event_key') direction ;;
          register_backplane key (array_times_C lt)
        else mret tt) ;;
  item backplanes key.

(** [Backplane.event_time]. *)
Definition event_time (event_key : pykey) : M t array :=
  event_key <~ lift (standardize_event_key event_key) ;;
  let key := ("event_time", event_key, []) in
  fresh <~ absent key ;;
  _ <~ (if fresh : bool
        then
          event <~ get_surface_event event_key ;;
          e <~ read_event event ;;
          register_backplane key (time_of e)
        else mret tt) ;;
  item backplanes key.

(** [Backplane._fill_surface_resolution]. *)
Definition _fill_surface_resolution (event_key : list string) : M t unit :=
  event <~ get_surface_event_w_derivs event_key ;;
  e <~ read_event event ;;
  res <~ lift (resolution_of e) ;;
  _ <~ register_backplane ("finest_resolution", event_key, []) (fst res) ;;
  register_backplane ("coarsest_resolution", event_key, []) (snd res).

(** [Backplane.finest_resolution]. *)
Definition finest_resolution (event_key : pykey) : M t array :=
  event_key <~ lift (standardize_event_key event_key) ;;
  let key := ("finest_resolution", event_key, []) in
  fresh <~ absent key ;;
  _ <~ (if fresh : bool then _fill_surface_resolution event_key else mret tt) ;;
  item backplanes key.

(** [Backplane.coarsest_resolution]. *)
Definition coarsest_resolution (event_key : pykey) : M t array :=
  event_key <~ lift (standardize_event_key event_key) ;;
  let key := ("coarsest_resolution", event_key, []) in
  fresh <~ absent key ;;
  _ <~ (if fresh : bool then _fill_surface_resolution event_key else mret tt) ;;
  item backplanes key.


End Methods.

End Backplane.



(** A world of two bodies, "a" and "b", whose surfaces have no intercept
    derivatives for the first step; events are the chains they stand for,
    arrays are numbers, and every photon solve succeeds. *)
Definition two_body_world : Backplane.World := {|
  Backplane.event := list string;
  Backplane.array := nat;
  Backplane.surface := string;
  Backplane.path := string;
  Backplane.event_inhabited := populate [];
  Backplane.get_surface := fun id => ret id;
  Backplane.intercept_DERIVS_ARE_IMPLEMENTED := fun _ => false;
  Backplane.get_path := fun id => ret id;
  Backplane.surface_photon_to_event := fun s _ dest => ret (s :: dest, dest);
  Backplane.path_photon_to_event := fun p dest => ret (p :: dest, dest);
  Backplane.plain := fun e => e;
  Backplane.annotate := fun _ e => e;
  Backplane.arr_is_Empty := fun _ => true;
  Backplane.subfield_lt := fun e _ => ret (length e);
  Backplane.time_of := fun e => length e;
  Backplane.array_abs := fun a => a;
  Backplane.array_times_C := fun a => a;
  Backplane.resolution_of := fun e => ret (length e, length e);
  Backplane.as_backplane := fun a => a
|}.



(** ** Predicates of the statements *)

(** The [ssb] link of an event points into the store. *)
Definition ssb_ok (e : Event.t) (h : store) : Prop :=
  match Event.ssb e with
  | Some s => is_Some (h !! s)
  | None => True
  end.

(** [m] moves every state of the backplane to one related to it by [R],
    also when it raises. *)
Definition keeps {world : Backplane.World} {A : Type}
    (R : Backplane.t -> Backplane.t -> Prop) (m : M Backplane.t A) : Prop :=
  forall b, R b (m b).2.

(** The entries of [surface_events] for chains longer than [n] stay. *)
Definition longer_surface_events_stay {world : Backplane.World} (n : nat)
    (b b' : Backplane.t) : Prop :=
  forall k', (n < length k')%nat ->
             Backplane.surface_events b' !! Backplane.EChain k'
             = Backplane.surface_events b !! Backplane.EChain k'.

(** ** What it means for the connector to be right *)

(** A position with a velocity. *)
Definition PV : Type := (Vector3 * Vector3)%type.

Definition pvzero : PV := (ZERO, ZERO).

Definition pvadd (x y : PV) : PV := (vadd x.1 y.1, vadd x.2 y.2).

Definition pvsub (x y : PV) : PV := (vsub x.1 y.1, vsub x.2 y.2).

Definition pvneg (x : PV) : PV := (vneg x.1, vneg x.2).

Definition event_pv (e : Event.t) : PV := (Event.pos e, Event.vel e).

(** A frame registry in which every frame connects to every other by the
    identity. *)
Definition identity_frames : FrameRegistry := {|
  frame_connect := fun frame_id reference_id =>
    ret (Frame.mk frame_id reference_id (fun _ pv => pv) (fun _ pv => pv)
                  (fun _ v => v) (fun _ v => v))
|}.

Section Consistency.
Context {frames : FrameRegistry}.

(** The rotation of positions and velocities from frame [b] into frame
    [a]. *)
Definition T (a b : string) (t : R) (x : PV) : PV :=
  match frame_connect a b with
  | inr fr => Frame.rotate_pos_vel fr t x
  | inl _ => x
  end.

(** The frames of a registry form a connected, coherent family of linear
    changes of coordinates. *)
Class FrameLaws : Prop := {
  fc_total : forall a b, exists fr, frame_connect a b = inr fr;
  fc_ids : forall a b fr,
    frame_connect a b = inr fr ->
    Frame.frame_id fr = a /\ Frame.reference_id fr = b;
  fc_unrotate : forall a b fr t x,
    frame_connect a b = inr fr -> Frame.unrotate_pos_vel fr t x = T b a t x;
  T_add : forall a b t x y, T a b t (pvadd x y) = pvadd (T a b t x) (T a b t y);
  T_id : forall a t x, T a a t x = x;
  T_comp : forall a b c t x, T a b t (T b c t x) = T a c t x
}.

(** The offset of a path at a time, the origin when it raises. *)
Definition pv_of (p : Path.t) (t : R) : PV :=
  match Path.event_at_time p t with
  | inr e => event_pv e
  | inl _ => pvzero
  end.

(** The offset of the first path of a chain from the origin of the last, in
    J2000. *)
Definition chain_offset (chain : list Path.t) (t : R) : PV :=
  foldr (fun p acc => pvadd (T "J2000" (Path.frame_id p) t (pv_of p t)) acc)
        pvzero chain.

(** A path whose events carry the time asked for and the path's own origin
    and frame. *)
Definition well_labelled (p : Path.t) : Prop :=
  forall t, exists e,
    Path.event_at_time p t = inr e /\
    Event.time e = t /\
    Event.origin_id e = Path.origin_id p /\
    Event.frame_id e = Path.frame_id p.

(** Two objects for the same path. *)
Definition same_path (p q : Path.t) : Prop :=
  Path.path_id p = Path.path_id q /\
  Path.origin_id p = Path.origin_id q /\
  Path.frame_id p = Path.frame_id q /\
  Path.event_at_time p = Path.event_at_time q.

(** The ancestry registered for a path ID. *)
Definition anc_of (reg : registry) (id : string) : option (list Path.t) :=
  p ← reg !! Key1 id ; Path.ancestry p.

(** An ancestry list as the registry builds it: each path is the origin of
    the one before, up to SSB; no ID twice; and every ancestor is registered
    with the rest of the list as its own ancestry. *)
Record wf_ancestry (reg : registry) (anc : list Path.t) : Prop := {
  wf_labelled : Forall well_labelled anc;
  wf_links : forall i p q,
    anc !! i = Some p -> anc !! S i = Some q ->
    Path.origin_id p = Path.path_id q;
  wf_root : exists root, last anc = Some root /\ Path.path_id root = "SSB";
  wf_nodup : NoDup (Path.path_id <$> anc);
  wf_tree : forall i q,
    anc !! i = Some q ->
    exists pq, reg !! Key1 (Path.path_id q) = Some pq /\
               same_path q pq /\
               Path.ancestry pq = Some (drop i anc)
}.

(** [p] delivers the offset [off], given in J2000: at every time it returns
    an event that carries that time and the frame of [p], names an origin
    among [labels], and whose position and velocity, taken to J2000, are
    [off]. *)
Definition delivers (p : Path.t) (labels : string -> Prop) (off : R -> PV)
  : Prop :=
  forall t, exists e,
    Path.event_at_time p t = inr e /\
    Event.time e = t /\
    Event.frame_id e = Path.frame_id p /\
    labels (Event.origin_id e) /\
    T "J2000" (Path.frame_id p) t (event_pv e) = off t.

(** The origin an event of the path from [b] to [a] may name: [b], or, for
    a reversed path, [a], an ancestor of [b]. *)
Definition origin_label (a b : string) (ancb : list Path.t) (l : string)
  : Prop :=
  l = b \/ (l = a /\ a ∈ Path.path_id <$> ancb /\ a <> b).

(** [p] is the path from [b] to [a]: it delivers the difference of the
    offsets of [a] and [b] from SSB. *)
Definition represents (reg : registry) (p : Path.t) (a b : string) : Prop :=
  Path.path_id p = a /\
  Path.origin_id p = b /\
  exists anca ancb,
    anc_of reg a = Some anca /\
    anc_of reg b = Some ancb /\
    delivers p (origin_label a b ancb)
             (fun t => pvsub (chain_offset anca t) (chain_offset ancb t)).

(** A consistent registry: every primary definition has a well-formed
    ancestry, and every entry under a pair or a triple is the path between
    its two IDs, in the frame of the triple. *)
Record consistent (reg : registry) : Prop := {
  cons_primary : forall id p,
    reg !! Key1 id = Some p ->
    Path.path_id p = id /\
    exists anc, Path.ancestry p = Some anc /\ wf_ancestry reg anc /\
                exists q rest, anc = q :: rest /\ same_path q p;
  cons_pair : forall a b p,
    reg !! Key2 a b = Some p -> represents reg p a b;
  cons_triple : forall a b f p,
    reg !! Key3 a b f = Some p ->
    Path.frame_id p = f /\ represents reg p a b
}.

(** The consecutive paths of a chain: each is the origin of the one
    before. *)
Definition chained (chain : list Path.t) : Prop :=
  forall i p q,
    chain !! i = Some p -> chain !! S i = Some q ->
    Path.origin_id p = Path.path_id q.

(** Two registries with the same primary definitions. *)
Definition same_primaries (reg reg' : registry) : Prop :=
  forall id, reg' !! Key1 id = reg !! Key1 id.

(** The registry after [register] of a path that is not a primary
    definition. *)
Definition with_secondary (p : Path.t) (reg : registry) : registry :=
  (store_if_absent
     (Key3 (Path.path_id p) (Path.origin_id p) (Path.frame_id p)) p
     (store_if_absent (Key2 (Path.path_id p) (Path.origin_id p)) p reg).2).2.

(** What [chain_path] returns for the first [i] paths of the ancestry of
    [X]: nothing when there are none, and else a path from the ancestor of
    ID [c] to [X]. *)
Definition side_ok (X : string) (aX : list Path.t) (i : nat) (c : string)
    (r : option Path.t) : Prop :=
  match r with
  | None => i = 0%nat
  | Some x =>
      (0 < i)%nat /\ Path.path_id x = X /\ Path.origin_id x = c /\
      delivers x (eq c) (chain_offset (take i aX))
  end.

(** The primary definitions of [reg] are still those of [reg']. *)
Definition extends (reg reg' : registry) : Prop :=
  forall id p, reg !! Key1 id = Some p -> reg' !! Key1 id = Some p.

End Consistency.

(** Three fixed paths, and the registry after [Path.initialize_registry] and
    their primary registrations. *)
Definition EARTH : Path.t := FixedPath (V3 1 0 0) "SSB" "J2000" "EARTH".

Definition MOON : Path.t := FixedPath (V3 0 1 0) "EARTH" "J2000" "MOON".

Definition MARS : Path.t := FixedPath (V3 0 0 2) "SSB" "J2000" "MARS".

Definition solar_registry : registry :=
  let register := register (frames := identity_frames) 2 in
  (register MARS None
     (register MOON None
        (register EARTH None initialize_registry).2).2).2.
(** Whether a key names a path ID: as the key itself, or as the first or
    the second component of a pair or a triple. *)
Definition names (path_id : string) (k : key) : bool :=
  match k with
  | Key1 a => bool_decide (path_id = a)
  | Key2 a b | Key3 a b _ =>
      bool_decide (path_id = a) || bool_decide (path_id = b)
  end.

(** The registry of the three fixed paths after MOON has also been
    registered under the shortcut name LUNA. *)
Definition luna_registry : registry :=
  (register (frames := identity_frames) 1 MOON (Some "LUNA")
            solar_registry).2.
(** The chains [get_surface_event] has to solve for an event key, from the
    observer outwards: the key and its tails, up to the first that is in
    the dictionary. *)
Fixpoint unsolved {world : Backplane.World} (b : Backplane.t)
    (event_key : list string) : list (list string) :=
  match event_key with
  | [] => []
  | _ :: rest =>
      if decide (is_Some (Backplane.surface_events b
                            !! Backplane.EChain event_key))
      then []
      else unsolved b rest ++ [event_key]
  end.

(** * Properties *)

(** ** Running monadic code *)

Lemma mbind_inr_inv {S A B : Type} (m : M S A) (k : A -> M S B) s b s' :
  mbind m k s = (inr b, s') ->
  exists a s1, m s = (inr a, s1) /\ k a s1 = (inr b, s').
Proof.
  unfold mbind. destruct (m s) as [[e|a] s1]; [discriminate|].
  intros Hk. by exists a, s1.
Qed.

Lemma mbind_run {S A B : Type} (m : M S A) (k : A -> M S B) s a s1 :
  m s = (inr a, s1) -> mbind m k s = k a s1.
Proof. intros Hm. unfold mbind. by rewrite Hm. Qed.

Lemma lift_inr_inv {S A : Type} (r : result A) (s s' : S) a :
  lift r s = (inr a, s') -> r = inr a /\ s' = s.
Proof. unfold lift. intros [= -> ->]. done. Qed.

(** ** The store *)

Lemma lookup_update_eq (r : loc) f (h : store) e :
  h !! r = Some e -> update r f h !! r = Some (f e).
Proof.
  intros Hr. unfold update.
  rewrite (list_lookup_total_correct _ _ _ Hr).
  apply list_lookup_insert_eq. by eapply lookup_lt_Some.
Qed.

Lemma lookup_update_ne (r r' : loc) f (h : store) :
  r <> r' -> update r f h !! r' = h !! r'.
Proof. intros Hne. unfold update. by apply list_lookup_insert_ne. Qed.

Lemma deref_inv (r : loc) (h h' : store) e x :
  h !! r = Some e -> deref r h = (inr x, h') -> x = e /\ h' = h.
Proof.
  intros Hr. unfold deref. intros [= <- <-].
  by rewrite (list_lookup_total_correct _ _ _ Hr).
Qed.

Lemma deref_run (r : loc) (h : store) e :
  h !! r = Some e -> deref r h = (inr e, h).
Proof.
  intros Hr. unfold deref. by rewrite (list_lookup_total_correct _ _ _ Hr).
Qed.

Lemma assign_run (r : loc) f (h : store) :
  assign r f h = (inr tt, update r f h).
Proof. reflexivity. Qed.

Ltac run_deref H :=
  rewrite (mbind_run _ _ _ _ _ (deref_run _ _ _ H)).

Ltac run_deref_in H H' :=
  rewrite (mbind_run _ _ _ _ _ (deref_run _ _ _ H)) in H'.

Ltac run_assign :=
  rewrite (mbind_run _ _ _ _ _ (assign_run _ _ _)).

Section SolverFacts.
Context {env : SolverEnv}.

Lemma wrt_ssb_inv (r : loc) (h h1 : store) e s :
  h !! r = Some e -> ssb_ok e h ->
  wrt_ssb r h = (inr s, h1) ->
  exists es,
    h1 !! r = Some (Event.set_ssb (Some s) e) /\
    h1 !! s = Some es /\
    (s = r -> es = Event.set_ssb (Some s) e) /\
    (Event.ssb e = None ->
       if bool_decide (Event.origin_id e = "SSB" /\ Event.frame_id e = "J2000")
       then s = r
       else exists e0, to_ssb e = inr e0 /\ Event.pos es = Event.pos e0).
Proof.
  intros Hr Hok. unfold wrt_ssb.
  intros H. apply mbind_inr_inv in H as (x & h0 & Hd & H).
  apply (deref_inv _ _ _ _ _ Hr) in Hd as [-> ->].
  pose proof (lookup_lt_Some _ _ _ Hr) as Hlt.
  unfold ssb_ok in Hok. destruct (Event.ssb e) as [s0|] eqn:Hs.
  - injection H as <- <-. destruct Hok as [es Hes]. exists es.
    assert (He : Event.set_ssb (Some s0) e = e).
    { destruct e; simpl in *; by subst. }
    rewrite He. repeat split; try done. intros ->. congruence.
  - case_bool_decide as Hin.
    + cbn in H. injection H as <- <-.
      exists (Event.set_ssb (Some r) e).
      rewrite (lookup_update_eq _ _ _ _ Hr). done.
    + apply mbind_inr_inv in H as (e0 & h2 & Hto & H).
      apply lift_inr_inv in Hto as [Hto ->].
      cbn in H. injection H as <- <-.
      exists (Event.set_ssb (Some (length h)) e0).
      assert (Hs1 : update (length h) (Event.set_ssb (Some (length h))) (h ++ [e0])
                      !! length h = Some (Event.set_ssb (Some (length h)) e0)).
      { apply lookup_update_eq. rewrite lookup_app_r by done.
        by rewrite Nat.sub_diag. }
      split; [|split; [|split]].
      * erewrite lookup_update_eq; [done|].
        rewrite lookup_update_ne by lia. by rewrite lookup_app_l.
      * rewrite lookup_update_ne by lia. exact Hs1.
      * intros Heq. lia.
      * intros _. by exists e0.
Qed.


Lemma fill_arrival_char (r s p : loc) (h : store) (er es pe : Event.t) :
  p <> r -> p <> s ->
  h !! r = Some er -> h !! s = Some es -> h !! p = Some pe ->
  Event.ssb er = Some s -> (s = r -> es = er) ->
  let d := vsub (Event.pos es) (Event.pos pe) in
  exists h4 er',
    h4 !! r = Some er' /\
    (forall x, Event.set_arr x er' = Event.set_arr x er) /\
    h4 !! p = Some (Event.set_dep (Some d) pe) /\
    fill_arrival r s p h =
      (ef <~ lift (wrt_frame (Event.set_arr (Some d) es) (Event.frame_id er)) ;;
       assign r (Event.set_arr (Event.arr ef))) h4.
Proof.
  intros Hpr Hps Hr Hs Hp Hssb Hal d.
  unfold fill_arrival. run_deref Hs. run_deref Hp. run_assign. fold d.
  set (h2 := update p (Event.set_dep (Some d)) h).
  assert (Hp2 : h2 !! p = Some (Event.set_dep (Some d) pe))
    by (by apply lookup_update_eq).
  assert (Hs2 : h2 !! s = Some es) by (unfold h2; by rewrite lookup_update_ne).
  run_deref Hp2. run_assign. cbn [Event.dep Event.set_dep].
  set (h3 := update s (Event.set_arr (Some d)) h2).
  assert (Hs3 : h3 !! s = Some (Event.set_arr (Some d) es))
    by (by apply lookup_update_eq).
  assert (Hp3 : h3 !! p = Some (Event.set_dep (Some d) pe))
    by (unfold h3; by rewrite lookup_update_ne).
  run_deref Hs3.
  destruct (decide (s = r)) as [->|Hsr].
  - specialize (Hal eq_refl). subst es.
    run_deref Hs3. cbn [Event.ssb Event.set_arr]. rewrite Hssb.
    rewrite (mbind_run _ _ _ r h3) by done. run_assign.
    set (h4 := update r _ h3).
    assert (Hr4 : h4 !! r = Some (Event.set_arr (Some d) er))
      by (unfold h4; erewrite lookup_update_eq by exact Hs3; done).
    run_deref Hr4. run_deref Hr4. cbn [Event.frame_id Event.set_arr].
    exists h4, (Event.set_arr (Some d) er). repeat split; try done.
    unfold h4. by rewrite lookup_update_ne.
  - assert (Hr3 : h3 !! r = Some er).
    { unfold h3, h2. by rewrite !lookup_update_ne. }
    run_deref Hr3. rewrite Hssb.
    rewrite (mbind_run _ _ _ s h3) by done. run_assign.
    set (h4 := update s _ h3).
    assert (Hs4 : h4 !! s = Some (Event.set_arr (Some d) es))
      by (unfold h4; erewrite lookup_update_eq by exact Hs3; done).
    assert (Hr4 : h4 !! r = Some er) by (unfold h4; by rewrite lookup_update_ne).
    run_deref Hs4. run_deref Hr4.
    exists h4, er. repeat split; try done.
    unfold h4. by rewrite lookup_update_ne.
Qed.

Lemma fill_arrival_inv (r s p : loc) (h h' : store) (er es pe : Event.t) :
  p <> r -> p <> s ->
  h !! r = Some er -> h !! s = Some es -> h !! p = Some pe ->
  Event.ssb er = Some s -> (s = r -> es = er) ->
  fill_arrival r s p h = (inr tt, h') ->
  exists ef,
    wrt_frame (Event.set_arr (Some (vsub (Event.pos es) (Event.pos pe))) es)
              (Event.frame_id er) = inr ef /\
    h' !! r = Some (Event.set_arr (Event.arr ef) er) /\
    h' !! p = Some (Event.set_dep (Some (vsub (Event.pos es) (Event.pos pe))) pe).
Proof.
  intros Hpr Hps Hr Hs Hp Hssb Hal H.
  destruct (fill_arrival_char r s p h er es pe Hpr Hps Hr Hs Hp Hssb Hal)
    as (h4 & er' & Hr4 & Her & Hp4 & Heq).
  rewrite Heq in H.
  apply mbind_inr_inv in H as (ef & h5 & Hf & H).
  apply lift_inr_inv in Hf as [Hf ->]. injection H as <-.
  exists ef. split; [exact Hf|]. split.
  - erewrite lookup_update_eq by exact Hr4. by rewrite Her.
  - by rewrite lookup_update_ne.
Qed.

Lemma fill_arrival_returns (r s p : loc) (h : store) (er es pe : Event.t) :
  (forall e f, exists e', wrt_frame e f = inr e') ->
  p <> r -> p <> s ->
  h !! r = Some er -> h !! s = Some es -> h !! p = Some pe ->
  Event.ssb er = Some s -> (s = r -> es = er) ->
  exists h', fill_arrival r s p h = (inr tt, h').
Proof.
  intros Htot Hpr Hps Hr Hs Hp Hssb Hal.
  destruct (fill_arrival_char r s p h er es pe Hpr Hps Hr Hs Hp Hssb Hal)
    as (h4 & er' & Hr4 & Her & Hp4 & Heq).
  rewrite Heq.
  destruct (Htot (Event.set_arr (Some (vsub (Event.pos es) (Event.pos pe))) es)
                 (Event.frame_id er)) as [ef Hf].
  unfold mbind, lift. rewrite Hf. by eexists.
Qed.

Lemma fill_departure_char (r s p : loc) (h : store) (er es pe : Event.t) :
  p <> r -> p <> s ->
  h !! r = Some er -> h !! s = Some es -> h !! p = Some pe ->
  Event.ssb er = Some s -> (s = r -> es = er) ->
  let d := vsub (Event.pos pe) (Event.pos es) in
  exists h4 er',
    h4 !! r = Some er' /\
    (forall x, Event.set_dep x er' = Event.set_dep x er) /\
    h4 !! p = Some (Event.set_arr (Some d) pe) /\
    fill_departure r s p h =
      (ef <~ lift (wrt_frame (Event.set_dep (Some d) es) (Event.frame_id er)) ;;
       assign r (Event.set_dep (Event.dep ef))) h4.
Proof.
  intros Hpr Hps Hr Hs Hp Hssb Hal d.
  unfold fill_departure. run_deref Hs. run_deref Hp. run_assign. fold d.
  set (h2 := update p (Event.set_arr (Some d)) h).
  assert (Hp2 : h2 !! p = Some (Event.set_arr (Some d) pe))
    by (by apply lookup_update_eq).
  assert (Hs2 : h2 !! s = Some es) by (unfold h2; by rewrite lookup_update_ne).
  run_deref Hp2. run_assign. cbn [Event.arr Event.set_arr].
  set (h3 := update s (Event.set_dep (Some d)) h2).
  assert (Hs3 : h3 !! s = Some (Event.set_dep (Some d) es))
    by (by apply lookup_update_eq).
  assert (Hp3 : h3 !! p = Some (Event.set_arr (Some d) pe))
    by (unfold h3; by rewrite lookup_update_ne).
  run_deref Hs3.
  destruct (decide (s = r)) as [->|Hsr].
  - specialize (Hal eq_refl). subst es.
    run_deref Hs3. cbn [Event.ssb Event.set_dep]. rewrite Hssb.
    rewrite (mbind_run _ _ _ r h3) by done. run_assign.
    set (h4 := update r _ h3).
    assert (Hr4 : h4 !! r = Some (Event.set_dep (Some d) er))
      by (unfold h4; erewrite lookup_update_eq by exact Hs3; done).
    run_deref Hr4. run_deref Hr4. cbn [Event.frame_id Event.set_dep].
    exists h4, (Event.set_dep (Some d) er). repeat split; try done.
    unfold h4. by rewrite lookup_update_ne.
  - assert (Hr3 : h3 !! r = Some er).
    { unfold h3, h2. by rewrite !lookup_update_ne. }
    run_deref Hr3. rewrite Hssb.
    rewrite (mbind_run _ _ _ s h3) by done. run_assign.
    set (h4 := update s _ h3).
    assert (Hs4 : h4 !! s = Some (Event.set_dep (Some d) es))
      by (unfold h4; erewrite lookup_update_eq by exact Hs3; done).
    assert (Hr4 : h4 !! r = Some er) by (unfold h4; by rewrite lookup_update_ne).
    run_deref Hs4. run_deref Hr4.
    exists h4, er. repeat split; try done.
    unfold h4. by rewrite lookup_update_ne.
Qed.

Lemma fill_departure_inv (r s p : loc) (h h' : store) (er es pe : Event.t) :
  p <> r -> p <> s ->
  h !! r = Some er -> h !! s = Some es -> h !! p = Some pe ->
  Event.ssb er = Some s -> (s = r -> es = er) ->
  fill_departure r s p h = (inr tt, h') ->
  exists ef,
    wrt_frame (Event.set_dep (Some (vsub (Event.pos pe) (Event.pos es))) es)
              (Event.frame_id er) = inr ef /\
    h' !! r = Some (Event.set_dep (Event.dep ef) er) /\
    h' !! p = Some (Event.set_arr (Some (vsub (Event.pos pe) (Event.pos es))) pe).
Proof.
  intros Hpr Hps Hr Hs Hp Hssb Hal H.
  destruct (fill_departure_char r s p h er es pe Hpr Hps Hr Hs Hp Hssb Hal)
    as (h4 & er' & Hr4 & Her & Hp4 & Heq).
  rewrite Heq in H.
  apply mbind_inr_inv in H as (ef & h5 & Hf & H).
  apply lift_inr_inv in Hf as [Hf ->]. injection H as <-.
  exists ef. split; [exact Hf|]. split.
  - erewrite lookup_update_eq by exact Hr4. by rewrite Her.
  - by rewrite lookup_update_ne.
Qed.

Lemma fill_departure_returns (r s p : loc) (h : store) (er es pe : Event.t) :
  (forall e f, exists e', wrt_frame e f = inr e') ->
  p <> r -> p <> s ->
  h !! r = Some er -> h !! s = Some es -> h !! p = Some pe ->
  Event.ssb er = Some s -> (s = r -> es = er) ->
  exists h', fill_departure r s p h = (inr tt, h').
Proof.
  intros Htot Hpr Hps Hr Hs Hp Hssb Hal.
  destruct (fill_departure_char r s p h er es pe Hpr Hps Hr Hs Hp Hssb Hal)
    as (h4 & er' & Hr4 & Her & Hp4 & Heq).
  rewrite Heq.
  destruct (Htot (Event.set_dep (Some (vsub (Event.pos pe) (Event.pos es))) es)
                 (Event.frame_id er)) as [ef Hf].
  unfold mbind, lift. rewrite Hf. by eexists.
Qed.

Lemma solve_photon_inv (self : Path.t) (r : loc) (sign : Z) (iters : nat)
    (h h' : store) (e abs rel : Event.t) :
  h !! r = Some e -> ssb_ok e h ->
  _solve_photon self r sign iters h = (inr (abs, rel), h') ->
  exists P s h1 es pe0 lt pe ef,
    connect_path self "SSB" "J2000" = inr P /\
    wrt_ssb r h = (inr s, h1) /\ h1 !! s = Some es /\
    Path.event_at_time P (Event.time e) = inr pe0 /\
    newton iters P (Event.time e) es (IZR sign * C)
           (norm (vsub (Event.pos pe0) (Event.pos es)) / (IZR sign * C))
      = inr lt /\
    Path.event_at_time P (Event.time e + lt) = inr pe /\
    Event.time rel = lt /\
    if (sign <? 0)%Z then
      wrt_frame (Event.set_arr (Some (vsub (Event.pos es) (Event.pos pe))) es)
                (Event.frame_id e) = inr ef /\
      h' !! r = Some (Event.set_arr (Event.arr ef) (Event.set_ssb (Some s) e))
    else
      wrt_frame (Event.set_dep (Some (vsub (Event.pos pe) (Event.pos es))) es)
                (Event.frame_id e) = inr ef /\
      h' !! r = Some (Event.set_dep (Event.dep ef) (Event.set_ssb (Some s) e)).
Proof.
  intros Hr Hok H. unfold _solve_photon in H.
  apply mbind_inr_inv in H as (P & h0 & HP & H).
  apply lift_inr_inv in HP as [HP ->].
  apply mbind_inr_inv in H as (s & h1 & Hw & H).
  destruct (wrt_ssb_inv r h h1 e s Hr Hok Hw) as (es & Hr1 & Hs1 & Hal & _).
  run_deref_in Hr1 H. run_deref_in Hs1 H.
  cbn [Event.time Event.set_ssb] in H.
  apply mbind_inr_inv in H as (pe0 & h2 & Hpe0 & H).
  apply lift_inr_inv in Hpe0 as [Hpe0 ->].
  apply mbind_inr_inv in H as (lt & h2 & Hlt & H).
  apply lift_inr_inv in Hlt as [Hlt ->].
  apply mbind_inr_inv in H as (pe & h2 & Hpe & H).
  apply lift_inr_inv in Hpe as [Hpe ->].
  apply mbind_inr_inv in H as (p & h2 & Hp & H).
  unfold alloc in Hp. injection Hp as <- <-.
  pose proof (lookup_lt_Some _ _ _ Hr1) as Hrlt.
  pose proof (lookup_lt_Some _ _ _ Hs1) as Hslt.
  assert (Hp2 : (h1 ++ [pe]) !! length h1 = Some pe).
  { rewrite lookup_app_r by done. by rewrite Nat.sub_diag. }
  assert (Hr2 : (h1 ++ [pe]) !! r = Some (Event.set_ssb (Some s) e))
    by (by rewrite lookup_app_l).
  assert (Hs2 : (h1 ++ [pe]) !! s = Some es) by (by rewrite lookup_app_l).
  apply mbind_inr_inv in H as ([] & h3 & Hfill & H).
  exists P, s, h1, es, pe0, lt, pe.
  destruct (sign <? 0)%Z.
  - destruct (fill_arrival_inv r s (length h1) _ _ _ _ _
                ltac:(lia) ltac:(lia) Hr2 Hs2 Hp2 eq_refl Hal Hfill)
      as (ef & Hf & Hr3 & Hp3).
    run_deref_in Hp3 H. run_deref_in Hr3 H.
    apply mbind_inr_inv in H as (a1 & h4 & H1 & H).
    apply lift_inr_inv in H1 as [_ ->].
    apply mbind_inr_inv in H as (a2 & h5 & H2 & H).
    apply lift_inr_inv in H2 as [_ ->].
    apply mbind_inr_inv in H as (a3 & h6 & H3 & H).
    apply lift_inr_inv in H3 as [_ ->].
    injection H as <- <- <-.
    exists ef. repeat split; try done.
  - destruct (fill_departure_inv r s (length h1) _ _ _ _ _
                ltac:(lia) ltac:(lia) Hr2 Hs2 Hp2 eq_refl Hal Hfill)
      as (ef & Hf & Hr3 & Hp3).
    run_deref_in Hp3 H. run_deref_in Hr3 H.
    apply mbind_inr_inv in H as (a1 & h4 & H1 & H).
    apply lift_inr_inv in H1 as [_ ->].
    apply mbind_inr_inv in H as (a2 & h5 & H2 & H).
    apply lift_inr_inv in H2 as [_ ->].
    apply mbind_inr_inv in H as (a3 & h6 & H3 & H).
    apply lift_inr_inv in H3 as [_ ->].
    injection H as <- <- <-.
    exists ef. repeat split; try done.
Qed.

Lemma newton_returns (iters : nat) (P : Path.t) (t : R) (es : Event.t)
    (signed_c lt : R) :
  evaluates P -> exists lt', newton iters P t es signed_c lt = inr lt'.
Proof.
  intros HP. revert lt. induction iters as [|n IH]; intros lt; simpl.
  - by eexists.
  - unfold newton_step. destruct (HP (t + lt)%R) as [pe ->]. simpl. apply IH.
Qed.

Lemma wrt_ssb_returns `{!EnvTotal env} (r : loc) (h : store) :
  exists s h1, wrt_ssb r h = (inr s, h1).
Proof.
  unfold wrt_ssb, mbind, deref.
  destruct (Event.ssb (h !!! r)); [by do 2 eexists|].
  case_bool_decide; [by do 2 eexists|].
  destruct (to_ssb_total (h !!! r)) as [e' He'].
  unfold lift. rewrite He'. by do 2 eexists.
Qed.

Lemma solve_photon_returns `{!EnvTotal env} (self : Path.t) (r : loc)
    (sign : Z) (iters : nat) (h : store) (e : Event.t) :
  evaluates self -> h !! r = Some e -> ssb_ok e h ->
  exists abs rel h', _solve_photon self r sign iters h = (inr (abs, rel), h').
Proof.
  intros Hself Hr Hok. unfold _solve_photon.
  destruct (connect_total self "SSB" "J2000" Hself) as (P & HP & Hev).
  rewrite (mbind_run _ _ _ P h) by (unfold lift; by rewrite HP).
  destruct (wrt_ssb_returns r h) as (s & h1 & Hw).
  rewrite (mbind_run _ _ _ _ _ Hw).
  destruct (wrt_ssb_inv r h h1 e s Hr Hok Hw) as (es & Hr1 & Hs1 & Hal & _).
  run_deref Hr1. run_deref Hs1. cbn [Event.time Event.set_ssb].
  destruct (Hev (Event.time e)) as [pe0 Hpe0].
  rewrite (mbind_run _ _ _ pe0 h1) by (unfold lift; by rewrite Hpe0).
  destruct (newton_returns iters P (Event.time e) es (IZR sign * C)
              (norm (vsub (Event.pos pe0) (Event.pos es)) / (IZR sign * C)) Hev)
    as [lt Hlt].
  rewrite (mbind_run _ _ _ lt h1) by (unfold lift; by rewrite Hlt).
  destruct (Hev (Event.time e + lt)%R) as [pe Hpe].
  rewrite (mbind_run _ _ _ pe h1) by (unfold lift; by rewrite Hpe).
  rewrite (mbind_run _ _ _ (length h1) (h1 ++ [pe])) by done.
  pose proof (lookup_lt_Some _ _ _ Hr1) as Hrlt.
  pose proof (lookup_lt_Some _ _ _ Hs1) as Hslt.
  assert (Hp2 : (h1 ++ [pe]) !! length h1 = Some pe).
  { rewrite lookup_app_r by done. by rewrite Nat.sub_diag. }
  assert (Hr2 : (h1 ++ [pe]) !! r = Some (Event.set_ssb (Some s) e))
    by (by rewrite lookup_app_l).
  assert (Hs2 : (h1 ++ [pe]) !! s = Some es) by (by rewrite lookup_app_l).
  assert (Hfill : exists h3,
    (if (sign <? 0)%Z
     then fill_arrival r s (length h1)
     else fill_departure r s (length h1)) (h1 ++ [pe]) = (inr tt, h3)).
  { destruct (sign <? 0)%Z.
    - eapply fill_arrival_returns; eauto using wrt_frame_total; lia.
    - eapply fill_departure_returns; eauto using wrt_frame_total; lia. }
  destruct Hfill as [h3 Hfill].
  rewrite (mbind_run _ _ _ _ _ Hfill).
  rewrite (mbind_run _ _ _ (h3 !!! length h1) h3) by reflexivity.
  rewrite (mbind_run _ _ _ (h3 !!! r) h3) by reflexivity.
  destruct (wrt_total (h3 !!! length h1) (Path.path_id self) (Path.frame_id self))
    as [a1 Ha1].
  rewrite (mbind_run _ _ _ a1 h3) by (unfold lift; by rewrite Ha1).
  destruct (wrt_event_total (h3 !!! length h1) (h3 !!! r)) as [a2 Ha2].
  rewrite (mbind_run _ _ _ a2 h3) by (unfold lift; by rewrite Ha2).
  destruct (wrt_frame_total a2 (Event.frame_id (h3 !!! r))) as [a3 Ha3].
  rewrite (mbind_run _ _ _ a3 h3) by (unfold lift; by rewrite Ha3).
  by do 3 eexists.
Qed.

End SolverFacts.

Lemma inertial_env_total : EnvTotal inertial_env.
Proof.
  split; simpl; intros; by eauto.
Qed.

(** ** Arithmetic of vectors and of the speed of light *)

Local Open Scope R_scope.

Lemma C_pos : 0 < C.
Proof. unfold C. lra. Qed.

Lemma norm_nonneg (a : Vector3) : 0 <= norm a.
Proof. apply sqrt_pos. Qed.

Lemma norm_x (a b c : R) : b = 0 -> c = 0 -> norm (V3 a b c) = Rabs a.
Proof.
  intros -> ->. unfold norm, dot. simpl.
  replace (a * a + 0 * 0 + 0 * 0) with (Rsqr a) by (unfold Rsqr; ring).
  apply sqrt_Rsqr_abs.
Qed.

Lemma norm_zero (a b c : R) : a = 0 -> b = 0 -> c = 0 -> norm (V3 a b c) = 0.
Proof.
  intros -> -> ->. rewrite norm_x by reflexivity. apply Rabs_R0.
Qed.


Lemma Rabs_light_time (x : R) (sign : Z) :
  (sign = 1 \/ sign = -1)%Z -> 0 <= x ->
  Rabs (x / (IZR sign * C)) = x / C.
Proof.
  pose proof C_pos as HC. intros [-> | ->] Hx.
  - replace (x / (1 * C)) with (x / C) by (field; lra).
    apply Rabs_pos_eq. apply Rmult_le_pos; [lra|].
    left. by apply Rinv_0_lt_compat.
  - replace (x / (-1 * C)) with (- (x / C)) by (field; lra).
    rewrite Rabs_Ropp. apply Rabs_pos_eq. apply Rmult_le_pos; [lra|].
    left. by apply Rinv_0_lt_compat.
Qed.

Lemma fixed_path_evaluates pos origin frame id :
  evaluates (FixedPath pos origin frame id).
Proof. intros t. by eexists. Qed.

(** ** The photon solver *)

(** C4: with zero iterations the solver returns, and the magnitude of the
    light time it returns is the distance between the target at the event's
    own time and the event, both relative to SSB in J2000, divided by c; no
    Newton pass is applied. *)
Theorem zero_iterations_light_time (env : SolverEnv) (Htot : EnvTotal env)
    (self : Path.t) (r : loc) (sign : Z) (h : store) (e : Event.t) :
  (sign = 1 \/ sign = -1)%Z ->
  evaluates self -> h !! r = Some e -> ssb_ok e h ->
  exists abs rel h' P s h1 es pe0,
    _solve_photon self r sign 0 h = (inr (abs, rel), h') /\
    connect_path self "SSB" "J2000" = inr P /\
    wrt_ssb r h = (inr s, h1) /\ h1 !! s = Some es /\
    Path.event_at_time P (Event.time e) = inr pe0 /\
    Rabs (Event.time rel) = norm (vsub (Event.pos pe0) (Event.pos es)) / C.
Proof.
  intros Hsign Hself Hr Hok.
  destruct (solve_photon_returns self r sign 0 h e Hself Hr Hok)
    as (abs & rel & h' & Hrun).
  destruct (solve_photon_inv self r sign 0 h h' e abs rel Hr Hok Hrun)
    as (P & s & h1 & es & pe0 & lt & pe & ef & HP & Hw & Hs & Hpe0 & Hlt
        & _ & Hrel & _).
  exists abs, rel, h', P, s, h1, es, pe0.
  repeat split; try done.
  simpl in Hlt. injection Hlt as <-. rewrite Hrel.
  apply Rabs_light_time; [done | apply norm_nonneg].
Qed.

Lemma zero_iterations_light_time_witness :
  exists abs rel h' P s h1 es pe0,
    _solve_photon (env := inertial_env) path_A 0%nat (-1) 0 [event_on_B 0]
      = (inr (abs, rel), h') /\
    connect_path (SolverEnv := inertial_env) path_A "SSB" "J2000" = inr P /\
    wrt_ssb (env := inertial_env) 0%nat [event_on_B 0] = (inr s, h1) /\
    h1 !! s = Some es /\
    Path.event_at_time P (Event.time (event_on_B 0)) = inr pe0 /\
    Rabs (Event.time rel) = norm (vsub (Event.pos pe0) (Event.pos es)) / C.
Proof.
  apply (zero_iterations_light_time inertial_env inertial_env_total
           path_A 0%nat (-1) [event_on_B 0] (event_on_B 0)).
  - right; reflexivity.
  - apply fixed_path_evaluates.
  - reflexivity.
  - exact I.
Defined.

(** C5: a photon solve assigns exactly one photon-direction field of the
    event it is given: [photon_to_event] the arrival field, leaving the
    departure field as it was, and [photon_from_event] the departure field,
    leaving the arrival field as it was.  The value assigned is the photon's
    path between the two SSB events, in the event's own frame.  Time,
    position and velocity of the event are unchanged. *)
Theorem solve_fills_one_photon_field (env : SolverEnv) (Htot : EnvTotal env)
    (self : Path.t) (r : loc) (iters : nat) (h : store) (e : Event.t) :
  evaluates self -> h !! r = Some e -> ssb_ok e h ->
  (exists abs rel h' e' es pe ef,
     photon_to_event self r iters h = (inr (abs, rel), h') /\
     h' !! r = Some e' /\
     wrt_frame (Event.set_arr (Some (vsub (Event.pos es) (Event.pos pe))) es)
               (Event.frame_id e) = inr ef /\
     Event.arr e' = Event.arr ef /\
     Event.dep e' = Event.dep e /\
     Event.time e' = Event.time e /\
     Event.pos e' = Event.pos e /\
     Event.vel e' = Event.vel e) /\
  (exists abs rel h' e' es pe ef,
     photon_from_event self r iters h = (inr (abs, rel), h') /\
     h' !! r = Some e' /\
     wrt_frame (Event.set_dep (Some (vsub (Event.pos pe) (Event.pos es))) es)
               (Event.frame_id e) = inr ef /\
     Event.dep e' = Event.dep ef /\
     Event.arr e' = Event.arr e /\
     Event.time e' = Event.time e /\
     Event.pos e' = Event.pos e /\
     Event.vel e' = Event.vel e).
Proof.
  intros Hself Hr Hok. split.
  - destruct (solve_photon_returns self r (-1) iters h e Hself Hr Hok)
      as (abs & rel & h' & Hrun).
    destruct (solve_photon_inv self r (-1) iters h h' e abs rel Hr Hok Hrun)
      as (P & s & h1 & es & pe0 & lt & pe & ef & _ & _ & _ & _ & _ & _ & _ & Hfill).
    simpl in Hfill. destruct Hfill as [Hf Hr'].
    exists abs, rel, h',
      (Event.set_arr (Event.arr ef) (Event.set_ssb (Some s) e)), es, pe, ef.
    by repeat split.
  - destruct (solve_photon_returns self r 1 iters h e Hself Hr Hok)
      as (abs & rel & h' & Hrun).
    destruct (solve_photon_inv self r 1 iters h h' e abs rel Hr Hok Hrun)
      as (P & s & h1 & es & pe0 & lt & pe & ef & _ & _ & _ & _ & _ & _ & _ & Hfill).
    simpl in Hfill. destruct Hfill as [Hf Hr'].
    exists abs, rel, h',
      (Event.set_dep (Event.dep ef) (Event.set_ssb (Some s) e)), es, pe, ef.
    by repeat split.
Qed.

Lemma solve_fills_one_photon_field_witness :
  (exists abs rel h' e' es pe ef,
     photon_to_event (env := inertial_env) path_A 0%nat 3 [event_on_B 0]
       = (inr (abs, rel), h') /\
     h' !! 0%nat = Some e' /\
     wrt_frame (SolverEnv := inertial_env)
       (Event.set_arr (Some (vsub (Event.pos es) (Event.pos pe))) es)
       (Event.frame_id (event_on_B 0)) = inr ef /\
     Event.arr e' = Event.arr ef /\
     Event.dep e' = Event.dep (event_on_B 0) /\
     Event.time e' = Event.time (event_on_B 0) /\
     Event.pos e' = Event.pos (event_on_B 0) /\
     Event.vel e' = Event.vel (event_on_B 0)) /\
  (exists abs rel h' e' es pe ef,
     photon_from_event (env := inertial_env) path_A 0%nat 3 [event_on_B 0]
       = (inr (abs, rel), h') /\
     h' !! 0%nat = Some e' /\
     wrt_frame (SolverEnv := inertial_env)
       (Event.set_dep (Some (vsub (Event.pos pe) (Event.pos es))) es)
       (Event.frame_id (event_on_B 0)) = inr ef /\
     Event.dep e' = Event.dep ef /\
     Event.arr e' = Event.arr (event_on_B 0) /\
     Event.time e' = Event.time (event_on_B 0) /\
     Event.pos e' = Event.pos (event_on_B 0) /\
     Event.vel e' = Event.vel (event_on_B 0)).
Proof.
  apply (solve_fills_one_photon_field inertial_env inertial_env_total
           path_A 0%nat 3 [event_on_B 0] (event_on_B 0)).
  - apply fixed_path_evaluates.
  - reflexivity.
  - exact I.
Defined.

(** ** Moving an event between origins *)



(** ** The concrete scenario: stationary paths A and B *)

Lemma newton_fixed_point (n : nat) (P : Path.t) (t : R) (es : Event.t)
    (signed_c lt : R) :
  newton_step P t es signed_c lt = inr lt ->
  newton n P t es signed_c lt = inr lt.
Proof.
  intros Hstep. induction n as [|n IH]; simpl; [done|].
  rewrite Hstep. simpl. exact IH.
Qed.

Lemma norm_proj_rest (a b : Vector3) : norm (proj (vsub a a) b) = 0.
Proof.
  unfold proj, vscale, vsub, dot. cbn [vx vy vz].
  apply norm_zero; unfold Rdiv; ring.
Qed.

Lemma norm_A_to_B : norm (vsub ZERO (V3 300000 0 0)) = 300000.
Proof.
  unfold vsub, ZERO. cbn [vx vy vz].
  rewrite norm_x by ring.
  unfold Rabs. destruct (Rcase_abs (0 - 300000)); lra.
Qed.

Lemma stationary_initial_guess :
  norm (vsub ZERO (V3 300000 0 0)) / (IZR (-1) * C) = - (300000 / C).
Proof.
  pose proof C_pos as HC. rewrite norm_A_to_B. field. lra.
Qed.

Lemma stationary_newton_step (t0 t : R) (s : option loc) :
  newton_step path_A t0 (Event.set_ssb s (event_on_B t)) (IZR (-1) * C)
              (- (300000 / C))
  = inr (- (300000 / C)).
Proof.
  pose proof C_pos as HC.
  unfold newton_step, path_A, FixedPath, bind, ret, event_on_B.
  cbn [Path.event_at_time Event.pos Event.vel Event.new Event.set_ssb].
  f_equal. rewrite norm_proj_rest, norm_A_to_B. field. lra.
Qed.

Lemma stationary_pair_run (t : R) :
  exists abs rel h' e',
    photon_to_event (env := inertial_env) path_A 0%nat 3 [event_on_B t]
      = (inr (abs, rel), h') /\
    Event.time rel = - (300000 / C) /\
    h' !! 0%nat = Some e' /\
    Event.arr e' = Some (V3 300000 0 0).
Proof.
  assert (Hr : [event_on_B t] !! 0%nat = Some (event_on_B t)) by reflexivity.
  assert (Hok : ssb_ok (event_on_B t) [event_on_B t]) by exact I.
  destruct (solve_photon_returns (env := inertial_env)
              (EnvTotal0 := inertial_env_total) path_A 0%nat (-1) 3
              [event_on_B t] (event_on_B t)
              (fixed_path_evaluates _ _ _ _) Hr Hok)
    as (abs & rel & h' & Hrun).
  destruct (solve_photon_inv (env := inertial_env) path_A 0%nat (-1) 3
              _ h' _ abs rel Hr Hok Hrun)
    as (P & s & h1 & es & pe0 & lt & pe & ef & HP & Hw & Hs & Hpe0 & Hlt
        & Hpe & Hrel & Hfill).
  simpl in HP. injection HP as <-.
  destruct (wrt_ssb_inv (env := inertial_env) _ _ _ _ _ Hr Hok Hw)
    as (es' & _ & Hs' & Hal & Hin).
  specialize (Hin eq_refl). rewrite bool_decide_eq_true_2 in Hin by done.
  subst s. rewrite Hs in Hs'. injection Hs' as <-.
  specialize (Hal eq_refl). subst es.
  simpl in Hpe0. injection Hpe0 as <-.
  simpl in Hfill. destruct Hfill as [Hf Hr'].
  injection Hf as <-.
  cbn [Event.pos Event.new Event.set_ssb event_on_B] in Hlt.
  rewrite stationary_initial_guess in Hlt.
  rewrite newton_fixed_point in Hlt by apply stationary_newton_step.
  injection Hlt as <-.
  simpl in Hpe. injection Hpe as <-.
  eexists abs, rel, h', _.
  split; [exact Hrun|]. split; [exact Hrel|]. split; [exact Hr'|].
  cbn [Event.arr Event.set_arr Event.pos Event.new].
  unfold vsub, ZERO. cbn [vx vy vz]. do 2 f_equal; ring.
Qed.

(** C1: for the stationary paths A at the root and B at 3e5 km, solving
    [photon_to_event] on A from the event on B at any time [t] returns the
    light time -(3e5/c), about -1.0007 s: negative, because the photon left
    A earlier.  The arrival field of the B event becomes the separation
    vector (3e5, 0, 0) from A to B, in km, whose direction is the unit
    vector from A to B. *)
Theorem stationary_pair_photon_to_event (t : R) :
  exists abs rel h' e',
    photon_to_event (env := inertial_env) path_A 0%nat 3 [event_on_B t]
      = (inr (abs, rel), h') /\
    Event.time rel = - (300000 / C) /\
    - (10007 / 10000) < Event.time rel < - (10006 / 10000) /\
    h' !! 0%nat = Some e' /\
    Event.arr e' = Some (V3 300000 0 0) /\
    vscale (/ norm (V3 300000 0 0)) (V3 300000 0 0) = V3 1 0 0.
Proof.
  destruct (stationary_pair_run t) as (abs & rel & h' & e' & Hrun & Hlt & He' & Harr).
  exists abs, rel, h', e'.
  split; [exact Hrun|]. split; [exact Hlt|]. split; [|split; [exact He'|split; [exact Harr|]]].
  - rewrite Hlt. unfold C. split.
    + apply Ropp_lt_contravar.
      apply (Rmult_lt_reg_r (299792458 / 1000)); [lra|].
      field_simplify; lra.
    + apply Ropp_lt_contravar.
      apply (Rmult_lt_reg_r (299792458 / 1000)); [lra|].
      field_simplify; lra.
  - rewrite norm_x by reflexivity. rewrite Rabs_pos_eq by lra.
    unfold vscale. cbn [vx vy vz]. f_equal; field.
Qed.

(** The claim fails at [t = 0]: the light time returned is negative, not
    about +1.0005 s, and the arrival vector is 3e5 km long, not a unit
    vector. *)
Lemma stationary_pair_counterexample :
  exists abs rel h' e',
    photon_to_event (env := inertial_env) path_A 0%nat 3 [event_on_B 0]
      = (inr (abs, rel), h') /\
    h' !! 0%nat = Some e' /\
    Event.time rel < 0 /\
    Event.arr e' = Some (V3 300000 0 0) /\
    Event.arr e' <> Some (V3 1 0 0).
Proof.
  destruct (stationary_pair_run 0) as (abs & rel & h' & e' & Hrun & Hlt & He' & Harr).
  exists abs, rel, h', e'. repeat split; try done.
  - rewrite Hlt. pose proof C_pos.
    apply Ropp_lt_gt_0_contravar. apply Rdiv_lt_0_compat; lra.
  - rewrite Harr. intros [= Hx]. lra.
Qed.


(** ** The Newton pass *)

Lemma dot_self_nonneg (b : Vector3) : 0 <= dot b b.
Proof. unfold dot. nra. Qed.

Lemma norm_vscale (k : R) (b : Vector3) :
  norm (vscale k b) = Rabs k * norm b.
Proof.
  unfold norm.
  replace (dot (vscale k b) (vscale k b)) with (Rsqr k * dot b b)
    by (unfold dot, vscale, Rsqr; cbn [vx vy vz]; ring).
  rewrite sqrt_mult; [|apply Rle_0_sqr|apply dot_self_nonneg].
  by rewrite sqrt_Rsqr_abs.
Qed.

(** The length of the projection is the magnitude of the radial component:
    the sign of [dot a b] is lost. *)
Lemma norm_proj (a b : Vector3) :
  0 < dot b b -> norm (proj a b) = Rabs (dot a b) / norm b.
Proof.
  intros Hb. unfold proj. rewrite norm_vscale.
  assert (Hn : 0 < norm b) by (by apply sqrt_lt_R0).
  assert (Hsq : norm b * norm b = dot b b).
  { unfold norm. apply sqrt_sqrt. lra. }
  unfold Rdiv at 1. rewrite Rabs_mult, (Rabs_pos_eq (/ dot b b)).
  2:{ left. by apply Rinv_0_lt_compat. }
  rewrite <- Hsq. field. lra.
Qed.

(** Where the target does not approach, the pass of the code is the pass
    of the specification. *)
Lemma newton_step_agrees_when_receding (P : Path.t) (t : R) (es pe : Event.t)
    (signed_c lt : R) :
  Path.event_at_time P (t + lt) = inr pe ->
  0 < dot (vsub (Event.pos pe) (Event.pos es))
          (vsub (Event.pos pe) (Event.pos es)) ->
  0 <= dot (vsub (Event.vel pe) (Event.vel es))
           (vsub (Event.pos pe) (Event.pos es)) ->
  newton_step P t es signed_c lt = spec_newton_step P t es signed_c lt.
Proof.
  intros Hpe Hpos Hrec. unfold newton_step, spec_newton_step.
  rewrite Hpe. cbn [bind]. unfold ret. f_equal.
  rewrite norm_proj by done. rewrite Rabs_pos_eq by done.
  by rewrite (Rmult_comm lt signed_c).
Qed.

(** C3 at the failing input: the observer rests at the root at time 0 and
    the target closes in at 1 km/s from 10 km.  From the solver's initial
    guess, the pass of the code divides by [c + 1], the pass the claim
    describes by [c - 1], and the two light times differ. *)
Theorem newton_step_drops_sign_of_radial_speed :
  let es := Event.null_event 0 "SSB" "J2000" in
  let signed_c := IZR (-1) * C in
  let lt0 := 10 / signed_c in
  newton_step approaching_path 0 es signed_c lt0
    = inr (lt0 - (10 / C) / (C + 1)) /\
  spec_newton_step approaching_path 0 es signed_c lt0
    = inr (lt0 - (10 / C) / (C - 1)) /\
  lt0 - (10 / C) / (C + 1) <> lt0 - (10 / C) / (C - 1).
Proof.
  pose proof C_pos as HC.
  assert (HC1 : 1 < C) by (unfold C; lra).
  intros es signed_c lt0.
  set (a := 10 - (0 + lt0) - 0).
  assert (Ha : a = 10 + 10 / C).
  { unfold a, lt0, signed_c. field. lra. }
  assert (Hapos : 0 < a).
  { rewrite Ha. apply Rplus_lt_0_compat; [lra|]. apply Rdiv_lt_0_compat; lra. }
  assert (Hdp : vsub (V3 (10 - (0 + lt0)) 0 0) ZERO = V3 a (0 - 0) (0 - 0))
    by reflexivity.
  assert (Hdv : vsub (V3 (-1) 0 0) ZERO = V3 (-1 - 0) (0 - 0) (0 - 0))
    by reflexivity.
  assert (Hnorm : norm (V3 a (0 - 0) (0 - 0)) = a).
  { rewrite norm_x by ring. by apply Rabs_pos_eq, Rlt_le. }
  assert (Hdot : dot (V3 (-1 - 0) (0 - 0) (0 - 0)) (V3 a (0 - 0) (0 - 0)) = - a).
  { unfold dot. cbn [vx vy vz]. ring. }
  assert (Hdd : dot (V3 a (0 - 0) (0 - 0)) (V3 a (0 - 0) (0 - 0)) = a * a).
  { unfold dot. cbn [vx vy vz]. ring. }
  split; [|split].
  - unfold newton_step, approaching_path, bind, ret, es, Event.null_event.
    cbn [Path.event_at_time Event.pos Event.vel Event.new].
    rewrite Hdp, Hdv. f_equal.
    rewrite norm_proj by (rewrite Hdd; nra).
    rewrite Hnorm, Hdot, Rabs_Ropp, (Rabs_pos_eq a) by lra.
    rewrite Ha. unfold lt0, signed_c. field. lra.
  - unfold spec_newton_step, approaching_path, bind, ret, es, Event.null_event.
    cbn [Path.event_at_time Event.pos Event.vel Event.new].
    rewrite Hdp, Hdv. f_equal.
    rewrite Hnorm, Hdot.
    rewrite Ha. unfold lt0, signed_c. field.
    repeat split; try lra. intros Hz. nra.
  - assert (H2 : 0 < 10 / C) by (apply Rdiv_lt_0_compat; lra).
    assert (H3 : / (C + 1) < / (C - 1)).
    { apply Rinv_lt_contravar; [nra | lra]. }
    assert (H4 : (10 / C) / (C + 1) < (10 / C) / (C - 1)).
    { unfold Rdiv at 1 3. by apply Rmult_lt_compat_l. }
    lra.
Qed.

(** ** The registry *)

Section RegistryFacts.
Context {frames : FrameRegistry}.

(** C7, as the code has it: registering a primary definition whose origin
    ID is not in the registry raises KeyError, the failed lookup of the
    origin.  A registry that is not empty is left as it was. *)
Theorem register_unknown_origin (fuel : nat) (self : Path.t) (reg : registry) :
  reg !! Key1 (Path.origin_id self) = None ->
  size reg <> 0%nat ->
  register (S fuel) self None reg = (inl KeyError, reg).
Proof.
  intros Horigin Hsize. cbn [register].
  unfold mbind at 1, modify at 1.
  rewrite bool_decide_eq_false_2 by done.
  unfold mbind, lookup_key. by rewrite Horigin.
Qed.

End RegistryFacts.

Lemma register_unknown_origin_witness :
  register (frames := j2000_frames) 1
           (FixedPath ZERO "X" "J2000" "P") None initialize_registry
  = (inl KeyError, initialize_registry).
Proof.
  apply (register_unknown_origin (frames := j2000_frames) 0
           (FixedPath ZERO "X" "J2000" "P") initialize_registry).
  - reflexivity.
  - vm_compute. discriminate.
Defined.

(** The claim fails on the empty registry: the failed call raises KeyError
    and leaves the registry initialised with the three SSB entries. *)
Lemma register_unknown_origin_counterexample :
  exists reg' : registry,
    register (frames := j2000_frames) 1
             (FixedPath ZERO "X" "J2000" "P") None ∅
    = (inl KeyError, reg') /\
    reg' <> ∅ /\
    reg' !! Key1 "SSB" = Some SSB.
Proof.
  exists initialize_registry. split; [|split].
  - reflexivity.
  - intros H. apply (f_equal (fun m : registry => m !! Key1 "SSB")) in H.
    vm_compute in H. discriminate.
  - reflexivity.
Qed.

(** The only exception of the loop of [unregister] is KeyError. *)
Lemma del_key_outcome (k : key) (reg : registry) :
  (del_key k reg).1 = inr tt \/ (del_key k reg).1 = inl KeyError.
Proof. unfold del_key. destruct (reg !! k); auto. Qed.

(** A key deleted once cannot be deleted again. *)
Lemma del_key_twice (k : key) (reg : registry) :
  (mbind (del_key k) (fun _ => del_key k) reg).1 = inl KeyError.
Proof.
  unfold mbind, del_key. destruct (reg !! k) eqn:Hk.
  - by rewrite lookup_delete_eq.
  - done.
Qed.

Lemma unregister_key_outcome (path_id : string) (k : key) (reg : registry) :
  (unregister_key path_id k reg).1 = inr tt \/
  (unregister_key path_id k reg).1 = inl KeyError.
Proof.
  destruct k as [a|a b|a b c]; unfold unregister_key.
  - case_bool_decide; [apply del_key_outcome | by left].
  - case_bool_decide; case_bool_decide.
    + right. apply del_key_twice.
    + unfold mbind. destruct (del_key_outcome (Key2 a b) reg) as [Hd|Hd];
        destruct (del_key (Key2 a b) reg) as [[e|[]] r]; simpl in *; auto.
    + apply del_key_outcome.
    + by left.
  - case_bool_decide; case_bool_decide.
    + right. apply del_key_twice.
    + unfold mbind. destruct (del_key_outcome (Key3 a b c) reg) as [Hd|Hd];
        destruct (del_key (Key3 a b c) reg) as [[e|[]] r]; simpl in *; auto.
    + apply del_key_outcome.
    + by left.
Qed.

(** Once the loop of [unregister] meets a pair or triple whose first two
    components both are the path's ID, it raises KeyError, if it has not
    done so before: the entry is deleted for the first component and then
    deleted again for the second. *)
Lemma unregister_keys_raises (path_id : string) (ks : list key)
    (reg : registry) :
  (exists k, k ∈ ks /\
     (k = Key2 path_id path_id \/ exists f, k = Key3 path_id path_id f)) ->
  (unregister_keys path_id ks reg).1 = inl KeyError.
Proof.
  revert reg. induction ks as [|k ks IH]; intros reg (k0 & Hin & Hk0).
  - by apply elem_of_nil in Hin.
  - cbn [unregister_keys]. unfold mbind.
    destruct (decide (k = k0)) as [->|Hne].
    + assert (Hstep : (unregister_key path_id k0 reg).1 = inl KeyError).
      { destruct Hk0 as [-> | [f ->]]; unfold unregister_key;
          rewrite !bool_decide_eq_true_2 by done; apply del_key_twice. }
      destruct (unregister_key path_id k0 reg) as [[e|[]] reg'];
        simpl in Hstep; [|discriminate].
      by injection Hstep as ->.
    + destruct (unregister_key_outcome path_id k reg) as [H|H];
        destruct (unregister_key path_id k reg) as [[e|[]] reg'];
        simpl in H; try discriminate.
      * apply IH. exists k0. split; [|done].
        apply elem_of_cons in Hin as [->|Hin]; [done|exact Hin].
      * by injection H as ->.
Qed.

(** C8 fails for every registry that holds the waypoint entry
    [(path_id, path_id)] of the path, as every registry does after the
    path's primary registration: [unregister] raises KeyError. *)
Lemma unregister_raises (self : Path.t) (reg : registry) :
  is_Some (reg !! Key2 (Path.path_id self) (Path.path_id self)) ->
  (unregister self reg).1 = inl KeyError.
Proof.
  intros [p Hp]. unfold unregister. apply unregister_keys_raises.
  exists (Key2 (Path.path_id self) (Path.path_id self)). split; [|by left].
  unfold keys. apply list_elem_of_fmap. exists (Key2 (Path.path_id self) (Path.path_id self), p).
  split; [done|]. by apply elem_of_map_to_list.
Qed.

(** C8 at the failing input: path A, registered as a primary definition
    relative to SSB, cannot be unregistered. *)
Theorem unregister_after_register_raises :
  exists reg : registry,
    register (frames := j2000_frames) 1 path_A None initialize_registry
      = (inr tt, reg) /\
    (unregister path_A reg).1 = inl KeyError.
Proof.
  eexists. split; [reflexivity|].
  apply unregister_raises. by eexists.
Qed.

(** ** LinearPath *)

(** The evaluation of a linear path: the position moves with the velocity
    from the position at the epoch. *)
Lemma linear_event_at_time (self : LinearPath.t) (t : R) :
  LinearPath.state (LinearPath.event_at_time self t)
  = (vadd (LinearPath.pos self)
          (vscale (t - LinearPath.epoch self) (LinearPath.vel self)),
     LinearPath.vel self).
Proof. reflexivity. Qed.

Lemma vadd_vscale_zero (p : Vector3) (k : R) : vadd p (vscale k ZERO) = p.
Proof.
  destruct p. unfold vadd, vscale, ZERO. cbn [vx vy vz]. f_equal; ring.
Qed.

(** A LinearPath constructed from the tuple of a position and the zero
    velocity stores the position without its
    derivatives and the zero velocity, also when the position carries a
    [d_dt] derivative, and [event_at_time] returns that position and the
    zero velocity at every time. *)
Lemma linear_path_at_rest (p : Vector3) (dp dv : option Vector3)
    (epoch : R) (origin frame : string) (path_id : option string) :
  exists self,
    LinearPath.__init__
      (LinearPath.Two {| LinearPath.vals := p; LinearPath.d_dt := dp |}
                      {| LinearPath.vals := ZERO; LinearPath.d_dt := dv |})
      epoch origin frame path_id = inr self /\
    LinearPath.pos self = p /\
    LinearPath.vel self = ZERO /\
    forall t, LinearPath.state (LinearPath.event_at_time self t) = (p, ZERO).
Proof.
  eexists. split; [reflexivity|]. cbn. repeat split.
  intros t. by rewrite vadd_vscale_zero.
Qed.

(** C10 at the failing input: [hasattr('d_dt', pos)] has its arguments the
    wrong way round, the attribute name is not a string, and the
    constructor raises TypeError for a single position, with a derivative
    and without. *)
Theorem linear_path_single_position_raises :
  LinearPath.__init__
    (LinearPath.One {| LinearPath.vals := V3 1 2 3;
                       LinearPath.d_dt := Some (V3 4 5 6) |})
    0 "SSB" "J2000" (Some "P") = inl TypeError /\
  LinearPath.__init__
    (LinearPath.One {| LinearPath.vals := V3 1 2 3;
                       LinearPath.d_dt := None |})
    0 "SSB" "J2000" (Some "P") = inl TypeError.
Proof. split; reflexivity. Qed.

(** ** The backplane cache *)

Section BackplaneFacts.
Context {world : Backplane.World}.
Import Backplane.

Lemma item_inv {K V : Type} `{Countable K} (dict : t -> gmap K V) (k : K)
    (b b1 : t) (v : V) :
  item dict k b = (inr v, b1) -> dict b !! k = Some v /\ b1 = b.
Proof.
  unfold item. destruct (dict b !! k); [|discriminate].
  by intros [= -> ->].
Qed.

Lemma item_run {K V : Type} `{Countable K} (dict : t -> gmap K V) (k : K)
    (b : t) (v : V) :
  dict b !! k = Some v -> item dict k b = (inr v, b).
Proof. intros Hk. unfold item. by rewrite Hk. Qed.

(** A request that ends in [return self.backplanes[key]] leaves the value
    it returns under the key. *)
Lemma ends_in_item {A : Type} (m : M t A) (key : bkey) (b b1 : t) (a : array) :
  mbind m (fun _ => item backplanes key) b = (inr a, b1) ->
  backplanes b1 !! key = Some a.
Proof.
  intros Hrun. apply mbind_inr_inv in Hrun as (x & b2 & _ & Hitem).
  by apply item_inv in Hitem as [Hv ->].
Qed.

(** With the value under the key, the guarded computation is skipped. *)
Lemma skips_when_present (body : M t unit) (key : bkey) (b : t) (a : array) :
  backplanes b !! key = Some a ->
  (fresh <~ absent key ;;
   _ <~ (if fresh : bool then body else mret tt) ;;
   item backplanes key) b = (inr a, b).
Proof.
  intros Hk. unfold mbind, absent.
  rewrite bool_decide_eq_false_2 by (by rewrite Hk).
  cbn. by apply item_run.
Qed.



(** *** What a request leaves alone *)

Section Keeps.
Context (R : t -> t -> Prop) `{!PreOrder R}.







Lemma keeps_modify (f : t -> t) : (forall b, R b (f b)) -> keeps R (modify f).
Proof. intros Hf b. apply Hf. Qed.



End Keeps.

#[local] Instance longer_surface_events_stay_preorder (n : nat) :
  PreOrder (longer_surface_events_stay n).
Proof.
  split.
  - by intros b k' _.
  - intros b1 b2 b3 H12 H23 k' Hk'. by rewrite H23, H12.
Qed.














(** *** A getter asked again *)



Lemma try_item_hit {K V : Type} `{Countable K} (dict : t -> gmap K V) (k : K)
    (handler : M t V) (b : t) (v : V) :
  dict b !! k = Some v ->
  try_KeyError (item dict k) handler b = (inr v, b).
Proof.
  intros Hk. unfold try_KeyError, try_except, item. by rewrite Hk.
Qed.

Lemma try_item_miss {K V : Type} `{Countable K} (dict : t -> gmap K V) (k : K)
    (handler : M t V) (b : t) :
  dict b !! k = None ->
  try_KeyError (item dict k) handler b = handler b.
Proof.
  intros Hk. unfold try_KeyError, try_except, item. rewrite Hk.
  by rewrite bool_decide_eq_true_2.
Qed.









End BackplaneFacts.




(** ** The connector *)

(** *** Positions with velocities *)

Lemma V3_eq (a b : Vector3) :
  vx a = vx b -> vy a = vy b -> vz a = vz b -> a = b.
Proof. destruct a, b. simpl. by intros -> -> ->. Qed.

Ltac pv_ring :=
  repeat match goal with
         | x : PV |- _ => destruct x as [[? ? ?] [? ? ?]]
         | x : Vector3 |- _ => destruct x as [? ? ?]
         end;
  unfold pvadd, pvsub, pvneg, pvzero, vadd, vsub, vneg, ZERO;
  cbn [fst snd vx vy vz];
  apply pair_equal_spec; split; apply V3_eq; cbn [vx vy vz]; ring.

Lemma pvadd_comm (x y : PV) : pvadd x y = pvadd y x.
Proof. pv_ring. Qed.

Lemma pvadd_assoc (x y z : PV) : pvadd x (pvadd y z) = pvadd (pvadd x y) z.
Proof. pv_ring. Qed.

Lemma pvadd_zero_r (x : PV) : pvadd x pvzero = x.
Proof. pv_ring. Qed.

Lemma pvadd_zero_l (x : PV) : pvadd pvzero x = x.
Proof. pv_ring. Qed.

Lemma pvadd_neg (x : PV) : pvadd x (pvneg x) = pvzero.
Proof. pv_ring. Qed.

Lemma pvsub_add (x y : PV) : pvadd (pvsub x y) y = x.
Proof. pv_ring. Qed.

Lemma pvsub_def (x y : PV) : pvsub x y = pvadd x (pvneg y).
Proof. pv_ring. Qed.

Lemma pvsub_diag (x : PV) : pvsub x x = pvzero.
Proof. pv_ring. Qed.

Lemma pvadd_cancel_r (x y z : PV) : pvadd x z = pvadd y z -> x = y.
Proof.
  intros H.
  rewrite <- (pvadd_zero_r x), <- (pvadd_zero_r y), <- (pvadd_neg z).
  by rewrite !pvadd_assoc, H.
Qed.


Lemma pvsub_add_cancel (x y s : PV) :
  pvsub (pvadd x s) (pvadd y s) = pvsub x y.
Proof. pv_ring. Qed.

Lemma pvadd_sub (x y : PV) : pvsub (pvadd x y) y = x.
Proof. pv_ring. Qed.

Lemma pvsub_neg (x : PV) : pvsub pvzero x = pvneg x.
Proof. pv_ring. Qed.

Lemma pvneg_sub_add (x y : PV) : pvneg x = pvsub y (pvadd x y).
Proof. pv_ring. Qed.

Section ConnectFacts.
Context {frames : FrameRegistry} {laws : FrameLaws}.

Lemma T_zero (a b : string) (t : R) : T a b t pvzero = pvzero.
Proof.
  apply (pvadd_cancel_r _ _ (T a b t pvzero)).
  rewrite <- T_add, pvadd_zero_l. by rewrite pvadd_zero_l.
Qed.

Lemma T_neg (a b : string) (t : R) (x : PV) :
  T a b t (pvneg x) = pvneg (T a b t x).
Proof.
  apply (pvadd_cancel_r _ _ (T a b t x)).
  rewrite <- T_add. rewrite (pvadd_comm (pvneg x)), pvadd_neg, T_zero.
  by rewrite (pvadd_comm (pvneg _)), pvadd_neg.
Qed.

Lemma T_sub (a b : string) (t : R) (x y : PV) :
  T a b t (pvsub x y) = pvsub (T a b t x) (T a b t y).
Proof. by rewrite !pvsub_def, T_add, T_neg. Qed.

Lemma T_inj (a b : string) (t : R) (x y : PV) :
  T a b t x = T a b t y -> x = y.
Proof.
  intros H. apply (f_equal (T b a t)) in H.
  by rewrite !T_comp, !T_id in H.
Qed.

Lemma T_rotate (a b : string) (fr : Frame.t) (t : R) (x : PV) :
  frame_connect a b = inr fr -> Frame.rotate_pos_vel fr t x = T a b t x.
Proof. intros H. unfold T. by rewrite H. Qed.


(** *** The subclasses *)

Lemma delivers_weaken (p : Path.t) (l1 l2 : string -> Prop) (off : R -> PV) :
  (forall l, l1 l -> l2 l) -> delivers p l1 off -> delivers p l2 off.
Proof.
  intros Hl Hp t. destruct (Hp t) as (e & He & Ht & Hf & Ho & Hoff).
  exists e. repeat split; auto.
Qed.

Lemma delivers_ext (p : Path.t) (l : string -> Prop) (off1 off2 : R -> PV) :
  (forall t, off1 t = off2 t) -> delivers p l off1 -> delivers p l off2.
Proof.
  intros Hoff Hp t. destruct (Hp t) as (e & He & Ht & Hf & Ho & Heq).
  exists e. repeat split; auto. by rewrite <- Hoff.
Qed.

Lemma delivers_same_path (p q : Path.t) (l : string -> Prop) (off : R -> PV) :
  same_path p q -> delivers p l off -> delivers q l off.
Proof.
  intros (_ & _ & Hf & He) Hp t.
  destruct (Hp t) as (e & Hev & Ht & Hfe & Ho & Heq).
  exists e. rewrite <- He, <- Hf. by repeat split.
Qed.

Lemma well_labelled_delivers (p : Path.t) :
  well_labelled p ->
  delivers p (eq (Path.origin_id p))
           (fun t => T "J2000" (Path.frame_id p) t (pv_of p t)).
Proof.
  intros Hp t. destruct (Hp t) as (e & He & Ht & Ho & Hf).
  exists e. repeat split; auto. unfold pv_of. by rewrite He.
Qed.

Lemma Waypoint_delivers (a f : string) :
  delivers (Waypoint a f) (eq a) (fun _ => pvzero).
Proof.
  intros t. eexists. split; [reflexivity|]. repeat split.
  apply T_zero.
Qed.

Lemma Reversed_delivers (p : Path.t) (l : string -> Prop) (off : R -> PV) :
  delivers p l off ->
  delivers (Reversed p) l (fun t => pvneg (off t)).
Proof.
  intros Hp t. destruct (Hp t) as (e & He & Ht & Hf & Ho & Heq).
  eexists. split.
  { unfold Reversed. cbn [Path.event_at_time]. rewrite He. reflexivity. }
  cbn. repeat split; auto.
  rewrite <- Heq, <- T_neg. reflexivity.
Qed.

Lemma Rotated_delivers (p : Path.t) (F : string) (l : string -> Prop)
    (off : R -> PV) :
  delivers p l off ->
  exists r, Rotated p F = inr r /\
            Path.path_id r = Path.path_id p /\
            Path.origin_id r = Path.origin_id p /\
            Path.frame_id r = F /\
            delivers r l off.
Proof.
  intros Hp. unfold Rotated.
  destruct (fc_total F (Path.frame_id p)) as [fr Hfr].
  destruct (fc_ids _ _ _ Hfr) as [Hid Href].
  rewrite Hfr. cbn [bind]. eexists. split; [reflexivity|].
  repeat split. intros t.
  destruct (Hp t) as (e & He & Ht & Hf & Ho & Heq).
  cbn [Path.event_at_time Path.frame_id]. rewrite He. cbn [bind].
  unfold rotate_by_frame.
  rewrite bool_decide_eq_true_2 by congruence. cbn [assert bind ret].
  eexists. split; [reflexivity|]. cbn. repeat split; auto.
  unfold event_pv at 1. cbn [Event.pos Event.vel].
  rewrite <- surjective_pairing, Ht.
  rewrite (T_rotate _ _ _ _ _ Hfr). rewrite T_comp. exact Heq.
Qed.

Lemma Relative_delivers (x y : Path.t) (c : string) (offx offy : R -> PV) :
  Path.origin_id x = c -> Path.origin_id y = c ->
  delivers x (eq c) offx -> delivers y (eq c) offy ->
  exists r, Relative x y = inr r /\
            Path.path_id r = Path.path_id x /\
            Path.origin_id r = Path.path_id y /\
            Path.frame_id r = Path.frame_id y /\
            delivers r (eq (Path.path_id y))
                     (fun t => pvsub (offx t) (offy t)).
Proof.
  intros Hox Hoy Hx Hy. unfold Relative.
  rewrite bool_decide_eq_true_2 by congruence. cbn [assert bind ret].
  destruct (fc_total (Path.frame_id x) (Path.frame_id y)) as [fr Hfr].
  destruct (fc_ids _ _ _ Hfr) as [Hid Href].
  rewrite Hfr. cbn [bind]. eexists. split; [reflexivity|].
  repeat split. intros t.
  destruct (Hx t) as (ex & Hex & Htx & Hfx & Hlx & Heqx).
  destruct (Hy t) as (ey & Hey & Hty & Hfy & Hly & Heqy).
  cbn [Path.event_at_time Path.frame_id]. rewrite Hex. cbn [bind].
  unfold unrotate_by_frame.
  rewrite bool_decide_eq_true_2 by congruence. cbn [assert bind ret].
  unfold subtract_from_event. cbn [Event.origin_id Event.frame_id Event.time].
  rewrite bool_decide_eq_true_2 by congruence. cbn [assert bind ret].
  rewrite bool_decide_eq_true_2 by congruence. cbn [assert bind ret].
  rewrite Htx, Hey. cbn [bind].
  eexists. split; [reflexivity|]. cbn [Event.time Event.frame_id Event.origin_id].
  repeat split; auto.
  unfold event_pv at 1. cbn [Event.pos Event.vel].
  rewrite (fc_unrotate _ _ _ _ _ Hfr).
  change (vsub ?a (Event.pos ey), vsub ?b (Event.vel ey))
    with (pvsub (a, b) (event_pv ey)).
  rewrite <- surjective_pairing.
  change (Event.pos ex, Event.vel ex) with (event_pv ex).
  rewrite T_sub, T_comp. by rewrite Heqx, Heqy.
Qed.


Lemma link_frames_cons (p q : Path.t) (rest : list Path.t) :
  link_frames (p :: q :: rest)
  = (f <- frame_connect (Path.frame_id p) (Path.frame_id q) ;;
     fs <- link_frames (q :: rest) ;;
     ret (f :: fs)).
Proof. reflexivity. Qed.

Lemma link_frames_total (chain : list Path.t) :
  exists fs, link_frames chain = inr fs.
Proof.
  induction chain as [|p chain IH]; [by eexists|].
  destruct chain as [|q rest]; [by eexists|].
  rewrite link_frames_cons.
  destruct (fc_total (Path.frame_id p) (Path.frame_id q)) as [f ->].
  destruct IH as [fs ->]. by eexists.
Qed.

Lemma chained_tail (p : Path.t) (chain : list Path.t) :
  chained (p :: chain) -> chained chain.
Proof. intros H i x y Hx Hy. by apply (H (S i)). Qed.

Lemma linked_loop_delivers (rest : list Path.t) :
  forall (prev : Path.t) (fs : list Frame.t) (e : Event.t) (t : R) (acc : PV),
    link_frames (prev :: rest) = inr fs ->
    Forall well_labelled rest ->
    chained (prev :: rest) ->
    Event.time e = t ->
    Event.frame_id e = Path.frame_id prev ->
    Event.origin_id e = Path.origin_id prev ->
    T "J2000" (Path.frame_id prev) t (event_pv e) = acc ->
    exists e' final,
      last (prev :: rest) = Some final /\
      linked_loop rest fs e = inr e' /\
      Event.time e' = t /\
      Event.frame_id e' = Path.frame_id final /\
      Event.origin_id e' = Path.origin_id final /\
      T "J2000" (Path.frame_id final) t (event_pv e')
      = pvadd acc (chain_offset rest t).
Proof.
  induction rest as [|q rest IH]; intros prev fs e t acc Hfs Hwl Hch Ht Hf Ho Hacc.
  - cbn in Hfs. injection Hfs as <-. exists e, prev.
    cbn. repeat split; auto. by rewrite pvadd_zero_r.
  - rewrite link_frames_cons in Hfs.
    destruct (frame_connect (Path.frame_id prev) (Path.frame_id q)) as [x|f] eqn:Hf0;
      [discriminate|].
    cbn [bind] in Hfs.
    destruct (link_frames (q :: rest)) as [x|fs'] eqn:Hfs'; [discriminate|].
    cbn [bind ret] in Hfs. injection Hfs as <-.
    destruct (fc_ids _ _ _ Hf0) as [Hid Href].
    apply Forall_cons in Hwl as [Hq Hwl].
    destruct (Hq t) as (eq & Heq & Htq & Hoq & Hfq).
    assert (Hlink : Path.origin_id prev = Path.path_id q) by (by apply (Hch 0%nat)).
    cbn [linked_loop]. unfold unrotate_by_frame.
    rewrite bool_decide_eq_true_2 by congruence. cbn [assert bind ret].
    unfold add_to_event. cbn [Event.origin_id Event.frame_id Event.time].
    rewrite bool_decide_eq_true_2 by congruence. cbn [assert bind ret].
    rewrite bool_decide_eq_true_2 by congruence. cbn [assert bind ret].
    rewrite Ht, Heq. cbn [bind ret].
    match goal with
    | |- context [linked_loop rest fs' ?e2] =>
        destruct (IH q fs' e2 t
                    (pvadd acc (T "J2000" (Path.frame_id q) t (pv_of q t))))
          as (e' & final & Hlast & Hloop & Ht' & Hf' & Ho' & Hoff)
    end; auto.
    + by apply chained_tail in Hch.
    + unfold event_pv. cbn [Event.pos Event.vel].
      rewrite (fc_unrotate _ _ _ _ _ Hf0).
      change (vadd ?a (Event.pos eq), vadd ?b (Event.vel eq))
        with (pvadd (a, b) (event_pv eq)).
      rewrite <- surjective_pairing.
      change (Event.pos e, Event.vel e) with (event_pv e).
      rewrite T_add, T_comp, Hacc. unfold pv_of. by rewrite Heq.
    + exists e', final. repeat split; auto.
      rewrite Hoff. cbn [chain_offset foldr]. by rewrite pvadd_assoc.
Qed.

Lemma Linked_delivers (p0 : Path.t) (rest : list Path.t) :
  Forall well_labelled (p0 :: rest) ->
  chained (p0 :: rest) ->
  exists x final,
    last (p0 :: rest) = Some final /\
    Linked (p0 :: rest) = inr x /\
    Path.path_id x = Path.path_id p0 /\
    Path.origin_id x = Path.origin_id final /\
    Path.frame_id x = Path.frame_id final /\
    delivers x (eq (Path.origin_id final)) (chain_offset (p0 :: rest)).
Proof.
  intros Hwl Hch. unfold Linked.
  destruct (link_frames_total (p0 :: rest)) as [fs Hfs]. rewrite Hfs.
  cbn [bind].
  apply Forall_cons in Hwl as [Hp0 Hwl].
  assert (Hlast : exists final, last (p0 :: rest) = Some final).
  { destruct (last (p0 :: rest)) eqn:Hl; [by eexists|].
    by apply last_None in Hl. }
  destruct Hlast as [final Hlast]. rewrite Hlast.
  eexists _, final. split; [done|]. split; [reflexivity|].
  repeat split. intros t. cbn [Path.event_at_time Path.frame_id].
  destruct (Hp0 t) as (e0 & He0 & Ht0 & Ho0 & Hf0).
  rewrite He0. cbn [bind].
  destruct (linked_loop_delivers rest p0 fs e0 t
              (T "J2000" (Path.frame_id p0) t (event_pv e0)))
    as (e' & final' & Hlast' & Hloop & Ht' & Hf' & Ho' & Hoff); auto.
  rewrite Hlast in Hlast'. injection Hlast' as <-.
  exists e'. repeat split; auto.
  rewrite Hoff. cbn [chain_offset foldr]. unfold pv_of. by rewrite He0.
Qed.


(** *** Registering a synthesised path *)

#[local] Instance same_primaries_preorder : PreOrder same_primaries.
Proof.
  split.
  - by intros reg id.
  - intros r1 r2 r3 H12 H23 id. by rewrite H23, H12.
Qed.

Lemma same_primaries_anc_of (reg reg' : registry) (id : string) :
  same_primaries reg reg' -> anc_of reg' id = anc_of reg id.
Proof. intros H. unfold anc_of. by rewrite H. Qed.

Lemma same_primaries_wf (reg reg' : registry) (anc : list Path.t) :
  same_primaries reg reg' -> wf_ancestry reg anc -> wf_ancestry reg' anc.
Proof.
  intros H [Hl Hk Hr Hn Ht]. split; auto.
  intros i q Hq. destruct (Ht i q Hq) as (pq & Hpq & Hs & Ha).
  exists pq. by rewrite H.
Qed.

Lemma same_primaries_represents (reg reg' : registry) (p : Path.t)
    (a b : string) :
  same_primaries reg reg' -> represents reg p a b -> represents reg' p a b.
Proof.
  intros H (Ha & Hb & anca & ancb & Hanca & Hancb & Hd).
  split; [done|]. split; [done|]. exists anca, ancb.
  by rewrite !(same_primaries_anc_of _ _ _ H).
Qed.

Lemma same_primaries_insert_pair (reg : registry) (a b : string) (p : Path.t) :
  same_primaries reg (<[Key2 a b := p]> reg).
Proof. intros id. by rewrite lookup_insert_ne. Qed.

Lemma same_primaries_insert_triple (reg : registry) (a b f : string)
    (p : Path.t) :
  same_primaries reg (<[Key3 a b f := p]> reg).
Proof. intros id. by rewrite lookup_insert_ne. Qed.

Lemma consistent_insert_pair (reg : registry) (a b : string) (p : Path.t) :
  consistent reg -> represents reg p a b ->
  consistent (<[Key2 a b := p]> reg).
Proof.
  intros [H1 H2 H3] Hp.
  pose proof (same_primaries_insert_pair reg a b p) as Hsame.
  split.
  - intros id q Hq. rewrite lookup_insert_ne in Hq by done.
    destruct (H1 id q Hq) as (Hid & anc & Hanc & Hwf & Hhead).
    split; [done|]. exists anc. split; [done|]. split; [|done].
    by eapply same_primaries_wf.
  - intros a' b' q Hq.
    destruct (decide (Key2 a b = Key2 a' b')) as [[= <- <-]|Hne].
    + rewrite lookup_insert_eq in Hq. injection Hq as <-.
      by eapply same_primaries_represents.
    + rewrite lookup_insert_ne in Hq by done.
      eapply same_primaries_represents; eauto.
  - intros a' b' f q Hq. rewrite lookup_insert_ne in Hq by done.
    destruct (H3 a' b' f q Hq) as [Hf Hr]. split; [done|].
    by eapply same_primaries_represents.
Qed.

Lemma consistent_insert_triple (reg : registry) (a b f : string) (p : Path.t) :
  consistent reg -> represents reg p a b -> Path.frame_id p = f ->
  consistent (<[Key3 a b f := p]> reg).
Proof.
  intros [H1 H2 H3] Hp Hf.
  pose proof (same_primaries_insert_triple reg a b f p) as Hsame.
  split.
  - intros id q Hq. rewrite lookup_insert_ne in Hq by done.
    destruct (H1 id q Hq) as (Hid & anc & Hanc & Hwf & Hhead).
    split; [done|]. exists anc. split; [done|]. split; [|done].
    by eapply same_primaries_wf.
  - intros a' b' q Hq. rewrite lookup_insert_ne in Hq by done.
    eapply same_primaries_represents; eauto.
  - intros a' b' f' q Hq.
    destruct (decide (Key3 a b f = Key3 a' b' f')) as [[= <- <- <-]|Hne].
    + rewrite lookup_insert_eq in Hq. injection Hq as <-.
      split; [done|]. by eapply same_primaries_represents.
    + rewrite lookup_insert_ne in Hq by done.
      destruct (H3 a' b' f' q Hq) as [Hf' Hr]. split; [done|].
      by eapply same_primaries_represents.
Qed.

Lemma lookup_size_ne_0 (reg : registry) (k : key) (p : Path.t) :
  reg !! k = Some p -> size reg <> 0%nat.
Proof.
  intros Hk Hsize. apply map_size_empty_iff in Hsize. subst reg.
  by rewrite lookup_empty in Hk.
Qed.

Lemma register_secondary (fuel : nat) (p : Path.t) (reg : registry) :
  is_Some (reg !! Key1 (Path.origin_id p)) ->
  is_Some (reg !! Key1 (Path.path_id p)) ->
  register (S fuel) p None reg = (inr tt, with_secondary p reg).
Proof.
  intros [o Ho] [q Hq]. cbn [register].
  unfold mbind at 1, modify at 1.
  rewrite bool_decide_eq_false_2 by (by eapply lookup_size_ne_0).
  unfold mbind at 1, lookup_key at 1. rewrite Ho.
  unfold mbind at 1, try_KeyError, try_except, mbind at 1, lookup_key at 1.
  rewrite Hq. unfold mret at 1.
  unfold with_secondary, mbind, store_if_absent.
  destruct (reg !! Key2 _ _); cbn; by destruct (_ !! Key3 _ _ _).
Qed.

Lemma with_secondary_same_primaries (p : Path.t) (reg : registry) :
  same_primaries reg (with_secondary p reg).
Proof.
  intros id. unfold with_secondary, store_if_absent.
  destruct (reg !! Key2 _ _) eqn:H2; cbn.
  - destruct (reg !! Key3 _ _ _) eqn:H3; cbn; [done|].
    by rewrite lookup_insert_ne.
  - destruct (<[_ := _]> reg !! Key3 _ _ _) eqn:H3; cbn.
    + by rewrite lookup_insert_ne.
    + by rewrite !lookup_insert_ne.
Qed.

Lemma with_secondary_consistent (p : Path.t) (reg : registry) :
  consistent reg ->
  represents reg p (Path.path_id p) (Path.origin_id p) ->
  consistent (with_secondary p reg).
Proof.
  intros Hc Hp. unfold with_secondary, store_if_absent.
  destruct (reg !! Key2 _ _) eqn:H2; cbn.
  - destruct (reg !! Key3 _ _ _) eqn:H3; cbn; [done|].
    by apply consistent_insert_triple.
  - assert (Hc2 : consistent (<[Key2 (Path.path_id p) (Path.origin_id p) := p]> reg))
      by (by apply consistent_insert_pair).
    destruct (<[_ := _]> reg !! Key3 _ _ _) eqn:H3; cbn; [done|].
    apply consistent_insert_triple; [done| |done].
    eapply same_primaries_represents; [|exact Hp].
    apply same_primaries_insert_pair.
Qed.

Lemma represents_registered (reg : registry) (p : Path.t) (a b : string) :
  represents reg p a b ->
  is_Some (reg !! Key1 a) /\ is_Some (reg !! Key1 b).
Proof.
  intros (_ & _ & anca & ancb & Ha & Hb & _). unfold anc_of in *.
  destruct (reg !! Key1 a); [|discriminate].
  destruct (reg !! Key1 b); [|discriminate]. by split.
Qed.

(** Registering a path that the registry knows the two ends of keeps the
    registry consistent. *)
Lemma register_represents (fuel : nat) (p : Path.t) (reg : registry) :
  consistent reg ->
  represents reg p (Path.path_id p) (Path.origin_id p) ->
  exists reg',
    register (S fuel) p None reg = (inr tt, reg') /\
    consistent reg' /\ same_primaries reg reg'.
Proof.
  intros Hc Hp. destruct (represents_registered _ _ _ _ Hp) as [Ha Hb].
  exists (with_secondary p reg). split; [by apply register_secondary|].
  split; [by apply with_secondary_consistent|].
  apply with_secondary_same_primaries.
Qed.


(** The entries after [register] of a path that is not a primary
    definition: nothing is replaced, and the path is put under its pair and
    its triple where they were free. *)
Lemma with_secondary_lookup (p : Path.t) (reg : registry) (K : key) :
  with_secondary p reg !! K
  = match reg !! K with
    | Some q => Some q
    | None =>
        if bool_decide (K = Key2 (Path.path_id p) (Path.origin_id p) \/
                        K = Key3 (Path.path_id p) (Path.origin_id p)
                                 (Path.frame_id p))
        then Some p else None
    end.
Proof.
  unfold with_secondary, store_if_absent.
  set (k2 := Key2 (Path.path_id p) (Path.origin_id p)).
  set (k3 := Key3 (Path.path_id p) (Path.origin_id p) (Path.frame_id p)).
  assert (Hrest : forall q, reg !! K = Some q \/ (K <> k2 /\ K <> k3) ->
            reg !! K = match reg !! K with
                       | Some q => Some q
                       | None => if bool_decide (K = k2 \/ K = k3)
                                 then Some p else None
                       end).
  { intros q [HK|[H2 H3]]; [by rewrite HK|].
    destruct (reg !! K); [done|].
    rewrite bool_decide_eq_false_2; [done|]. by intros [?|?]. }
  destruct (reg !! k2) as [q2|] eqn:H2; cbn [snd].
  - destruct (reg !! k3) as [q3|] eqn:H3; cbn [snd].
    + destruct (decide (K = k2)) as [->|Hn2]; [by rewrite H2|].
      destruct (decide (K = k3)) as [->|Hn3]; [by rewrite H3|].
      apply (Hrest p). by right.
    + destruct (decide (K = k3)) as [->|Hn3].
      * rewrite lookup_insert_eq, H3.
        rewrite bool_decide_eq_true_2; [done|by right].
      * rewrite lookup_insert_ne by done.
        destruct (decide (K = k2)) as [->|Hn2]; [by rewrite H2|].
        apply (Hrest p). by right.
  - rewrite lookup_insert_ne by done.
    destruct (reg !! k3) as [q3|] eqn:H3; cbn [snd].
    + destruct (decide (K = k2)) as [->|Hn2].
      * rewrite lookup_insert_eq, H2.
        rewrite bool_decide_eq_true_2; [done|by left].
      * rewrite lookup_insert_ne by done.
        destruct (decide (K = k3)) as [->|Hn3]; [by rewrite H3|].
        apply (Hrest p). by right.
    + destruct (decide (K = k3)) as [->|Hn3].
      * rewrite lookup_insert_eq, H3.
        rewrite bool_decide_eq_true_2; [done|by right].
      * rewrite lookup_insert_ne by done.
        destruct (decide (K = k2)) as [->|Hn2].
        -- rewrite lookup_insert_eq, H2.
           rewrite bool_decide_eq_true_2; [done|by left].
        -- rewrite lookup_insert_ne by done. apply (Hrest p). by right.
Qed.

Lemma with_secondary_mono (p : Path.t) (reg : registry) (K : key)
    (q : Path.t) :
  reg !! K = Some q -> with_secondary p reg !! K = Some q.
Proof. intros HK. by rewrite with_secondary_lookup, HK. Qed.

Lemma register_represents_run (fuel : nat) (p : Path.t) (reg : registry) :
  represents reg p (Path.path_id p) (Path.origin_id p) ->
  register (S fuel) p None reg = (inr tt, with_secondary p reg).
Proof.
  intros Hp. destruct (represents_registered _ _ _ _ Hp) as [Ha Hb].
  by apply register_secondary.
Qed.


(** *** The common ancestry *)

Lemma find_id_Some (id : string) (l : list Path.t) (j : nat) :
  find_id id l = Some j ->
  exists q, l !! j = Some q /\ Path.path_id q = id.
Proof.
  revert j. induction l as [|p l IH]; intros j; cbn [find_id]; [done|].
  case_bool_decide as Hp.
  - intros [= <-]. by exists p.
  - destruct (find_id id l) as [j'|]; [|done]. cbn. intros [= <-].
    destruct (IH j' eq_refl) as (q & Hq & Hid). by exists q.
Qed.

Lemma find_id_None (id : string) (l : list Path.t) :
  find_id id l = None -> id ∉ Path.path_id <$> l.
Proof.
  induction l as [|p l IH]; cbn [find_id]; [intros _; apply not_elem_of_nil|].
  case_bool_decide as Hp; [done|].
  destruct (find_id id l); [done|]. intros _.
  rewrite fmap_cons. apply not_elem_of_cons. split; [congruence|by apply IH].
Qed.

Lemma common_ancestry_from_spec (rest1 : list Path.t) :
  forall (k : nat) (anc1 anc2 : list Path.t),
    drop k anc1 = rest1 ->
    (exists q, q ∈ rest1 /\ Path.path_id q ∈ Path.path_id <$> anc2) ->
    exists i j c1 c2,
      anc1 !! i = Some c1 /\ anc2 !! j = Some c2 /\
      Path.path_id c1 = Path.path_id c2 /\
      common_ancestry_from k rest1 anc1 anc2
      = (take (S i) anc1, take (S j) anc2).
Proof.
  induction rest1 as [|p rest1 IH]; intros k anc1 anc2 Hdrop (q & Hq & Hin).
  - by apply elem_of_nil in Hq.
  - assert (Hk : anc1 !! k = Some p).
    { rewrite <- (Nat.add_0_r k), <- lookup_drop, Hdrop. done. }
    assert (Hdrop' : drop (S k) anc1 = rest1).
    { rewrite <- (Nat.add_1_r k), <- drop_drop, Hdrop. done. }
    cbn [common_ancestry_from].
    destruct (find_id (Path.path_id p) anc2) as [j|] eqn:Hfind.
    + destruct (find_id_Some _ _ _ Hfind) as (c2 & Hc2 & Hid).
      by exists k, j, p, c2.
    + apply find_id_None in Hfind.
      apply (IH (S k) anc1 anc2 Hdrop').
      exists q. split; [|done].
      apply elem_of_cons in Hq as [->|Hq]; [done|exact Hq].
Qed.

Lemma last_elem_of {A : Type} (l : list A) (x : A) : last l = Some x -> x ∈ l.
Proof.
  intros Hl. apply last_Some in Hl as [l' ->].
  apply elem_of_app. right. apply list_elem_of_singleton. done.
Qed.

Lemma consistent_ancestry (reg : registry) (id : string) (p : Path.t) :
  consistent reg -> reg !! Key1 id = Some p ->
  exists anc q rest,
    Path.ancestry p = Some anc /\ anc_of reg id = Some anc /\
    wf_ancestry reg anc /\ anc = q :: rest /\ same_path q p /\
    Path.path_id p = id.
Proof.
  intros Hc Hp.
  destruct (cons_primary reg Hc id p Hp)
    as (Hid & anc & Hanc & Hwf & q & rest & Heq & Hsame).
  exists anc, q, rest.
  split; [exact Hanc|]. split; [unfold anc_of; rewrite Hp; exact Hanc|].
  split; [exact Hwf|]. split; [exact Heq|]. split; [exact Hsame|exact Hid].
Qed.

(** In a consistent registry two registered paths have a common ancestor,
    and from it upwards their ancestries are the same list. *)
Lemma common_ancestry_spec (reg : registry) (T' O' : string) (pT pO : Path.t)
    (aT aO : list Path.t) :
  consistent reg ->
  reg !! Key1 T' = Some pT -> reg !! Key1 O' = Some pO ->
  Path.ancestry pT = Some aT -> Path.ancestry pO = Some aO ->
  wf_ancestry reg aT -> wf_ancestry reg aO ->
  exists i j cT cO,
    aT !! i = Some cT /\ aO !! j = Some cO /\
    Path.path_id cT = Path.path_id cO /\
    drop i aT = drop j aO /\
    common_ancestry pT pO = inr (take (S i) aT, take (S j) aO).
Proof.
  intros Hc HT HO HaT HaO HwT HwO.
  destruct (wf_root _ _ HwT) as (rT & HrT & HidT).
  destruct (wf_root _ _ HwO) as (rO & HrO & HidO).
  destruct (common_ancestry_from_spec aT 0 aT aO eq_refl)
    as (i & j & cT & cO & HcT & HcO & Hids & Hres).
  { exists rT. split; [by apply last_elem_of|].
    rewrite HidT, <- HidO. apply list_elem_of_fmap. exists rO.
    split; [done|]. by apply last_elem_of. }
  exists i, j, cT, cO. repeat split; auto.
  - destruct (wf_tree _ _ HwT i cT HcT) as (p1 & Hp1 & _ & Ha1).
    destruct (wf_tree _ _ HwO j cO HcO) as (p2 & Hp2 & _ & Ha2).
    rewrite Hids, Hp2 in Hp1. injection Hp1 as <-. congruence.
  - unfold common_ancestry. rewrite HaT, HaO. unfold ret. by rewrite Hres.
Qed.

Lemma chain_offset_app (l1 l2 : list Path.t) (t : R) :
  chain_offset (l1 ++ l2) t = pvadd (chain_offset l1 t) (chain_offset l2 t).
Proof.
  induction l1 as [|p l1 IH]; cbn [chain_offset foldr app].
  - by rewrite pvadd_zero_l.
  - fold (chain_offset (l1 ++ l2) t). fold (chain_offset l1 t).
    by rewrite IH, pvadd_assoc.
Qed.

Lemma chain_offset_split (anc : list Path.t) (i : nat) (t : R) :
  chain_offset anc t
  = pvadd (chain_offset (take i anc) t) (chain_offset (drop i anc) t).
Proof. by rewrite <- chain_offset_app, take_drop. Qed.

Lemma drop_last_take {A : Type} (l : list A) (i : nat) :
  (i < length l)%nat -> drop_last (take (S i) l) = take i l.
Proof.
  intros Hi. unfold drop_last. rewrite length_take.
  rewrite Nat.min_l by lia. rewrite take_take.
  f_equal. lia.
Qed.


Lemma chain_offset_take (anc : list Path.t) (i : nat) (t : R) :
  chain_offset (take i anc) t
  = pvsub (chain_offset anc t) (chain_offset (drop i anc) t).
Proof. by rewrite (chain_offset_split anc i), pvadd_sub. Qed.

Lemma anc_of_primary (reg : registry) (id : string) (p : Path.t)
    (anc : list Path.t) :
  reg !! Key1 id = Some p -> Path.ancestry p = Some anc ->
  anc_of reg id = Some anc.
Proof. intros Hp Hanc. unfold anc_of. by rewrite Hp. Qed.

Lemma anc_of_tree (reg : registry) (anc : list Path.t) (i : nat) (q : Path.t) :
  wf_ancestry reg anc -> anc !! i = Some q ->
  anc_of reg (Path.path_id q) = Some (drop i anc).
Proof.
  intros Hwf Hq. destruct (wf_tree _ _ Hwf i q Hq) as (pq & Hpq & _ & Ha).
  by eapply anc_of_primary.
Qed.

Lemma represents_intro (reg : registry) (p : Path.t) (a b : string)
    (anca ancb : list Path.t) (l : string -> Prop) (off : R -> PV) :
  Path.path_id p = a -> Path.origin_id p = b ->
  anc_of reg a = Some anca -> anc_of reg b = Some ancb ->
  delivers p l off ->
  (forall s, l s -> origin_label a b ancb s) ->
  (forall t, off t = pvsub (chain_offset anca t) (chain_offset ancb t)) ->
  represents reg p a b.
Proof.
  intros Ha Hb Hanca Hancb Hd Hl Hoff.
  split; [done|]. split; [done|]. exists anca, ancb.
  split; [done|]. split; [done|].
  eapply delivers_weaken; [exact Hl|].
  eapply delivers_ext; [exact Hoff|exact Hd].
Qed.

(** *** One side of [connect_to] *)

Lemma chain_path_long (reg_fn : Path.t -> M registry unit) (primary : Path.t)
    (p0 p1 final : Path.t) (rest : list Path.t) :
  last (p0 :: p1 :: rest) = Some final ->
  chain_path reg_fn primary (p0 :: p1 :: rest)
  = (p <~ try_KeyError
            (lookup_key (Key2 (Path.path_id primary) (Path.origin_id final)))
            (p <~ lift (Linked (p0 :: p1 :: rest)) ;;
             _ <~ reg_fn p ;;
             mret p) ;;
     mret (Some p)).
Proof. intros Hl. unfold chain_path. by rewrite Hl. Qed.

Lemma wf_head_not_later (reg : registry) (anc : list Path.t) (q : Path.t)
    (i : nat) :
  wf_ancestry reg anc -> anc !! 0%nat = Some q -> (0 < i)%nat ->
  Path.path_id q ∉ Path.path_id <$> drop i anc.
Proof.
  intros Hwf Hq Hi Hin.
  apply list_elem_of_lookup in Hin as [k Hk].
  rewrite list_lookup_fmap, lookup_drop in Hk.
  assert (H0 : (Path.path_id <$> anc) !! 0%nat = Some (Path.path_id q))
    by (by rewrite list_lookup_fmap, Hq).
  assert (Hik : (Path.path_id <$> anc) !! (i + k)%nat = Some (Path.path_id q))
    by (by rewrite list_lookup_fmap).
  pose proof (NoDup_lookup _ _ _ _ (wf_nodup _ _ Hwf) H0 Hik). lia.
Qed.

Lemma chain_path_run (fuel : nat) (reg : registry) (X : string)
    (pX : Path.t) (aX : list Path.t) (i : nat) (c : Path.t) :
  consistent reg ->
  reg !! Key1 X = Some pX -> Path.ancestry pX = Some aX ->
  aX !! i = Some c ->
  exists r reg',
    chain_path (fun p => register (S fuel) p None) pX (take i aX) reg
    = (inr r, reg') /\
    consistent reg' /\ same_primaries reg reg' /\
    side_ok X aX i (Path.path_id c) r /\
    forall K,
      reg' !! K = reg !! K \/
      (reg !! K = None /\
       exists x, r = Some x /\ reg' !! K = Some x /\
                 (K = Key2 X (Path.path_id c) \/
                  K = Key3 X (Path.path_id c) (Path.frame_id x))).
Proof.
  intros Hc HpX HaX Hi.
  destruct (consistent_ancestry _ _ _ Hc HpX)
    as (anc & q & rest & Hanc & HancX & Hwf & Heq & Hsame & Hid).
  assert (anc = aX) as -> by congruence.
  assert (Hq0 : aX !! 0%nat = Some q) by (by rewrite Heq).
  assert (Hqid : Path.path_id q = X) by (destruct Hsame as (-> & _); done).
  destruct i as [|[|k]].
  - (* no path on this side *)
    exists None, reg. cbn. repeat (split; [done|]). intros K. by left.
  - (* the primary definition itself *)
    exists (Some pX), reg. split.
    { rewrite Heq. done. }
    split; [done|]. split; [done|].
    split; [|intros K; by left].
    split; [lia|]. split; [done|].
    assert (Ho : Path.origin_id pX = Path.path_id c).
    { destruct Hsame as (_ & <- & _). by apply (wf_links _ _ Hwf 0%nat q c). }
    split; [done|].
    eapply delivers_same_path; [exact Hsame|].
    assert (Hwl : well_labelled q).
    { pose proof (wf_labelled _ _ Hwf) as Hall.
      rewrite Forall_lookup in Hall. by apply (Hall 0%nat). }
    destruct Hsame as (_ & Hso & _).
    rewrite <- Ho, <- Hso.
    eapply delivers_ext; [|by apply well_labelled_delivers].
    intros t. rewrite Heq. cbn [take chain_offset foldr].
    by rewrite pvadd_zero_r.
  - (* a longer chain *)
    assert (Hlen : (S (S k) < length aX)%nat) by (by eapply lookup_lt_Some).
    destruct (lookup_lt_is_Some_2 aX (S k) ltac:(lia)) as [final Hfinal].
    assert (Hlast : last (take (S (S k)) aX) = Some final).
    { rewrite last_lookup, length_take, Nat.min_l by lia.
      cbn [Init.Nat.pred]. by rewrite lookup_take_lt by lia. }
    assert (Hfo : Path.origin_id final = Path.path_id c)
      by (by apply (wf_links _ _ Hwf (S k) final c)).
    assert (Hshape : exists p1 rest', take (S (S k)) aX = q :: p1 :: rest').
    { rewrite Heq in Hlen |- *. destruct rest as [|p1 rest']; [cbn in Hlen; lia|].
      by exists p1, (take k rest'). }
    destruct Hshape as (p1 & rest' & Hshape).
    assert (HancX' : anc_of reg X = Some aX) by done.
    assert (Hancc : anc_of reg (Path.path_id c) = Some (drop (S (S k)) aX))
      by (by eapply anc_of_tree).
    rewrite Hshape in Hlast.
    rewrite Hshape, (chain_path_long _ _ _ _ _ _ Hlast), <- Hshape.
    destruct Hsame as (Hs1 & Hs2 & Hs3 & Hs4).
    rewrite <- Hs1, Hqid, Hfo.
    unfold mbind at 1, try_KeyError, try_except, lookup_key at 1.
    destruct (reg !! Key2 X (Path.path_id c)) as [p|] eqn:Hpair.
    + (* the path is registered *)
      exists (Some p), reg. split; [done|]. split; [done|]. split; [done|].
      split; [|intros K; by left].
      destruct (cons_pair _ Hc _ _ _ Hpair)
        as (Hpa & Hpb & anca & ancb & Hanca & Hancb & Hd).
      assert (anca = aX) as -> by congruence.
      assert (ancb = drop (S (S k)) aX) as -> by congruence.
      split; [lia|]. split; [done|]. split; [done|].
      eapply delivers_weaken; [|eapply delivers_ext; [|exact Hd]].
      * intros l [->|(-> & Hin & _)]; [done|].
        exfalso. rewrite <- Hqid in Hin.
        by eapply (wf_head_not_later _ _ _ (S (S k)) Hwf Hq0); [lia|].
      * intros t. cbn beta. by rewrite chain_offset_take.
    + (* the path is linked from the chain and registered *)
      rewrite bool_decide_eq_true_2 by done.
      assert (Hall : Forall well_labelled (take (S (S k)) aX))
        by (apply Forall_take, (wf_labelled _ _ Hwf)).
      assert (Hch : chained (take (S (S k)) aX)).
      { intros n a b Ha Hb.
        apply lookup_take_Some in Ha as [Ha _].
        apply lookup_take_Some in Hb as [Hb _].
        by apply (wf_links _ _ Hwf n). }
      rewrite Hshape in Hall, Hch.
      destruct (Linked_delivers _ _ Hall Hch)
        as (x & final' & Hlast' & HL & Hxid & Hxo & Hxf & Hxd).
      assert (final' = final) as -> by congruence.
      rewrite <- Hshape in HL, Hxd.
      rewrite Hqid in Hxid. rewrite Hfo in Hxo, Hxd.
      assert (Hrep : represents reg x (Path.path_id x) (Path.origin_id x)).
      { rewrite Hxid, Hxo.
        eapply represents_intro; [done|done|exact HancX'|exact Hancc|exact Hxd| |].
        - intros s <-. by left.
        - intros t. by rewrite chain_offset_take. }
      exists (Some x), (with_secondary x reg). split.
      { unfold mbind at 1, lift at 1. rewrite HL.
        unfold mbind at 1. by rewrite (register_represents_run fuel x reg Hrep). }
      split; [by apply with_secondary_consistent|].
      split; [apply with_secondary_same_primaries|].
      split; [split; [lia|done]|].
      intros K. rewrite with_secondary_lookup, Hxid, Hxo.
      destruct (reg !! K) as [q'|] eqn:HK; [by left|].
      case_bool_decide as HKd; [|by left].
      right. split; [done|]. exists x. by repeat split.
Qed.

Lemma chain_path_spec (fuel : nat) (reg : registry) (X : string)
    (pX : Path.t) (aX : list Path.t) (i : nat) (c : Path.t) :
  consistent reg ->
  reg !! Key1 X = Some pX -> Path.ancestry pX = Some aX ->
  aX !! i = Some c ->
  exists r reg',
    chain_path (fun p => register (S fuel) p None) pX (take i aX) reg
    = (inr r, reg') /\
    consistent reg' /\ same_primaries reg reg' /\
    side_ok X aX i (Path.path_id c) r.
Proof.
  intros Hc HpX HaX Hi.
  destruct (chain_path_run fuel reg X pX aX i c Hc HpX HaX Hi)
    as (r & reg' & Hrun & Hc' & Hsp & Hside & _).
  by exists r, reg'.
Qed.


(** *** The relative path *)

Lemma Rotated_represents (reg : registry) (p : Path.t) (a b F : string) :
  represents reg p a b ->
  exists r, Rotated p F = inr r /\ Path.frame_id r = F /\
            represents reg r a b.
Proof.
  intros (Ha & Hb & anca & ancb & Hanca & Hancb & Hd).
  destruct (Rotated_delivers p F _ _ Hd) as (r & Hr & Hra & Hrb & Hrf & Hrd).
  exists r. split; [done|]. split; [done|].
  split; [congruence|]. split; [congruence|].
  by exists anca, ancb.
Qed.

(** The path that [connect_to] builds from its two sides is the path from
    the origin to the target. *)
Lemma sides_represent (reg : registry) (T' O' F : string)
    (aT aO : list Path.t) (i j : nat) (cT cO : Path.t)
    (rT rO : option Path.t) :
  anc_of reg T' = Some aT -> anc_of reg O' = Some aO ->
  wf_ancestry reg aO ->
  (Path.path_id <$> aT) !! 0%nat = Some T' ->
  (Path.path_id <$> aO) !! 0%nat = Some O' ->
  aT !! i = Some cT -> aO !! j = Some cO ->
  Path.path_id cT = Path.path_id cO ->
  drop i aT = drop j aO ->
  side_ok T' aT i (Path.path_id cT) rT ->
  side_ok O' aO j (Path.path_id cO) rO ->
  exists x,
    match rO, rT with
    | None, None => ret (Waypoint T' F)
    | None, Some target_path => ret target_path
    | Some origin_path, None => ret (Reversed origin_path)
    | Some origin_path, Some target_path => Relative target_path origin_path
    end = inr x /\
    represents reg x T' O'.
Proof.
  intros HaT HaO HwfO HT0 HO0 HcT HcO Hids Hdrop HsT HsO.
  destruct rO as [y|], rT as [x|]; cbn [side_ok] in HsT, HsO.
  - (* both sides: the relative path *)
    destruct HsT as (Hi & Hxa & Hxb & Hxd), HsO as (Hj & Hya & Hyb & Hyd).
    rewrite <- Hids in Hyb, Hyd.
    destruct (Relative_delivers x y _ _ _ Hxb Hyb Hxd Hyd)
      as (r & Hr & Hra & Hrb & Hrf & Hrd).
    exists r. split; [done|]. rewrite Hya in Hrd.
    eapply represents_intro;
      [congruence|congruence|exact HaT|exact HaO|exact Hrd| |].
    + intros s <-. by left.
    + intros t. cbn beta.
      rewrite (chain_offset_split aT i t), (chain_offset_split aO j t), Hdrop.
      by rewrite pvsub_add_cancel.
  - (* the target is an ancestor of the origin: the reversed path *)
    destruct HsO as (Hj & Hya & Hyb & Hyd). subst i.
    assert (HT : Path.path_id cT = T').
    { rewrite list_lookup_fmap, HcT in HT0. by injection HT0. }
    exists (Reversed y). split; [done|].
    rewrite <- Hids, HT in Hyb, Hyd.
    eapply represents_intro;
      [exact Hyb|exact Hya|exact HaT|exact HaO
      |by apply Reversed_delivers| |].
    + intros s <-. right. split; [done|].
      assert (Hj' : (Path.path_id <$> aO) !! j = Some T')
        by (rewrite list_lookup_fmap, HcO; cbn; by rewrite <- Hids, HT).
      split; [by eapply list_elem_of_lookup_2|].
      intros ->.
      pose proof (NoDup_lookup _ _ _ _ (wf_nodup _ _ HwfO) HO0 Hj'). lia.
    + intros t. cbn beta. rewrite drop_0 in Hdrop.
      rewrite (chain_offset_split aO j t), Hdrop.
      apply pvneg_sub_add.
  - (* the origin is an ancestor of the target *)
    destruct HsT as (Hi & Hxa & Hxb & Hxd). subst j.
    assert (HO : Path.path_id cO = O').
    { rewrite list_lookup_fmap, HcO in HO0. by injection HO0. }
    exists x. split; [done|]. rewrite Hids, HO in Hxb, Hxd.
    eapply represents_intro;
      [exact Hxa|exact Hxb|exact HaT|exact HaO|exact Hxd| |].
    + intros s <-. by left.
    + intros t. rewrite drop_0 in Hdrop. by rewrite chain_offset_take, Hdrop.
  - (* the same path: a waypoint *)
    subst i j. rewrite !drop_0 in Hdrop. subst aO.
    assert (HT : Path.path_id cT = T').
    { rewrite list_lookup_fmap, HcT in HT0. by injection HT0. }
    assert (HO : Path.path_id cO = O').
    { rewrite list_lookup_fmap, HcO in HO0. by injection HO0. }
    assert (T' = O') as <- by congruence.
    exists (Waypoint T' F). split; [done|].
    eapply represents_intro;
      [done|done|exact HaT|exact HaT|apply Waypoint_delivers| |].
    + intros s <-. by left.
    + intros t. by rewrite pvsub_diag.
Qed.

(** Registering the relative path and rotating it into the frame asked
    for. *)
Lemma register_and_rotate_run (fuel : nat) (reg : registry) (x : Path.t)
    (T' O' F : string) :
  consistent reg -> represents reg x T' O' ->
  exists p reg',
    (_ <~ register (S fuel) x None ;;
     if bool_decide (Path.frame_id x = F) then mret x
     else
       result <~ lift (Rotated x F) ;;
       _ <~ register (S fuel) result None ;;
       mret result) reg = (inr p, reg') /\
    Path.frame_id p = F /\ represents reg' p T' O' /\
    consistent reg' /\ same_primaries reg reg' /\
    (reg !! Key3 T' O' F = None \/ reg !! Key3 T' O' F = Some x ->
     reg' !! Key3 T' O' F = Some p) /\
    (forall K q, reg !! K = Some q -> reg' !! K = Some q).
Proof.
  intros Hc Hx.
  pose proof Hx as (Hxa & Hxb & _).
  assert (Hx' : represents reg x (Path.path_id x) (Path.origin_id x))
    by (by rewrite Hxa, Hxb).
  set (reg1 := with_secondary x reg).
  assert (Hreg1 : register (S fuel) x None reg = (inr tt, reg1))
    by (by apply register_represents_run).
  assert (Hc1 : consistent reg1) by (by apply with_secondary_consistent).
  assert (Hsp1 : same_primaries reg reg1)
    by apply with_secondary_same_primaries.
  unfold mbind at 1. rewrite Hreg1.
  case_bool_decide as Hf.
  - exists x, reg1. split; [done|]. split; [done|].
    split; [by eapply same_primaries_represents|].
    split; [done|]. split; [done|].
    split; [|intros K q HK; by apply with_secondary_mono].
    intros HK. unfold reg1. rewrite with_secondary_lookup.
    destruct HK as [-> | ->]; [|done].
    rewrite bool_decide_eq_true_2; [done|]. right. by rewrite Hxa, Hxb, Hf.
  - assert (Hx1 : represents reg1 x T' O')
      by (by eapply same_primaries_represents).
    destruct (Rotated_represents reg1 x T' O' F Hx1) as (r & Hr & Hrf & Hrep).
    pose proof Hrep as (Hra & Hrb & _).
    assert (Hr' : represents reg1 r (Path.path_id r) (Path.origin_id r))
      by (by rewrite Hra, Hrb).
    exists r, (with_secondary r reg1). split.
    { unfold mbind at 1, lift at 1. rewrite Hr.
      unfold mbind at 1. by rewrite (register_represents_run fuel r reg1 Hr'). }
    split; [done|].
    split; [eapply same_primaries_represents; [|exact Hrep];
            apply with_secondary_same_primaries|].
    split; [by apply with_secondary_consistent|].
    split; [etrans; [exact Hsp1|apply with_secondary_same_primaries]|].
    split; [|intros K q HK; by apply with_secondary_mono, with_secondary_mono].
    intros HK.
    assert (HKnone : reg !! Key3 T' O' F = None).
    { destruct HK as [HK|HK]; [done|].
      destruct (cons_triple _ Hc _ _ _ _ HK) as [Hfx _]. done. }
    assert (HK1 : reg1 !! Key3 T' O' F = None).
    { unfold reg1. rewrite with_secondary_lookup, HKnone.
      rewrite bool_decide_eq_false_2; [done|].
      intros [H2|H3]; [done|]. injection H3 as _ _ H3. done. }
    rewrite with_secondary_lookup, HK1.
    rewrite bool_decide_eq_true_2; [done|]. right. by rewrite Hra, Hrb, Hrf.
Qed.

Lemma register_and_rotate (fuel : nat) (reg : registry) (x : Path.t)
    (T' O' F : string) :
  consistent reg -> represents reg x T' O' ->
  exists p reg',
    (_ <~ register (S fuel) x None ;;
     if bool_decide (Path.frame_id x = F) then mret x
     else
       result <~ lift (Rotated x F) ;;
       _ <~ register (S fuel) result None ;;
       mret result) reg = (inr p, reg') /\
    Path.frame_id p = F /\ represents reg' p T' O' /\
    consistent reg' /\ same_primaries reg reg'.
Proof.
  intros Hc Hx.
  destruct (register_and_rotate_run fuel reg x T' O' F Hc Hx)
    as (p & reg' & Hrun & Hf & Hrep & Hc' & Hsp & _).
  by exists p, reg'.
Qed.

(** *** [connect_to] and [connect] *)

(** In a consistent registry [connect_to] returns, for any two registered
    paths, a path from the origin to the target in the frame asked for, and
    leaves the registry consistent. *)
Lemma connect_to_run (fuel : nat) (reg : registry) (self : Path.t)
    (T' O' : string) (pT pO : Path.t) (frame : option string) :
  consistent reg -> Path.path_id self = T' ->
  reg !! Key1 T' = Some pT -> reg !! Key1 O' = Some pO ->
  exists p reg',
    connect_to (S fuel) self O' frame reg = (inr p, reg') /\
    Path.frame_id p = default (Path.frame_id pO) frame /\
    represents reg' p T' O' /\
    consistent reg' /\ same_primaries reg reg' /\
    (reg !! Key3 T' O' (default (Path.frame_id pO) frame) = None ->
     reg' !! Key3 T' O' (default (Path.frame_id pO) frame) = Some p) /\
    (forall K q, reg !! K = Some q -> reg' !! K = Some q).
Proof.
  intros Hc Hself HT HO.
  destruct (consistent_ancestry _ _ _ Hc HT)
    as (aT & qT & restT & HaT & HancT & HwfT & HeqT & HsameT & HidT).
  destruct (consistent_ancestry _ _ _ Hc HO)
    as (aO & qO & restO & HaO & HancO & HwfO & HeqO & HsameO & HidO).
  destruct (common_ancestry_spec reg T' O' pT pO aT aO Hc HT HO HaT HaO HwfT HwfO)
    as (i & j & cT & cO & HcT & HcO & Hids & Hdrop & Hca).
  unfold connect_to, connect_to_with. rewrite Hself.
  unfold mbind at 1, lookup_key at 1. rewrite HT.
  unfold mbind at 1, lookup_key at 1. rewrite HO.
  unfold mbind at 1, lift at 1. rewrite Hca. cbn [fst snd].
  rewrite !drop_last_take by (eapply lookup_lt_Some; eauto).
  set (F := default (Path.frame_id pO) frame).
  destruct (chain_path_run fuel reg T' pT aT i cT Hc HT HaT HcT)
    as (rT & reg1 & Hrun1 & Hc1 & Hsp1 & Hside1 & Hch1).
  unfold mbind at 1. rewrite Hrun1.
  assert (HO1 : reg1 !! Key1 O' = Some pO) by (by rewrite Hsp1).
  destruct (chain_path_run fuel reg1 O' pO aO j cO Hc1 HO1 HaO HcO)
    as (rO & reg2 & Hrun2 & Hc2 & Hsp2 & Hside2 & Hch2).
  unfold mbind at 1. rewrite Hrun2.
  assert (Hsp : same_primaries reg reg2) by (by etrans).
  assert (HO0 : (Path.path_id <$> aO) !! 0%nat = Some O').
  { rewrite HeqO. cbn. destruct HsameO as (-> & _). by rewrite HidO. }
  destruct (sides_represent reg2 T' O' F aT aO i j cT cO rT rO)
    as (x & Hx & Hrep); try done.
  { by rewrite (same_primaries_anc_of _ _ _ Hsp). }
  { by rewrite (same_primaries_anc_of _ _ _ Hsp). }
  { by eapply same_primaries_wf. }
  { rewrite HeqT. cbn. destruct HsameT as (-> & _). by rewrite HidT. }
  unfold mbind at 1, lift at 1. rewrite Hx.
  destruct (register_and_rotate_run fuel reg2 x T' O' F Hc2 Hrep)
    as (p & reg3 & Hrun3 & Hpf & Hprep & Hc3 & Hsp3 & Hstore & Hmono3).
  exists p, reg3. split; [exact Hrun3|]. split; [done|].
  split; [done|]. split; [done|]. split; [by etrans|].
  split; cycle 1.
  { intros K q HK. apply Hmono3.
    destruct (Hch2 K) as [->|[Hnone _]].
    - destruct (Hch1 K) as [->|[Hnone _]]; [done|congruence].
    - destruct (Hch1 K) as [Hsame|[Hnone' _]]; congruence. }
  intros HK. apply Hstore.
  (* the origin is its own ancestor at index 0 only *)
  assert (Hj0 : Path.path_id cO = O' -> j = 0%nat).
  { intros HcO'.
    assert (Hj : (Path.path_id <$> aO) !! j = Some O')
      by (rewrite list_lookup_fmap, HcO; cbn; by rewrite HcO').
    by rewrite (NoDup_lookup _ _ _ _ (wf_nodup _ _ HwfO) HO0 Hj). }
  destruct (Hch1 (Key3 T' O' F)) as [Hsame1|(_ & xT & -> & HxT & HKT)].
  - (* the target side left the triple free *)
    rewrite HK in Hsame1.
    destruct (Hch2 (Key3 T' O' F)) as [Hsame2|(_ & y & -> & Hy & HKy)].
    + left. by rewrite Hsame2.
    + exfalso. destruct HKy as [HKy|HKy]; [done|].
      injection HKy as HTO HOc _.
      destruct Hside2 as (Hj & _). specialize (Hj0 (eq_sym HOc)). lia.
  - (* the target side registered its path under the triple *)
    destruct HKT as [HKT|HKT]; [done|]. injection HKT as HOc _.
    rewrite Hids in HOc. specialize (Hj0 (eq_sym HOc)). subst j.
    destruct rO as [y|]; [destruct Hside2 as (Hj & _); lia|].
    cbn in Hx. injection Hx as <-.
    right. destruct (Hch2 (Key3 T' O' F)) as [Hsame2|(_ & y & Hy & _)];
      [by rewrite Hsame2|done].
Qed.

Lemma connect_to_spec (fuel : nat) (reg : registry) (self : Path.t)
    (T' O' : string) (pT pO : Path.t) (frame : option string) :
  consistent reg -> Path.path_id self = T' ->
  reg !! Key1 T' = Some pT -> reg !! Key1 O' = Some pO ->
  exists p reg',
    connect_to (S fuel) self O' frame reg = (inr p, reg') /\
    Path.frame_id p = default (Path.frame_id pO) frame /\
    represents reg' p T' O' /\
    consistent reg' /\ same_primaries reg reg'.
Proof.
  intros Hc Hself HT HO.
  destruct (connect_to_run fuel reg self T' O' pT pO frame Hc Hself HT HO)
    as (p & reg' & Hrun & Hf & Hrep & Hc' & Hsp & _).
  by exists p, reg'.
Qed.


(** In a consistent registry [connect] returns, for any two registered
    paths, a path from the origin to the target in the frame asked for, and
    leaves the registry consistent, with the path under its triple. *)
Lemma connect_run (fuel : nat) (reg : registry) (T' O' : string)
    (pT pO : Path.t) (frame : option string) :
  consistent reg ->
  reg !! Key1 T' = Some pT -> reg !! Key1 O' = Some pO ->
  exists p reg',
    connect (S fuel) T' O' frame reg = (inr p, reg') /\
    Path.frame_id p = default (Path.frame_id pO) frame /\
    represents reg' p T' O' /\
    consistent reg' /\ same_primaries reg reg' /\
    reg' !! Key3 T' O' (default (Path.frame_id pO) frame) = Some p /\
    (forall K q, reg !! K = Some q -> reg' !! K = Some q).
Proof.
  intros Hc HT HO. unfold connect.
  set (F := default (Path.frame_id pO) frame).
  assert (HF : match frame with
               | Some f => mret f
               | None => origin <~ lookup_key (Key1 O') ;;
                         mret (Path.frame_id origin)
               end reg = (inr F, reg)).
  { destruct frame as [f|]; [done|].
    unfold mbind, lookup_key. by rewrite HO. }
  unfold mbind at 1. rewrite HF.
  unfold try_KeyError at 1, try_except at 1, lookup_key at 1.
  destruct (reg !! Key3 T' O' F) as [p|] eqn:Htriple.
  { (* the path already exists *)
    exists p, reg. split; [done|].
    destruct (cons_triple _ Hc _ _ _ _ Htriple) as [Hf Hrep]. done. }
  rewrite bool_decide_eq_true_2 by done.
  unfold try_KeyError at 1, try_except at 1.
  unfold mbind at 1, lookup_key at 1.
  destruct (reg !! Key2 T' O') as [newpath|] eqn:Hpair.
  { (* the path exists in another frame: rotate it *)
    pose proof (cons_pair _ Hc _ _ _ Hpair) as Hnew.
    destruct (Rotated_represents reg newpath T' O' F Hnew)
      as (r & Hr & Hrf & Hrep).
    pose proof Hrep as (Hra & Hrb & _).
    assert (Hr' : represents reg r (Path.path_id r) (Path.origin_id r))
      by (by rewrite Hra, Hrb).
    exists r, (with_secondary r reg). split.
    { unfold mbind at 1, lift at 1. rewrite Hr.
      unfold mbind at 1. by rewrite (register_represents_run fuel r reg Hr'). }
    split; [done|].
    split; [eapply same_primaries_represents; [|exact Hrep];
            apply with_secondary_same_primaries|].
    split; [by apply with_secondary_consistent|].
    split; [apply with_secondary_same_primaries|].
    split; [|intros K q HK; by apply with_secondary_mono].
    rewrite with_secondary_lookup, Htriple.
    rewrite bool_decide_eq_true_2; [done|]. right. by rewrite Hra, Hrb, Hrf. }
  rewrite bool_decide_eq_true_2 by done.
  unfold mbind at 1, lookup_key at 1. rewrite HT.
  destruct (cons_primary _ Hc _ _ HT) as [HidT _].
  destruct (connect_to_run fuel reg pT T' O' pT pO (Some F) Hc HidT HT HO)
    as (p & reg' & Hrun & Hpf & Hrep & Hc' & Hsp & Hstore & Hmono).
  exists p, reg'. split; [exact Hrun|]. split; [exact Hpf|].
  split; [done|]. split; [done|]. split; [done|].
  split; [by apply Hstore|done].
Qed.

(** In a consistent registry [connect] returns, for any two registered
    paths, a path from the origin to the target in the frame asked for, and
    leaves the registry consistent. *)
Lemma connect_spec (fuel : nat) (reg : registry) (T' O' : string)
    (pT pO : Path.t) (frame : option string) :
  consistent reg ->
  reg !! Key1 T' = Some pT -> reg !! Key1 O' = Some pO ->
  exists p reg',
    connect (S fuel) T' O' frame reg = (inr p, reg') /\
    Path.frame_id p = default (Path.frame_id pO) frame /\
    represents reg' p T' O' /\
    consistent reg' /\ same_primaries reg reg'.
Proof.
  intros Hc HT HO.
  destruct (connect_run fuel reg T' O' pT pO frame Hc HT HO)
    as (p & reg' & Hrun & Hf & Hrep & Hc' & Hsp & _).
  by exists p, reg'.
Qed.



(** *** Primary definitions *)

#[local] Instance extends_preorder : PreOrder extends.
Proof.
  split.
  - by intros reg id p.
  - intros r1 r2 r3 H12 H23 id p Hp. by apply H23, H12.
Qed.

Lemma same_primaries_extends (reg reg' : registry) :
  same_primaries reg reg' -> extends reg reg'.
Proof. intros H id p Hp. by rewrite H. Qed.

Lemma extends_anc_of (reg reg' : registry) (id : string) (anc : list Path.t) :
  extends reg reg' -> anc_of reg id = Some anc -> anc_of reg' id = Some anc.
Proof.
  intros H. unfold anc_of. destruct (reg !! Key1 id) as [p|] eqn:Hp; [|done].
  by rewrite (H _ _ Hp).
Qed.

Lemma extends_wf (reg reg' : registry) (anc : list Path.t) :
  extends reg reg' -> wf_ancestry reg anc -> wf_ancestry reg' anc.
Proof.
  intros H [Hl Hk Hr Hn Ht]. split; auto.
  intros i q Hq. destruct (Ht i q Hq) as (pq & Hpq & Hs & Ha).
  exists pq. split; [by apply H|done].
Qed.

Lemma extends_represents (reg reg' : registry) (p : Path.t) (a b : string) :
  extends reg reg' -> represents reg p a b -> represents reg' p a b.
Proof.
  intros H (Ha & Hb & anca & ancb & Hanca & Hancb & Hd).
  split; [done|]. split; [done|]. exists anca, ancb.
  split; [by eapply extends_anc_of|]. split; [by eapply extends_anc_of|done].
Qed.

Lemma same_path_set_ancestry (anc : list Path.t) (p : Path.t) :
  same_path p (Path.set_ancestry anc p).
Proof. by repeat split. Qed.

Lemma Waypoint_well_labelled (id f : string) : well_labelled (Waypoint id f).
Proof. intros t. eexists. by repeat split. Qed.

Lemma Waypoint_represents (reg : registry) (id f : string)
    (anc : list Path.t) :
  anc_of reg id = Some anc -> represents reg (Waypoint id f) id id.
Proof.
  intros Hanc.
  eapply represents_intro;
    [done|done|exact Hanc|exact Hanc|apply Waypoint_delivers| |].
  - intros s <-. by left.
  - intros t. by rewrite pvsub_diag.
Qed.

(** A well-formed ancestry names registered paths only. *)
Lemma wf_registered (reg : registry) (anc : list Path.t) (id : string) :
  wf_ancestry reg anc -> id ∈ Path.path_id <$> anc ->
  is_Some (reg !! Key1 id).
Proof.
  intros Hwf Hin. apply list_elem_of_fmap in Hin as (q & -> & Hq).
  apply list_elem_of_lookup in Hq as [i Hi].
  destruct (wf_tree _ _ Hwf i q Hi) as (pq & Hpq & _). by exists pq.
Qed.

(** SSB is registered in every consistent registry that is not empty. *)
Lemma consistent_SSB (reg : registry) (id : string) (p : Path.t) :
  consistent reg -> reg !! Key1 id = Some p ->
  is_Some (reg !! Key1 "SSB").
Proof.
  intros Hc Hp.
  destruct (consistent_ancestry _ _ _ Hc Hp)
    as (anc & q & rest & _ & _ & Hwf & _).
  destruct (wf_root _ _ Hwf) as (root & Hlast & <-).
  apply (wf_registered reg anc); [done|].
  apply list_elem_of_fmap. exists root. split; [done|by apply last_elem_of].
Qed.

(** The registry stays consistent when a well-labelled path with a registered
    origin is stored as the primary definition of an unregistered ID. *)
Lemma consistent_insert_primary (reg : registry) (self pO : Path.t)
    (aO : list Path.t) :
  consistent reg -> well_labelled self ->
  reg !! Key1 (Path.origin_id self) = Some pO ->
  Path.ancestry pO = Some aO ->
  reg !! Key1 (Path.path_id self) = None ->
  consistent (<[Key1 (Path.path_id self)
                := Path.set_ancestry (self :: aO) self]> reg).
Proof.
  intros Hc Hwl HO HaO Hfresh.
  set (self' := Path.set_ancestry (self :: aO) self).
  set (reg' := <[Key1 (Path.path_id self) := self']> reg).
  assert (Hext : extends reg reg').
  { intros id p Hp. unfold reg'. rewrite lookup_insert_ne; [done|].
    intros [= Heq]. rewrite Heq in Hfresh. congruence. }
  destruct (consistent_ancestry _ _ _ Hc HO)
    as (anc & qO & restO & Hanc & HancO & HwfO & HeqO & HsameO & HidO).
  assert (anc = aO) as -> by congruence.
  assert (Hnew : wf_ancestry reg' (self :: aO)).
  { destruct HwfO as [Hl Hk Hr Hn Ht]. split.
    - by constructor.
    - intros [|i] p q Hp Hq.
      + cbn in Hp, Hq. injection Hp as <-. rewrite HeqO in Hq. cbn in Hq.
        injection Hq as <-. destruct HsameO as (-> & _). done.
      + by apply (Hk i).
    - destruct Hr as (root & Hlast & Hroot). exists root. split; [|done].
      rewrite HeqO in Hlast |- *. done.
    - rewrite fmap_cons. constructor; [|done].
      intros Hin.
      destruct (wf_registered reg aO (Path.path_id self)) as [x Hx];
        [by split|done|congruence].
    - intros [|i] q Hq.
      + cbn in Hq. injection Hq as <-. exists self'. split.
        { unfold reg'. by rewrite lookup_insert_eq. }
        split; [apply same_path_set_ancestry|done].
      + cbn in Hq. destruct (Ht i q Hq) as (pq & Hpq & Hs & Ha).
        exists pq. split; [by apply Hext|]. split; [done|]. exact Ha. }
  split.
  - intros id p Hp. unfold reg' in Hp.
    destruct (decide (id = Path.path_id self)) as [->|Hne].
    + rewrite lookup_insert_eq in Hp. injection Hp as <-.
      split; [done|]. exists (self :: aO). split; [done|]. split; [done|].
      exists self, aO. split; [done|]. apply same_path_set_ancestry.
    + rewrite lookup_insert_ne in Hp by congruence.
      destruct (cons_primary _ Hc id p Hp) as (Hid & anc & Hanc' & Hwf & Hhead).
      split; [done|]. exists anc. split; [done|]. split; [|done].
      by eapply extends_wf.
  - intros a b p Hp. unfold reg' in Hp. rewrite lookup_insert_ne in Hp by done.
    eapply extends_represents; [exact Hext|]. by apply (cons_pair _ Hc).
  - intros a b f p Hp. unfold reg' in Hp.
    rewrite lookup_insert_ne in Hp by done.
    destruct (cons_triple _ Hc a b f p Hp) as [Hf Hrep]. split; [done|].
    by eapply extends_represents.
Qed.


Lemma register_S (fuel : nat) (self : Path.t) :
  register (S fuel) self None
  = (_ <~ modify (fun reg : registry =>
                    if bool_decide (size reg = 0%nat)
                    then initialize_registry else reg) ;;
     origin <~ lookup_key (Key1 (Path.origin_id self)) ;;
     self <~ try_KeyError
       (_ <~ lookup_key (Key1 (Path.path_id self)) ;; mret self)
       (anc <~ lift (match Path.ancestry origin with
                     | Some a => ret a
                     | None => raise AttributeError
                     end) ;;
        let self := Path.set_ancestry (self :: anc) self in
        _ <~ store_key (Key1 (Path.path_id self)) self ;;
        let waypoint := Waypoint (Path.path_id self) (Path.frame_id self) in
        _ <~ store_key (Key2 (Path.path_id self) (Path.path_id self))
                       waypoint ;;
        _ <~ store_key (Key3 (Path.path_id self) (Path.path_id self)
                             (Path.frame_id self)) waypoint ;;
        _ <~ (if bool_decide (Path.origin_id self = "SSB"
                              /\ Path.frame_id self = "J2000")
              then mret tt
              else try_pass
                (wrt_ssb <~ connect_to fuel self "SSB" (Some "J2000") ;;
                 _ <~ store_key (Key3 (Path.path_id wrt_ssb) "SSB" "J2000")
                                wrt_ssb ;;
                 store_if_absent (Key2 (Path.path_id wrt_ssb) "SSB")
                                 wrt_ssb)) ;;
        mret self) ;;
     _ <~ store_if_absent
            (Key2 (Path.path_id self) (Path.origin_id self)) self ;;
     store_if_absent
       (Key3 (Path.path_id self) (Path.origin_id self)
             (Path.frame_id self)) self).
Proof. reflexivity. Qed.

Lemma store_secondary_run (p : Path.t) (reg : registry) :
  (_ <~ store_if_absent (Key2 (Path.path_id p) (Path.origin_id p)) p ;;
   store_if_absent
     (Key3 (Path.path_id p) (Path.origin_id p) (Path.frame_id p)) p) reg
  = (inr tt, with_secondary p reg).
Proof.
  unfold with_secondary, mbind, store_if_absent.
  destruct (reg !! Key2 _ _); cbn; by destruct (_ !! Key3 _ _ _).
Qed.

(** The path to SSB that a primary registration asks [connect_to] for. *)
Lemma register_wrt_ssb (fuel : nat) (reg : registry) (self pself : Path.t) :
  consistent reg ->
  reg !! Key1 (Path.path_id self) = Some pself ->
  exists reg',
    try_pass
      (wrt_ssb <~ connect_to (S fuel) self "SSB" (Some "J2000") ;;
       _ <~ store_key (Key3 (Path.path_id wrt_ssb) "SSB" "J2000") wrt_ssb ;;
       store_if_absent (Key2 (Path.path_id wrt_ssb) "SSB") wrt_ssb) reg
    = (inr tt, reg') /\
    consistent reg' /\ same_primaries reg reg'.
Proof.
  intros Hc Hself.
  destruct (consistent_SSB _ _ _ Hc Hself) as [pS HS].
  destruct (connect_to_spec fuel reg self (Path.path_id self) "SSB"
              pself pS (Some "J2000") Hc eq_refl Hself HS)
    as (p & reg1 & Hrun & Hpf & Hrep & Hc1 & Hsp1).
  cbn in Hpf.
  assert (Hpid : Path.path_id p = Path.path_id self) by (by destruct Hrep).
  assert (Hc2 : consistent (<[Key3 (Path.path_id p) "SSB" "J2000" := p]> reg1)).
  { rewrite Hpid. by apply consistent_insert_triple. }
  unfold try_pass, mbind at 1. rewrite Hrun.
  unfold mbind at 1, store_key at 1, modify at 1.
  unfold store_if_absent.
  destruct (_ !! Key2 _ _) eqn:Hpair; cbn [snd];
    (eexists; split; [reflexivity|]).
  - split; [done|]. etrans; [exact Hsp1|].
    apply same_primaries_insert_triple.
  - split.
    + rewrite Hpid. apply consistent_insert_pair; [by rewrite <- Hpid|].
      eapply same_primaries_represents; [|exact Hrep].
      apply same_primaries_insert_triple.
    + etrans; [exact Hsp1|]. etrans; [apply same_primaries_insert_triple|].
      apply same_primaries_insert_pair.
Qed.

(** The run of a primary registration: [register] of a well-labelled path
    whose origin is registered and whose ID is not. *)
Lemma register_primary_run (fuel : nat) (reg : registry) (self pO : Path.t)
    (aO : list Path.t) :
  consistent reg -> well_labelled self ->
  reg !! Key1 (Path.origin_id self) = Some pO ->
  Path.ancestry pO = Some aO ->
  reg !! Key1 (Path.path_id self) = None ->
  exists reg',
    register (S (S fuel)) self None reg = (inr tt, reg') /\
    consistent reg' /\ extends reg reg' /\
    reg' !! Key1 (Path.path_id self)
    = Some (Path.set_ancestry (self :: aO) self) /\
    (forall id, id <> Path.path_id self -> reg' !! Key1 id = reg !! Key1 id).
Proof.
  intros Hc Hwl HO HaO' Hfresh.
  destruct (consistent_ancestry _ _ _ Hc HO)
    as (aO0 & qO & restO & HaO & HancO & HwfO & HeqO & HsameO & HidO).
  assert (aO0 = aO) as -> by congruence.
  rewrite register_S.
  unfold mbind at 1, modify at 1.
  rewrite bool_decide_eq_false_2 by (by eapply lookup_size_ne_0).
  unfold mbind at 1, lookup_key at 1. rewrite HO.
  unfold mbind at 1, try_KeyError at 1, try_except at 1.
  unfold mbind at 1, lookup_key at 1. rewrite Hfresh.
  rewrite bool_decide_eq_true_2 by done.
  rewrite HaO.
  unfold mbind at 1, lift at 1, ret at 1. cbv zeta.
  unfold mbind at 1, store_key at 1, modify at 1.
  unfold mbind at 1, store_key at 1, modify at 1.
  unfold mbind at 1, store_key at 1, modify at 1.
  set (self' := Path.set_ancestry (self :: aO) self).
  change (Path.path_id self') with (Path.path_id self).
  change (Path.origin_id self') with (Path.origin_id self).
  change (Path.frame_id self') with (Path.frame_id self).
  set (wp := Waypoint (Path.path_id self) (Path.frame_id self)).
  set (reg1 := <[Key1 (Path.path_id self) := self']> reg).
  set (reg2 := <[Key2 (Path.path_id self) (Path.path_id self) := wp]> reg1).
  set (reg3 := <[Key3 (Path.path_id self) (Path.path_id self)
                      (Path.frame_id self) := wp]> reg2).
  (* the registry with the new primary definition and its waypoints *)
  assert (Hc1 : consistent reg1) by (by eapply consistent_insert_primary).
  assert (H1self : reg1 !! Key1 (Path.path_id self) = Some self')
    by (unfold reg1; by rewrite lookup_insert_eq).
  assert (Hext1 : extends reg reg1).
  { intros id p Hp. unfold reg1. rewrite lookup_insert_ne; [done|].
    intros [= Heq]. rewrite Heq in Hfresh. congruence. }
  assert (Hwp : represents reg1 wp (Path.path_id self) (Path.path_id self)).
  { eapply Waypoint_represents. by eapply anc_of_primary. }
  assert (Hc2 : consistent reg2) by (by apply consistent_insert_pair).
  assert (Hsp12 : same_primaries reg1 reg2)
    by apply same_primaries_insert_pair.
  assert (Hc3 : consistent reg3).
  { apply consistent_insert_triple; [done| |done].
    by eapply same_primaries_represents. }
  assert (Hsp13 : same_primaries reg1 reg3).
  { etrans; [exact Hsp12|]. apply same_primaries_insert_triple. }
  assert (H3self : reg3 !! Key1 (Path.path_id self) = Some self')
    by (by rewrite Hsp13).
  (* the path to SSB *)
  assert (Hblock : exists reg6,
    (if bool_decide (Path.origin_id self = "SSB"
                     /\ Path.frame_id self = "J2000")
     then mret tt
     else try_pass
       (wrt_ssb <~ connect_to (S fuel) self' "SSB" (Some "J2000") ;;
        _ <~ store_key (Key3 (Path.path_id wrt_ssb) "SSB" "J2000") wrt_ssb ;;
        store_if_absent (Key2 (Path.path_id wrt_ssb) "SSB") wrt_ssb)) reg3
    = (inr tt, reg6) /\ consistent reg6 /\ same_primaries reg3 reg6).
  { case_bool_decide as Hd.
    - by exists reg3.
    - by apply (register_wrt_ssb fuel reg3 self' self'). }
  destruct Hblock as (reg6 & Hrun6 & Hc6 & Hsp36).
  unfold mbind at 1. rewrite Hrun6. unfold mret at 1.
  rewrite (store_secondary_run self' reg6).
  change (Path.path_id self') with (Path.path_id self).
  assert (Hext6 : extends reg reg6).
  { etrans; [exact Hext1|]. apply same_primaries_extends. by etrans. }
  exists (with_secondary self' reg6). split; [done|].
  split; [|split; [|split]].
  - apply with_secondary_consistent; [done|].
    change (Path.path_id self') with (Path.path_id self).
    change (Path.origin_id self') with (Path.origin_id self).
    eapply (represents_intro reg6 self' _ _ (self :: aO) aO
              (eq (Path.origin_id self))
              (fun t => T "J2000" (Path.frame_id self) t (pv_of self t))).
    + done.
    + done.
    + apply (anc_of_primary _ _ self'); [|done]. rewrite Hsp36. exact H3self.
    + by eapply extends_anc_of.
    + eapply delivers_same_path; [apply same_path_set_ancestry|].
      by apply well_labelled_delivers.
    + intros s <-. by left.
    + intros t. cbn [chain_offset foldr]. fold (chain_offset aO t).
      by rewrite pvadd_sub.
  - etrans; [exact Hext6|]. apply same_primaries_extends.
    apply with_secondary_same_primaries.
  - by rewrite with_secondary_same_primaries, Hsp36, H3self.
  - intros id Hid.
    rewrite with_secondary_same_primaries, Hsp36, Hsp13. unfold reg1.
    rewrite lookup_insert_ne; [done|congruence].
Qed.

(** A primary registration keeps the registry consistent: [register] of a
    well-labelled path whose origin is registered and whose ID is not. *)
Lemma register_primary (fuel : nat) (reg : registry) (self pO : Path.t) :
  consistent reg -> well_labelled self ->
  reg !! Key1 (Path.origin_id self) = Some pO ->
  reg !! Key1 (Path.path_id self) = None ->
  exists reg',
    register (S (S fuel)) self None reg = (inr tt, reg') /\
    consistent reg' /\ extends reg reg' /\
    is_Some (reg' !! Key1 (Path.path_id self)) /\
    (forall id, id <> Path.path_id self -> reg' !! Key1 id = reg !! Key1 id).
Proof.
  intros Hc Hwl HO Hfresh.
  destruct (consistent_ancestry _ _ _ Hc HO) as (aO & _ & _ & HaO & _).
  destruct (register_primary_run fuel reg self pO aO Hc Hwl HO HaO Hfresh)
    as (reg' & Hrun & Hc' & Hext & Hself & Honly).
  exists reg'. split; [done|]. split; [done|]. split; [done|].
  split; [by eexists|done].
Qed.

Lemma represents_same_path (reg : registry) (p q : Path.t) (a b : string) :
  same_path p q -> represents reg p a b -> represents reg q a b.
Proof.
  intros Hs (Ha & Hb & anca & ancb & Hanca & Hancb & Hd).
  pose proof Hs as (Hs1 & Hs2 & _).
  split; [congruence|]. split; [congruence|]. exists anca, ancb.
  split; [done|]. split; [done|]. by eapply delivers_same_path.
Qed.

(** [Path.initialize_registry] leaves a consistent registry. *)
Lemma initialize_registry_consistent : consistent initialize_registry.
Proof.
  set (wp := Waypoint "SSB" "J2000").
  assert (Hs : same_path wp SSB) by apply same_path_set_ancestry.
  assert (H0 : consistent (<[Key1 "SSB" := SSB]> ∅)).
  { split.
    - intros id p Hp.
      destruct (decide (id = "SSB")) as [->|Hne].
      + rewrite lookup_insert_eq in Hp. injection Hp as <-.
        split; [done|]. exists [wp]. split; [done|]. split.
        * split.
          -- repeat constructor. apply Waypoint_well_labelled.
          -- intros [|i] p q Hp Hq; done.
          -- by exists wp.
          -- cbn. repeat constructor. apply not_elem_of_nil.
          -- intros [|i] q Hq; [|done]. cbn in Hq. injection Hq as <-.
             exists SSB. split; [by rewrite lookup_insert_eq|]. by split.
        * by exists wp, [].
      + rewrite lookup_insert_ne, lookup_empty in Hp by congruence. done.
    - intros a b p Hp. by rewrite lookup_insert_ne, lookup_empty in Hp.
    - intros a b f p Hp. by rewrite lookup_insert_ne, lookup_empty in Hp. }
  assert (Hrep : represents (<[Key1 "SSB" := SSB]> ∅) SSB "SSB" "SSB").
  { eapply represents_same_path; [exact Hs|].
    eapply (Waypoint_represents _ "SSB" "J2000" [wp]).
    unfold anc_of. by rewrite lookup_insert_eq. }
  unfold initialize_registry.
  apply consistent_insert_triple; [by apply consistent_insert_pair| |done].
  eapply same_primaries_represents; [|exact Hrep].
  apply same_primaries_insert_pair.
Qed.

Lemma FixedPath_well_labelled (pos : Vector3) (origin frame id : string) :
  well_labelled (FixedPath pos origin frame id).
Proof. intros t. eexists. by repeat split. Qed.



End ConnectFacts.

Lemma identity_frames_laws : FrameLaws (frames := identity_frames).
Proof.
  split.
  - intros a b. by eexists.
  - intros a b fr [= <-]. by split.
  - intros a b fr t x [= <-]. done.
  - done.
  - done.
  - done.
Qed.

(** The registry of the three fixed paths is consistent and holds them. *)
Lemma solar_registry_consistent :
  consistent (frames := identity_frames) solar_registry /\
  is_Some (solar_registry !! Key1 "MOON") /\
  is_Some (solar_registry !! Key1 "MARS").
Proof.
  pose proof identity_frames_laws as laws.
  unfold solar_registry. cbv zeta.
  destruct (register_primary (frames := identity_frames) 0
              initialize_registry EARTH SSB)
    as (r1 & -> & Hc1 & Hext1 & Hs1 & Honly1);
    [apply initialize_registry_consistent
    |apply FixedPath_well_labelled|reflexivity|reflexivity|].
  destruct Hs1 as [pE HE]. cbn [snd].
  destruct (register_primary (frames := identity_frames) 0 r1 MOON pE)
    as (r2 & -> & Hc2 & Hext2 & Hs2 & Honly2);
    [exact Hc1|apply FixedPath_well_labelled|exact HE
    |by rewrite Honly1|].
  cbn [snd].
  assert (HS2 : r2 !! Key1 "SSB" = Some SSB) by (by apply Hext2, Hext1).
  destruct (register_primary (frames := identity_frames) 0 r2 MARS SSB)
    as (r3 & -> & Hc3 & Hext3 & Hs3 & Honly3);
    [exact Hc2|apply FixedPath_well_labelled|exact HS2
    |by rewrite Honly2, Honly1|].
  cbn [snd]. split; [exact Hc3|]. split; [|exact Hs3].
  destruct Hs2 as [pM HM]. exists pM. by apply Hext3.
Qed.


(** ** Further properties of the path classes *)

Section PathClassFacts.
Context {frames : FrameRegistry} {laws : FrameLaws}.

Lemma delivers_event (p : Path.t) (l : string -> Prop) (off : R -> PV)
    (t : R) :
  delivers p l off ->
  exists e, Path.event_at_time p t = inr e /\ Event.time e = t /\
            Event.frame_id e = Path.frame_id p /\ l (Event.origin_id e) /\
            T "J2000" (Path.frame_id p) t (Event.pos e, Event.vel e) = off t.
Proof. intros Hd. exact (Hd t). Qed.

(** X1: a Linked path over a chain of paths, each the origin of the one
    before, has the ID of the first path and the origin and frame of the
    last, and at every time its event carries that origin and frame and the
    sum of the offsets of the paths of the chain. *)
Theorem Linked_adds_the_chain (p0 : Path.t) (rest : list Path.t) :
  Forall well_labelled (p0 :: rest) ->
  chained (p0 :: rest) ->
  exists x final,
    last (p0 :: rest) = Some final /\
    Linked (p0 :: rest) = inr x /\
    Path.path_id x = Path.path_id p0 /\
    Path.origin_id x = Path.origin_id final /\
    Path.frame_id x = Path.frame_id final /\
    forall t, exists e,
      Path.event_at_time x t = inr e /\
      Event.time e = t /\
      Event.origin_id e = Path.origin_id final /\
      Event.frame_id e = Path.frame_id final /\
      T "J2000" (Path.frame_id final) t (Event.pos e, Event.vel e)
      = chain_offset (p0 :: rest) t.
Proof.
  intros Hall Hch.
  destruct (Linked_delivers p0 rest Hall Hch)
    as (x & final & Hlast & HL & Hid & Ho & Hf & Hd).
  exists x, final. repeat (split; [done|]).
  intros t. destruct (Hd t) as (e & He & Ht & Hef & Hl & Hoff).
  exists e. rewrite Hf in Hef, Hoff. by repeat split.
Qed.

(** X2: a Relative path of two paths with the same origin has the ID of
    the first, the ID of the second as its origin and the frame of the
    second, and at every time its event is the offset of the first less the
    offset of the second. *)
Theorem Relative_subtracts (x y : Path.t) :
  well_labelled x -> well_labelled y ->
  Path.origin_id x = Path.origin_id y ->
  exists r,
    Relative x y = inr r /\
    Path.path_id r = Path.path_id x /\
    Path.origin_id r = Path.path_id y /\
    Path.frame_id r = Path.frame_id y /\
    forall t, exists e ex ey,
      Path.event_at_time r t = inr e /\
      Path.event_at_time x t = inr ex /\
      Path.event_at_time y t = inr ey /\
      Event.time e = t /\
      Event.origin_id e = Path.path_id y /\
      Event.frame_id e = Path.frame_id y /\
      (Event.pos e, Event.vel e)
      = pvsub (T (Path.frame_id y) (Path.frame_id x) t
                 (Event.pos ex, Event.vel ex))
              (Event.pos ey, Event.vel ey).
Proof.
  intros Hx Hy Ho.
  pose proof (well_labelled_delivers x Hx) as Hdx.
  pose proof (well_labelled_delivers y Hy) as Hdy.
  rewrite Ho in Hdx.
  destruct (Relative_delivers x y _ _ _ Ho eq_refl Hdx Hdy)
    as (r & Hr & Hid & Hor & Hf & Hd).
  exists r. repeat (split; [done|]).
  intros t. destruct (Hd t) as (e & He & Ht & Hef & Hl & Hoff).
  destruct (Hx t) as (ex & Hex & _). destruct (Hy t) as (ey & Hey & _).
  exists e, ex, ey. rewrite Hf in Hef, Hoff.
  repeat (split; [done|]).
  apply (T_inj "J2000" (Path.frame_id y) t).
  change (Event.pos e, Event.vel e) with (event_pv e). rewrite Hoff.
  unfold pv_of. rewrite Hex, Hey.
  by rewrite T_sub, T_comp.
Qed.

(** X3: reversing a path twice gives back its IDs and frame, and events
    with the time, position, velocity, origin and frame of the events of
    the path. *)
Theorem Reversed_twice (p : Path.t) (t : R) (e : Event.t) :
  Path.event_at_time p t = inr e ->
  Path.path_id (Reversed (Reversed p)) = Path.path_id p /\
  Path.origin_id (Reversed (Reversed p)) = Path.origin_id p /\
  Path.frame_id (Reversed (Reversed p)) = Path.frame_id p /\
  exists e',
    Path.event_at_time (Reversed (Reversed p)) t = inr e' /\
    Event.time e' = Event.time e /\
    Event.pos e' = Event.pos e /\
    Event.vel e' = Event.vel e /\
    Event.origin_id e' = Event.origin_id e /\
    Event.frame_id e' = Event.frame_id e.
Proof.
  intros He. repeat (split; [done|]).
  cbn [Reversed Path.event_at_time]. rewrite He. cbn.
  eexists. split; [reflexivity|]. cbn.
  assert (Hneg : forall v, vneg (vneg v) = v).
  { intros [a b c]. unfold vneg. cbn [vx vy vz]. f_equal; ring. }
  by rewrite !Hneg.
Qed.


End PathClassFacts.

(** ** Further properties of the registry and the connector *)

Lemma find_id_first (id : string) (l : list Path.t) (j : nat) :
  find_id id l = Some j ->
  exists q, l !! j = Some q /\ Path.path_id q = id /\
            forall k c, (k < j)%nat -> l !! k = Some c -> Path.path_id c <> id.
Proof.
  revert j. induction l as [|p l IH]; intros j; cbn [find_id]; [done|].
  case_bool_decide as Hp.
  - intros [= <-]. exists p. split; [done|]. split; [done|]. intros k c Hk. lia.
  - destruct (find_id id l) as [j'|]; [|done]. cbn. intros [= <-].
    destruct (IH j' eq_refl) as (q & Hq & Hid & Hmin).
    exists q. split; [done|]. split; [done|].
    intros [|k] c Hk Hc.
    + cbn in Hc. by injection Hc as <-.
    + cbn in Hc. apply (Hmin k c); [lia|done].
Qed.

Lemma common_ancestry_from_first (rest1 : list Path.t) :
  forall (k : nat) (anc1 anc2 : list Path.t),
    drop k anc1 = rest1 ->
    (forall m c, (m < k)%nat -> anc1 !! m = Some c ->
                 Path.path_id c ∉ Path.path_id <$> anc2) ->
    (exists q, q ∈ rest1 /\ Path.path_id q ∈ Path.path_id <$> anc2) ->
    exists i j c1 c2,
      anc1 !! i = Some c1 /\ anc2 !! j = Some c2 /\
      Path.path_id c1 = Path.path_id c2 /\
      common_ancestry_from k rest1 anc1 anc2
      = (take (S i) anc1, take (S j) anc2) /\
      (forall m c, (m < i)%nat -> anc1 !! m = Some c ->
                   Path.path_id c ∉ Path.path_id <$> anc2) /\
      (forall m c, (m < j)%nat -> anc2 !! m = Some c ->
                   Path.path_id c <> Path.path_id c1).
Proof.
  induction rest1 as [|p rest1 IH]; intros k anc1 anc2 Hdrop Hbefore (q & Hq & Hin).
  - by apply elem_of_nil in Hq.
  - assert (Hk : anc1 !! k = Some p).
    { rewrite <- (Nat.add_0_r k), <- lookup_drop, Hdrop. done. }
    assert (Hdrop' : drop (S k) anc1 = rest1).
    { rewrite <- (Nat.add_1_r k), <- drop_drop, Hdrop. done. }
    cbn [common_ancestry_from].
    destruct (find_id (Path.path_id p) anc2) as [j|] eqn:Hfind.
    + destruct (find_id_first _ _ _ Hfind) as (c2 & Hc2 & Hid & Hmin).
      exists k, j, p, c2. repeat (split; [done|]). done.
    + apply find_id_None in Hfind.
      apply (IH (S k) anc1 anc2 Hdrop').
      * intros m c Hm Hc. destruct (decide (m = k)) as [->|Hne].
        -- rewrite Hk in Hc. by injection Hc as <-.
        -- apply (Hbefore m c); [lia|done].
      * exists q. split; [|done].
        apply elem_of_cons in Hq as [->|Hq]; [done|exact Hq].
Qed.

(** X5: when an ancestor of the first path has the ID of an ancestor of the
    second, [common_ancestry] returns the two ancestries cut after their
    first common ancestor: both lists end at paths with the same ID, no
    earlier ancestor of the first path is an ancestor of the second, and no
    earlier ancestor of the second has that ID. *)
Theorem common_ancestry_first_common (path1 path2 : Path.t)
    (anc1 anc2 : list Path.t) (q : Path.t) :
  Path.ancestry path1 = Some anc1 -> Path.ancestry path2 = Some anc2 ->
  q ∈ anc1 -> Path.path_id q ∈ Path.path_id <$> anc2 ->
  exists i j c1 c2,
    common_ancestry path1 path2 = inr (take (S i) anc1, take (S j) anc2) /\
    last (take (S i) anc1) = Some c1 /\ last (take (S j) anc2) = Some c2 /\
    Path.path_id c1 = Path.path_id c2 /\
    (forall m c, (m < i)%nat -> anc1 !! m = Some c ->
                 Path.path_id c ∉ Path.path_id <$> anc2) /\
    (forall m c, (m < j)%nat -> anc2 !! m = Some c ->
                 Path.path_id c <> Path.path_id c1).
Proof.
  intros H1 H2 Hq Hin.
  destruct (common_ancestry_from_first anc1 0 anc1 anc2 eq_refl)
    as (i & j & c1 & c2 & Hc1 & Hc2 & Hid & Hres & Hmin1 & Hmin2).
  { intros m c Hm. lia. }
  { by exists q. }
  exists i, j, c1, c2.
  split; [unfold common_ancestry; rewrite H1, H2; unfold ret; by rewrite Hres|].
  split; [by rewrite (take_S_r _ _ _ Hc1), last_snoc|].
  split; [by rewrite (take_S_r _ _ _ Hc2), last_snoc|].
  done.
Qed.

Lemma common_ancestry_first_common_witness :
  exists i j c1 c2,
    common_ancestry (Path.set_ancestry [MOON; EARTH; Waypoint "SSB" "J2000"] MOON)
                    (Path.set_ancestry [MARS; Waypoint "SSB" "J2000"] MARS)
    = inr (take (S i) [MOON; EARTH; Waypoint "SSB" "J2000"],
           take (S j) [MARS; Waypoint "SSB" "J2000"]) /\
    last (take (S i) [MOON; EARTH; Waypoint "SSB" "J2000"]) = Some c1 /\
    last (take (S j) [MARS; Waypoint "SSB" "J2000"]) = Some c2 /\
    Path.path_id c1 = Path.path_id c2 /\
    (forall m c, (m < i)%nat ->
                 [MOON; EARTH; Waypoint "SSB" "J2000"] !! m = Some c ->
                 Path.path_id c ∉ Path.path_id <$> [MARS; Waypoint "SSB" "J2000"]) /\
    (forall m c, (m < j)%nat ->
                 [MARS; Waypoint "SSB" "J2000"] !! m = Some c ->
                 Path.path_id c <> Path.path_id c1).
Proof.
  apply (common_ancestry_first_common _ _ _ _ (Waypoint "SSB" "J2000")).
  - reflexivity.
  - reflexivity.
  - apply elem_of_cons. right. apply elem_of_cons. right.
    apply elem_of_cons. by left.
  - apply elem_of_cons. right. apply elem_of_cons. by left.
Defined.

Section ConnectorFacts.
Context {frames : FrameRegistry}.

Lemma consistent_keys_registered (reg : registry) (a b : string) :
  consistent reg ->
  reg !! Key1 a = None \/ reg !! Key1 b = None ->
  reg !! Key2 a b = None /\ forall f, reg !! Key3 a b f = None.
Proof.
  intros Hc Hnone.
  assert (Hno : forall p, ~ represents reg p a b).
  { intros p Hp. destruct (represents_registered _ _ _ _ Hp) as [[x Hx] [y Hy]].
    destruct Hnone; congruence. }
  split.
  - destruct (reg !! Key2 a b) as [p|] eqn:Hp; [|done].
    destruct (Hno p). by apply (cons_pair _ Hc).
  - intros f. destruct (reg !! Key3 a b f) as [p|] eqn:Hp; [|done].
    destruct (Hno p). by apply (cons_triple _ Hc a b f).
Qed.

(** X6: in a consistent registry [connect] raises KeyError and leaves the
    registry as it was when the target or the origin is not registered. *)
Theorem connect_unregistered (fuel : nat) (reg : registry) (T' O' : string)
    (frame : option string) :
  consistent reg ->
  reg !! Key1 T' = None \/ reg !! Key1 O' = None ->
  connect fuel T' O' frame reg = (inl KeyError, reg).
Proof.
  intros Hc Hnone.
  destruct (consistent_keys_registered reg T' O' Hc Hnone) as [Hpair Htriple].
  unfold connect.
  destruct (reg !! Key1 O') as [pO|] eqn:HO.
  - (* the target is not registered *)
    assert (HT : reg !! Key1 T' = None) by (by destruct Hnone).
    assert (HF : exists F, match frame with
               | Some f => mret f
               | None => origin <~ lookup_key (Key1 O') ;;
                         mret (Path.frame_id origin)
               end reg = (inr F, reg)).
    { destruct frame as [f|]; [by exists f|].
      exists (Path.frame_id pO). unfold mbind, lookup_key. by rewrite HO. }
    destruct HF as [F HF]. unfold mbind at 1. rewrite HF.
    unfold try_KeyError, try_except, lookup_key at 1. rewrite Htriple.
    rewrite bool_decide_eq_true_2 by done.
    unfold mbind at 1, lookup_key at 1. rewrite Hpair.
    rewrite bool_decide_eq_true_2 by done.
    unfold mbind, lookup_key. by rewrite HT.
  - (* the origin is not registered *)
    destruct frame as [F|].
    + unfold mbind at 1, mret at 1.
      unfold try_KeyError, try_except, lookup_key at 1. rewrite Htriple.
      rewrite bool_decide_eq_true_2 by done.
      unfold mbind at 1, lookup_key at 1. rewrite Hpair.
      rewrite bool_decide_eq_true_2 by done.
      unfold mbind at 1, lookup_key at 1.
      destruct (reg !! Key1 T') as [pT|] eqn:HT; [|done].
      destruct (cons_primary _ Hc _ _ HT) as [HidT _].
      unfold connect_to, connect_to_with. rewrite HidT.
      unfold mbind, lookup_key. by rewrite HT, HO.
    + unfold mbind, lookup_key. by rewrite HO.
Qed.

(** X7: [register] of a path whose ID is registered already, with a
    registered origin, puts nothing in the place of an entry: every entry of
    the registry stays, the primary definition included, and the keys
    [(path_id, origin_id)] and [(path_id, origin_id, frame_id)] are the only
    ones that can be new. *)
Theorem register_keeps_entries (fuel : nat) (self : Path.t) (reg : registry) :
  is_Some (reg !! Key1 (Path.origin_id self)) ->
  is_Some (reg !! Key1 (Path.path_id self)) ->
  exists reg',
    register (S fuel) self None reg = (inr tt, reg') /\
    (forall k p, reg !! k = Some p -> reg' !! k = Some p) /\
    is_Some (reg' !! Key2 (Path.path_id self) (Path.origin_id self)) /\
    is_Some (reg' !! Key3 (Path.path_id self) (Path.origin_id self)
                          (Path.frame_id self)) /\
    (forall k, k <> Key2 (Path.path_id self) (Path.origin_id self) ->
               k <> Key3 (Path.path_id self) (Path.origin_id self)
                         (Path.frame_id self) ->
               reg' !! k = reg !! k).
Proof.
  intros HO Hself. exists (with_secondary self reg).
  split; [by apply register_secondary|].
  unfold with_secondary, store_if_absent.
  destruct (reg !! Key2 _ _) as [p2|] eqn:H2; cbn [snd].
  - destruct (reg !! Key3 _ _ _) as [p3|] eqn:H3; cbn [snd].
    + repeat split; try done; by eexists.
    + split.
      { intros k p Hk. rewrite lookup_insert_ne; [done|]. intros <-. congruence. }
      split; [rewrite lookup_insert_ne by done; by eexists|].
      split; [rewrite lookup_insert_eq; by eexists|].
      intros k _ Hk3. by rewrite lookup_insert_ne.
  - rewrite lookup_insert_ne by done.
    destruct (reg !! Key3 _ _ _) as [p3|] eqn:H3; cbn [snd].
    + split.
      { intros k p Hk. rewrite lookup_insert_ne; [done|]. intros <-. congruence. }
      split; [rewrite lookup_insert_eq; by eexists|].
      split; [rewrite lookup_insert_ne by done; by eexists|].
      intros k Hk2 _. by rewrite lookup_insert_ne.
    + split.
      { intros k p Hk. rewrite !lookup_insert_ne; [done| |];
          intros <-; congruence. }
      split; [rewrite lookup_insert_ne by done; rewrite lookup_insert_eq; by eexists|].
      split; [rewrite lookup_insert_eq; by eexists|].
      intros k Hk2 Hk3. by rewrite !lookup_insert_ne.
Qed.

End ConnectorFacts.

Lemma connect_unregistered_witness :
  connect (frames := identity_frames) 1 "PLUTO" "MOON" (Some "J2000")
          solar_registry
  = (inl KeyError, solar_registry).
Proof.
  apply (connect_unregistered (frames := identity_frames) 1 solar_registry
           "PLUTO" "MOON" (Some "J2000")).
  - apply solar_registry_consistent.
  - left. reflexivity.
Defined.

Lemma register_keeps_entries_witness :
  exists reg',
    register (frames := identity_frames) 1
             (FixedPath (V3 5 5 5) "EARTH" "B1950" "MARS") None solar_registry
    = (inr tt, reg') /\
    (forall k p, solar_registry !! k = Some p -> reg' !! k = Some p) /\
    is_Some (reg' !! Key2 "MARS" "EARTH") /\
    is_Some (reg' !! Key3 "MARS" "EARTH" "B1950") /\
    (forall k, k <> Key2 "MARS" "EARTH" -> k <> Key3 "MARS" "EARTH" "B1950" ->
               reg' !! k = solar_registry !! k).
Proof.
  apply (register_keeps_entries (frames := identity_frames) 0
           (FixedPath (V3 5 5 5) "EARTH" "B1950" "MARS") solar_registry).
  - by eexists.
  - by eexists.
Defined.


Section ConnectedPaths.
Context {frames : FrameRegistry} {laws : FrameLaws}.

(** X8: in a consistent registry [connect] returns, for a registered target
    and origin, a path with the ID of the target, the origin asked for and
    the frame asked for (the frame of the origin when none is given); at
    every time its event is, taken to J2000, the offset of the target from
    SSB less that of the origin.  The primary definitions of the registry
    stay as they were and the registry stays consistent. *)
Theorem connect_returns_the_offset (fuel : nat) (reg : registry)
    (T' O' : string) (pT pO : Path.t) (aT aO : list Path.t)
    (frame : option string) :
  consistent reg ->
  reg !! Key1 T' = Some pT -> reg !! Key1 O' = Some pO ->
  Path.ancestry pT = Some aT -> Path.ancestry pO = Some aO ->
  exists p reg',
    connect (S fuel) T' O' frame reg = (inr p, reg') /\
    Path.path_id p = T' /\ Path.origin_id p = O' /\
    Path.frame_id p = default (Path.frame_id pO) frame /\
    (forall id, reg' !! Key1 id = reg !! Key1 id) /\
    consistent reg' /\
    forall t, exists e,
      Path.event_at_time p t = inr e /\
      Event.time e = t /\
      Event.frame_id e = Path.frame_id p /\
      T "J2000" (Path.frame_id p) t (Event.pos e, Event.vel e)
      = pvsub (chain_offset aT t) (chain_offset aO t).
Proof.
  intros Hc HT HO HaT HaO.
  destruct (connect_spec fuel reg T' O' pT pO frame Hc HT HO)
    as (p & reg' & Hrun & Hf & Hrep & Hc' & Hsp).
  exists p, reg'. split; [done|].
  destruct Hrep as (Hid & Ho & anca & ancb & Hanca & Hancb & Hd).
  repeat (split; [done|]).
  rewrite (same_primaries_anc_of _ _ _ Hsp) in Hanca.
  rewrite (same_primaries_anc_of _ _ _ Hsp) in Hancb.
  rewrite (anc_of_primary _ _ _ _ HT HaT) in Hanca.
  rewrite (anc_of_primary _ _ _ _ HO HaO) in Hancb.
  injection Hanca as <-. injection Hancb as <-.
  intros t. destruct (Hd t) as (e & He & Ht & Hef & _ & Hoff).
  exists e. by repeat split.
Qed.



(** X11: the primary registration of a well-labelled path whose origin is
    registered and whose ID is not returns; afterwards the ID names the
    path with the ancestry of the path followed by that of its origin, the
    other primary definitions are as before, and a consistent registry
    stays consistent. *)
Theorem register_primary_definition (fuel : nat) (reg : registry)
    (self pO : Path.t) (aO : list Path.t) :
  consistent reg -> well_labelled self ->
  reg !! Key1 (Path.origin_id self) = Some pO ->
  Path.ancestry pO = Some aO ->
  reg !! Key1 (Path.path_id self) = None ->
  exists reg',
    register (S (S fuel)) self None reg = (inr tt, reg') /\
    reg' !! Key1 (Path.path_id self)
    = Some (Path.set_ancestry (self :: aO) self) /\
    (forall id, id <> Path.path_id self -> reg' !! Key1 id = reg !! Key1 id) /\
    consistent reg'.
Proof.
  intros Hc Hwl HO HaO Hfresh.
  destruct (register_primary_run fuel reg self pO aO Hc Hwl HO HaO Hfresh)
    as (reg' & Hrun & Hc' & Hext & Hself & Honly).
  by exists reg'.
Qed.

End ConnectedPaths.

Lemma solar_registry_primaries :
  solar_registry !! Key1 "EARTH"
  = Some (Path.set_ancestry [EARTH; Waypoint "SSB" "J2000"] EARTH) /\
  solar_registry !! Key1 "MOON"
  = Some (Path.set_ancestry [MOON; EARTH; Waypoint "SSB" "J2000"] MOON) /\
  solar_registry !! Key1 "MARS"
  = Some (Path.set_ancestry [MARS; Waypoint "SSB" "J2000"] MARS).
Proof. repeat split; reflexivity. Qed.

Lemma connect_returns_the_offset_witness :
  exists p reg',
    connect (frames := identity_frames) 1 "MOON" "MARS" None solar_registry
    = (inr p, reg') /\
    Path.path_id p = "MOON" /\ Path.origin_id p = "MARS" /\
    Path.frame_id p
    = default (Path.frame_id
                 (Path.set_ancestry [MARS; Waypoint "SSB" "J2000"] MARS)) None /\
    (forall id, reg' !! Key1 id = solar_registry !! Key1 id) /\
    consistent (frames := identity_frames) reg' /\
    forall t, exists e,
      Path.event_at_time p t = inr e /\
      Event.time e = t /\
      Event.frame_id e = Path.frame_id p /\
      T (frames := identity_frames) "J2000" (Path.frame_id p) t
        (Event.pos e, Event.vel e)
      = pvsub (chain_offset (frames := identity_frames)
                 [MOON; EARTH; Waypoint "SSB" "J2000"] t)
              (chain_offset (frames := identity_frames)
                 [MARS; Waypoint "SSB" "J2000"] t).
Proof.
  apply (connect_returns_the_offset (frames := identity_frames)
           (laws := identity_frames_laws) 0 solar_registry "MOON" "MARS"
           (Path.set_ancestry [MOON; EARTH; Waypoint "SSB" "J2000"] MOON)
           (Path.set_ancestry [MARS; Waypoint "SSB" "J2000"] MARS)).
  - apply solar_registry_consistent.
  - apply solar_registry_primaries.
  - apply solar_registry_primaries.
  - reflexivity.
  - reflexivity.
Defined.



Lemma register_primary_definition_witness :
  exists reg',
    register (frames := identity_frames) 2
             (FixedPath (V3 0 0 7) "MARS" "J2000" "PHOBOS") None solar_registry
    = (inr tt, reg') /\
    reg' !! Key1 "PHOBOS"
    = Some (Path.set_ancestry
              [FixedPath (V3 0 0 7) "MARS" "J2000" "PHOBOS";
               MARS; Waypoint "SSB" "J2000"]
              (FixedPath (V3 0 0 7) "MARS" "J2000" "PHOBOS")) /\
    (forall id, id <> "PHOBOS" -> reg' !! Key1 id = solar_registry !! Key1 id) /\
    consistent (frames := identity_frames) reg'.
Proof.
  apply (register_primary_definition (frames := identity_frames)
           (laws := identity_frames_laws) 0 solar_registry
           (FixedPath (V3 0 0 7) "MARS" "J2000" "PHOBOS")
           (Path.set_ancestry [MARS; Waypoint "SSB" "J2000"] MARS)
           [MARS; Waypoint "SSB" "J2000"]).
  - apply solar_registry_consistent.
  - apply FixedPath_well_labelled.
  - apply solar_registry_primaries.
  - reflexivity.
  - reflexivity.
Defined.

Lemma Linked_adds_the_chain_witness :
  exists x final,
    last [MOON; EARTH] = Some final /\
    Linked (frames := identity_frames) [MOON; EARTH] = inr x /\
    Path.path_id x = Path.path_id MOON /\
    Path.origin_id x = Path.origin_id final /\
    Path.frame_id x = Path.frame_id final /\
    forall t, exists e,
      Path.event_at_time x t = inr e /\
      Event.time e = t /\
      Event.origin_id e = Path.origin_id final /\
      Event.frame_id e = Path.frame_id final /\
      T (frames := identity_frames) "J2000" (Path.frame_id final) t
        (Event.pos e, Event.vel e)
      = chain_offset (frames := identity_frames) [MOON; EARTH] t.
Proof.
  apply (Linked_adds_the_chain (frames := identity_frames)
           (laws := identity_frames_laws) MOON [EARTH]).
  - repeat constructor; apply FixedPath_well_labelled.
  - intros [|[|i]] p q Hp Hq; cbn in Hp, Hq; try discriminate.
    injection Hp as <-. injection Hq as <-. reflexivity.
Defined.

Lemma Relative_subtracts_witness :
  exists r,
    Relative (frames := identity_frames) EARTH MARS = inr r /\
    Path.path_id r = Path.path_id EARTH /\
    Path.origin_id r = Path.path_id MARS /\
    Path.frame_id r = Path.frame_id MARS /\
    forall t, exists e ex ey,
      Path.event_at_time r t = inr e /\
      Path.event_at_time EARTH t = inr ex /\
      Path.event_at_time MARS t = inr ey /\
      Event.time e = t /\
      Event.origin_id e = Path.path_id MARS /\
      Event.frame_id e = Path.frame_id MARS /\
      (Event.pos e, Event.vel e)
      = pvsub (T (frames := identity_frames) (Path.frame_id MARS)
                 (Path.frame_id EARTH) t (Event.pos ex, Event.vel ex))
              (Event.pos ey, Event.vel ey).
Proof.
  apply (Relative_subtracts (frames := identity_frames)
           (laws := identity_frames_laws) EARTH MARS).
  - apply FixedPath_well_labelled.
  - apply FixedPath_well_labelled.
  - reflexivity.
Defined.

Lemma Reversed_twice_witness :
  Path.path_id (Reversed (Reversed EARTH)) = Path.path_id EARTH /\
  Path.origin_id (Reversed (Reversed EARTH)) = Path.origin_id EARTH /\
  Path.frame_id (Reversed (Reversed EARTH)) = Path.frame_id EARTH /\
  exists e',
    Path.event_at_time (Reversed (Reversed EARTH)) 0%R = inr e' /\
    Event.time e' = Event.time (Event.new 0 (V3 1 0 0) ZERO "SSB" "J2000") /\
    Event.pos e' = Event.pos (Event.new 0 (V3 1 0 0) ZERO "SSB" "J2000") /\
    Event.vel e' = Event.vel (Event.new 0 (V3 1 0 0) ZERO "SSB" "J2000") /\
    Event.origin_id e'
    = Event.origin_id (Event.new 0 (V3 1 0 0) ZERO "SSB" "J2000") /\
    Event.frame_id e'
    = Event.frame_id (Event.new 0 (V3 1 0 0) ZERO "SSB" "J2000").
Proof.
  apply (Reversed_twice EARTH 0%R (Event.new 0 (V3 1 0 0) ZERO "SSB" "J2000")).
  reflexivity.
Defined.


(** ** Unregistering *)

Lemma unregister_frame_loop (frame_id : string) (ks : list key) :
  forall reg : registry,
    NoDup ks -> (forall k, k ∈ ks -> is_Some (reg !! k)) ->
    exists reg',
      (fix loop (ks : list key) : M registry unit :=
         match ks with
         | [] => mret tt
         | k :: ks =>
             _ <~ match k with
                  | Key3 _ _ c =>
                      if bool_decide (frame_id = c) then del_key k else mret tt
                  | _ => mret tt
                  end ;;
             loop ks
         end) ks reg = (inr tt, reg') /\
      (forall a b, Key3 a b frame_id ∈ ks -> reg' !! Key3 a b frame_id = None) /\
      (forall k, k ∉ ks \/ (forall a b, k <> Key3 a b frame_id) ->
                 reg' !! k = reg !! k).
Proof.
  induction ks as [|k0 ks IH]; intros reg Hnd Hin.
  - exists reg. split; [done|]. split; [|done].
    intros a b Hab. by apply elem_of_nil in Hab.
  - apply NoDup_cons in Hnd as [Hk0 Hnd].
    assert (Hdel : forall a b, k0 = Key3 a b frame_id ->
              del_key k0 reg = (inr tt, delete k0 reg)).
    { intros a b ->. unfold del_key.
      destruct (Hin (Key3 a b frame_id)) as [p ->]; [apply elem_of_cons; by left|done]. }
    assert (Hstep : exists reg1,
      match k0 with
      | Key3 _ _ c => if bool_decide (frame_id = c) then del_key k0 else mret tt
      | _ => mret tt
      end reg = (inr tt, reg1) /\
      (forall k, k <> k0 -> reg1 !! k = reg !! k) /\
      (forall a b, k0 = Key3 a b frame_id -> reg1 !! k0 = None) /\
      ((forall a b, k0 <> Key3 a b frame_id) -> reg1 = reg)).
    { destruct k0 as [a|a b|a b c]; try (exists reg; repeat split; done).
      case_bool_decide as Hc.
      - subst c. exists (delete (Key3 a b frame_id) reg).
        split; [by apply (Hdel a b)|].
        split; [intros k Hk; by rewrite lookup_delete_ne|].
        split; [intros; by rewrite lookup_delete_eq|].
        intros Hne. by destruct (Hne a b).
      - exists reg. repeat split; try done.
        intros a' b' [= -> -> ->]. done. }
    destruct Hstep as (reg1 & Hrun1 & Hother & Hgone & Hsame).
    destruct (IH reg1 Hnd) as (reg' & Hrun & Hnone & Hkeep).
    { intros k Hk. rewrite Hother; [apply Hin, elem_of_cons; by right|].
      intros ->. done. }
    exists reg'. split.
    { unfold mbind at 1. rewrite Hrun1. exact Hrun. }
    split.
    + intros a b Hab. apply elem_of_cons in Hab as [Heq|Hab].
      * rewrite Hkeep by (left; by rewrite Heq). rewrite Heq.
        by apply (Hgone a b).
      * by apply Hnone.
    + intros k Hk.
      assert (Hk' : k ∉ ks \/ (forall a b, k <> Key3 a b frame_id)).
      { destruct Hk as [Hk|Hk]; [left|by right].
        intros Hin'. apply Hk, elem_of_cons. by right. }
      rewrite (Hkeep k Hk').
      destruct (decide (k = k0)) as [->|Hne]; [|by apply Hother].
      destruct Hk as [Hk|Hk].
      * destruct Hk. apply elem_of_cons. by left.
      * by rewrite (Hsame Hk).
Qed.

(** X12: [unregister_frame] never raises; it removes every triple entry
    that names the frame and leaves every other entry as it was. *)
Theorem unregister_frame_removes_triples (frame_id : string) (reg : registry) :
  exists reg',
    unregister_frame frame_id reg = (inr tt, reg') /\
    (forall a b, reg' !! Key3 a b frame_id = None) /\
    (forall k, (forall a b, k <> Key3 a b frame_id) -> reg' !! k = reg !! k).
Proof.
  destruct (unregister_frame_loop frame_id (keys reg) reg)
    as (reg' & Hrun & Hnone & Hkeep).
  { apply NoDup_fst_map_to_list. }
  { intros k Hk. unfold keys in Hk.
    apply list_elem_of_fmap in Hk as ([k' p] & -> & Hp).
    apply elem_of_map_to_list in Hp. by exists p. }
  exists reg'. split; [exact Hrun|]. split.
  - intros a b. destruct (reg !! Key3 a b frame_id) as [p|] eqn:Hp.
    + apply Hnone. unfold keys. apply list_elem_of_fmap.
      exists (Key3 a b frame_id, p). split; [done|].
      by apply elem_of_map_to_list.
    + rewrite Hkeep; [done|]. left. unfold keys. intros Hin.
      apply list_elem_of_fmap in Hin as ([k' p] & Hk' & Hp').
      apply elem_of_map_to_list in Hp'. cbn in Hk'. subst k'. congruence.
  - intros k Hk. apply Hkeep. by right.
Qed.

(** X13: [reregister] of a path whose waypoint entry
    [(path_id, path_id)] is in the registry, as it is after the path's
    primary registration, raises KeyError in [unregister] and never
    reaches [register]: the registry is left as the failed [unregister]
    leaves it. *)
Theorem reregister_raises {frames : FrameRegistry} (fuel : nat)
    (self : Path.t) (reg : registry) :
  is_Some (reg !! Key2 (Path.path_id self) (Path.path_id self)) ->
  reregister fuel self reg = (inl KeyError, (unregister self reg).2).
Proof.
  intros Hway. pose proof (unregister_raises self reg Hway) as Hun.
  unfold reregister, mbind.
  destruct (unregister self reg) as [[e|[]] reg']; cbn in Hun |- *;
    [|discriminate].
  by injection Hun as ->.
Qed.

Lemma reregister_raises_witness :
  reregister (frames := identity_frames) 2 MOON solar_registry
  = (inl KeyError, (unregister MOON solar_registry).2).
Proof.
  apply (reregister_raises (frames := identity_frames) 2 MOON solar_registry).
  by eexists.
Defined.

(** ** A chain that does not link *)

(** X14: the constructor of Linked does not check that each path is the
    origin of the one before; when it is not, the Linked path is built and
    every evaluation of it raises AssertionError. *)
Theorem Linked_checks_the_chain_late {frames : FrameRegistry}
    {laws : FrameLaws} (p q : Path.t) :
  well_labelled p ->
  Path.origin_id p <> Path.path_id q ->
  exists x,
    Linked [p; q] = inr x /\
    forall t, Path.event_at_time x t = inl AssertionError.
Proof.
  intros Hp Hne.
  destruct (fc_total (Path.frame_id p) (Path.frame_id q)) as [fr Hfr].
  destruct (fc_ids _ _ _ Hfr) as [Hfid Hrid].
  unfold Linked. cbn [link_frames]. rewrite Hfr. cbn.
  eexists. split; [reflexivity|]. intros t. cbn [Path.event_at_time].
  destruct (Hp t) as (e & He & Ht & Ho & Hf). rewrite He. cbn.
  unfold unrotate_by_frame. rewrite bool_decide_eq_true_2 by congruence.
  cbn. unfold add_to_event. cbn.
  rewrite bool_decide_eq_false_2 by congruence. done.
Qed.

Lemma Linked_checks_the_chain_late_witness :
  exists x,
    Linked (frames := identity_frames) [MOON; MARS] = inr x /\
    forall t, Path.event_at_time x t = inl AssertionError.
Proof.
  apply (Linked_checks_the_chain_late (frames := identity_frames)
           (laws := identity_frames_laws) MOON MARS).
  - apply FixedPath_well_labelled.
  - discriminate.
Defined.

(** ** Further properties of the event operations and of the solver *)








(** ** Further properties of LinearPath *)


(** X18: a LinearPath cannot be restored from its pickled state:
    [__setstate__] hands the stored position to the constructor as a single
    vector, and the constructor raises TypeError in
    [hasattr('d_dt', pos)]. *)
Theorem LinearPath_unpickling_raises (self : LinearPath.t) :
  LinearPath.__setstate__ (LinearPath.__getstate__ self) = inl TypeError.
Proof. reflexivity. Qed.

(** ** Further properties of the backplane *)

Section BackplaneQuantities.
Context {world : Backplane.World}.
Import Backplane.

(** A light time that was returned is in the dictionary. *)
Lemma light_time_stores (k : pykey) (d : string) (k' : list string)
    (b b1 : t) (lt : array) :
  standardize_event_key k = inr k' ->
  light_time k d b = (inr lt, b1) ->
  backplanes b1 !! ("light_time", k', [d]) = Some lt.
Proof.
  intros Hk Hrun. unfold light_time in Hrun.
  apply mbind_inr_inv in Hrun as (l & b2 & Hstd & Hrun).
  apply lift_inr_inv in Hstd as [Hstd ->].
  assert (l = k') as -> by congruence.
  apply mbind_inr_inv in Hrun as ([] & b2 & Hdir & Hrun).
  apply lift_inr_inv in Hdir as [Hdir ->].
  apply mbind_inr_inv in Hrun as (fresh & b2 & Hfresh & Hrun).
  injection Hfresh as <- <-.
  by apply ends_in_item in Hrun.
Qed.

(** X19: the distance that [distance] computes for a key and a direction
    is the light time of [light_time] for them, times the speed of light:
    when it is not in the dictionary yet, [distance] leaves the light time
    in the dictionary under its own key and returns, and stores, what
    [register_backplane] makes of that light time times C. *)
Theorem distance_is_light_time_times_C (k : pykey) (d : string)
    (k' : list string) (b b1 : t) (a : array) :
  standardize_event_key k = inr k' ->
  backplanes b !! ("distance", k', [d]) = None ->
  distance k d b = (inr a, b1) ->
  exists lt,
    backplanes b1 !! ("light_time", k', [d]) = Some lt /\
    a = as_backplane (array_times_C lt) /\
    backplanes b1 !! ("distance", k', [d]) = Some a.
Proof.
  intros Hk Hnone Hrun. unfold distance in Hrun.
  apply mbind_inr_inv in Hrun as (l & b2 & Hstd & Hrun).
  apply lift_inr_inv in Hstd as [Hstd ->].
  assert (l = k') as -> by congruence.
  apply mbind_inr_inv in Hrun as ([] & b2 & Hdir & Hrun).
  apply lift_inr_inv in Hdir as [Hdir ->].
  apply mbind_inr_inv in Hrun as (fresh & b2 & Hfresh & Hrun).
  injection Hfresh as <- <-.
  rewrite bool_decide_eq_true_2 in Hrun by done.
  apply mbind_inr_inv in Hrun as ([] & b3 & Hfill & Hitem).
  apply item_inv in Hitem as [Hitem ->].
  apply mbind_inr_inv in Hfill as (lt & b2 & Hlt & Hreg).
  pose proof (light_time_stores (PyTuple k') d k' b b2 lt eq_refl Hlt) as Hstored.
  unfold register_backplane, modify in Hreg. injection Hreg as <-.
  cbn [backplanes] in Hitem |- *.
  rewrite lookup_insert_eq in Hitem. injection Hitem as <-.
  exists lt. split; [|split; [done|by rewrite lookup_insert_eq]].
  by rewrite lookup_insert_ne.
Qed.

Lemma fill_surface_resolution_stores (k' : list string) (b b1 : t) :
  _fill_surface_resolution k' b = (inr tt, b1) ->
  is_Some (backplanes b1 !! ("finest_resolution", k', [])) /\
  is_Some (backplanes b1 !! ("coarsest_resolution", k', [])).
Proof.
  intros Hrun. unfold _fill_surface_resolution in Hrun.
  apply mbind_inr_inv in Hrun as (ev & b2 & _ & Hrun).
  apply mbind_inr_inv in Hrun as (e & b3 & Hread & Hrun).
  injection Hread as <- <-.
  apply mbind_inr_inv in Hrun as (res & b3 & Hres & Hrun).
  apply lift_inr_inv in Hres as [Hres ->].
  apply mbind_inr_inv in Hrun as ([] & b3 & Hreg & Hrun).
  unfold register_backplane, modify in Hreg, Hrun.
  injection Hreg as <-. injection Hrun as <-. cbn [backplanes].
  split.
  - rewrite lookup_insert_ne by done. rewrite lookup_insert_eq. by eexists.
  - rewrite lookup_insert_eq. by eexists.
Qed.

(** X20: the finest and the coarsest resolution are filled in together:
    once [finest_resolution] has computed its backplane for a key,
    [coarsest_resolution] for that key is answered from the dictionary and
    changes nothing, so that no photon solver is called again. *)
Theorem resolutions_are_filled_together (k : pykey) (k' : list string)
    (b b1 : t) (a : array) :
  standardize_event_key k = inr k' ->
  backplanes b !! ("finest_resolution", k', []) = None ->
  finest_resolution k b = (inr a, b1) ->
  exists a', coarsest_resolution k b1 = (inr a', b1).
Proof.
  intros Hk Hnone Hrun. unfold finest_resolution in Hrun.
  apply mbind_inr_inv in Hrun as (l & b2 & Hstd & Hrun).
  apply lift_inr_inv in Hstd as [Hstd ->].
  assert (l = k') as -> by congruence.
  apply mbind_inr_inv in Hrun as (fresh & b2 & Hfresh & Hrun).
  injection Hfresh as <- <-.
  rewrite bool_decide_eq_true_2 in Hrun by done.
  apply mbind_inr_inv in Hrun as ([] & b3 & Hfill & Hitem).
  apply item_inv in Hitem as [Hitem ->].
  destruct (fill_surface_resolution_stores _ _ _ Hfill) as [_ [a' Ha']].
  exists a'. unfold coarsest_resolution.
  rewrite (mbind_run _ _ _ k' b3) by (unfold lift; by rewrite Hk).
  by apply skips_when_present.
Qed.

End BackplaneQuantities.

Lemma distance_is_light_time_times_C_witness :
  let b0 := Backplane.__init__ (world := two_body_world) [] in
  exists lt,
    Backplane.backplanes
      (Backplane.distance (world := two_body_world)
         (Backplane.PyString "a") "dep" b0).2
    !! ("light_time", ["a"], ["dep"]) = Some lt /\
    1%nat = Backplane.as_backplane (Backplane.array_times_C lt) /\
    Backplane.backplanes
      (Backplane.distance (world := two_body_world)
         (Backplane.PyString "a") "dep" b0).2
    !! ("distance", ["a"], ["dep"]) = Some 1%nat.
Proof.
  apply (distance_is_light_time_times_C (world := two_body_world)
           (Backplane.PyString "a") "dep" ["a"]
           (Backplane.__init__ (world := two_body_world) [])
           _ 1%nat).
  - reflexivity.
  - vm_compute. reflexivity.
  - vm_compute. reflexivity.
Defined.

Lemma resolutions_are_filled_together_witness :
  let b0 := Backplane.__init__ (world := two_body_world) [] in
  let b1 := (Backplane.finest_resolution (world := two_body_world)
               (Backplane.PyTuple ["a"; "b"]) b0).2 in
  exists a', Backplane.coarsest_resolution (world := two_body_world)
               (Backplane.PyTuple ["a"; "b"]) b1 = (inr a', b1).
Proof.
  apply (resolutions_are_filled_together (world := two_body_world)
           (Backplane.PyTuple ["a"; "b"]) ["a"; "b"]
           (Backplane.__init__ (world := two_body_world) []) _ 2%nat).
  - reflexivity.
  - vm_compute. reflexivity.
  - vm_compute. reflexivity.
Defined.

Section CachedConnections.
Context {frames : FrameRegistry} {laws : FrameLaws}.

(** X21: [connect] keeps what it has made: after [connect(T, O, F)] has
    returned a path in a consistent registry, the same call returns the same
    path from the registry, which it leaves as it is; it constructs and
    registers nothing, whatever recursion depth is left. *)
Theorem connect_is_cached (fuel fuel' : nat) (reg : registry)
    (T' O' : string) (frame : option string) :
  consistent reg ->
  is_Some (reg !! Key1 T') -> is_Some (reg !! Key1 O') ->
  exists p reg',
    connect (S fuel) T' O' frame reg = (inr p, reg') /\
    connect fuel' T' O' frame reg' = (inr p, reg').
Proof.
  intros Hc [pT HT] [pO HO].
  destruct (connect_run fuel reg T' O' pT pO frame Hc HT HO)
    as (p & reg' & Hrun & Hf & Hrep & Hc' & Hsp & Hstored & _).
  exists p, reg'. split; [exact Hrun|].
  unfold connect.
  assert (HF : match frame with
               | Some f => mret f
               | None => origin <~ lookup_key (Key1 O') ;;
                         mret (Path.frame_id origin)
               end reg'
               = (inr (default (Path.frame_id pO) frame), reg')).
  { destruct frame as [f|]; [done|].
    unfold mbind, lookup_key. by rewrite Hsp, HO. }
  unfold mbind at 1. rewrite HF.
  unfold try_KeyError, try_except, lookup_key at 1. by rewrite Hstored.
Qed.

End CachedConnections.

Lemma connect_is_cached_witness :
  exists p reg',
    connect (frames := identity_frames) 1 "MOON" "MARS" (Some "B1950")
            solar_registry = (inr p, reg') /\
    connect (frames := identity_frames) 0 "MOON" "MARS" (Some "B1950") reg'
    = (inr p, reg').
Proof.
  apply (connect_is_cached (frames := identity_frames)
           (laws := identity_frames_laws) 0 0 solar_registry
           "MOON" "MARS" (Some "B1950")).
  - apply solar_registry_consistent.
  - apply solar_registry_consistent.
  - apply solar_registry_consistent.
Defined.

Section SolvesOncePerChain.
Context {world : Backplane.World}.
Import Backplane.

(** X22: where no surface implements the derivatives of the intercept and
    every photon solve succeeds, [get_surface_event] for a key without the
    Sun returns, and calls the photon solver once for each tail of the key
    that is not in the dictionary yet, up to the first tail that is, from
    the observer outwards, and for nothing else; afterwards the key is in
    the dictionary. *)
Theorem get_surface_event_solves_each_chain_once (k : list string) :
  forall b : t,
    (forall body, exists s, get_surface body = inr s /\
                            intercept_DERIVS_ARE_IMPLEMENTED s = false) ->
    (forall s d e, exists r, surface_photon_to_event s d e = inr r) ->
    Forall (fun body => upper body <> "SUN") k ->
    is_Some (surface_events b !! EChain []) ->
    exists e b1,
      get_surface_event k b = (inr e, b1) /\
      calls b1 = calls b ++ ((fun c => SurfaceSolve c false) <$> unsolved b k) /\
      surface_events b1 !! EChain k = Some e.
Proof.
  induction k as [|body rest IH]; intros b Hsurf Hsolve Hsun Hobs.
  - destruct Hobs as [e He]. exists e, b.
    split; [by apply try_item_hit|]. split; [|done].
    cbn. by rewrite app_nil_r.
  - cbn [get_surface_event unsolved].
    destruct (surface_events b !! EChain (body :: rest)) as [e|] eqn:Hk.
    + exists e, b. split; [by apply try_item_hit|].
      rewrite decide_True by (by eexists). cbn. by rewrite app_nil_r.
    + rewrite try_item_miss by done.
      rewrite decide_False by (by intros [? ?]).
      apply Forall_cons in Hsun as [Hbody Hrest].
      rewrite (bool_decide_eq_false_2 _ Hbody). cbn [andb].
      destruct (IH b Hsurf Hsolve Hrest Hobs) as (d & b2 & Hrun & Hcalls & Hd).
      destruct (Hsurf body) as (s & Hs & Hderivs).
      rewrite (mbind_run _ _ _ d b2 Hrun).
      unfold mbind at 1, lift at 1. rewrite Hs, Hderivs.
      rewrite andb_false_r.
      destruct (Hsolve s false (objs b2 !!! d)) as [r Hr].
      unfold solve_surface, mbind, count_call, read_event, write_event,
        modify, new_event, set_surface_event, lift, mret. cbn.
      rewrite Hr. cbn.
      eexists _, _. split; [reflexivity|]. cbn. split.
      * by rewrite Hcalls, fmap_app, app_assoc.
      * by rewrite lookup_insert_eq.
Qed.

End SolvesOncePerChain.

Lemma get_surface_event_solves_each_chain_once_witness :
  let b0 := Backplane.__init__ (world := two_body_world) [] in
  exists e b1,
    Backplane.get_surface_event (world := two_body_world) ["a"; "b"] b0
    = (inr e, b1) /\
    Backplane.calls b1
    = Backplane.calls b0
      ++ ((fun c => Backplane.SurfaceSolve c false)
            <$> unsolved (world := two_body_world) b0 ["a"; "b"]) /\
    Backplane.surface_events b1 !! Backplane.EChain ["a"; "b"] = Some e.
Proof.
  apply (get_surface_event_solves_each_chain_once (world := two_body_world)
           ["a"; "b"] (Backplane.__init__ (world := two_body_world) [])).
  - intros body. exists body. by split.
  - intros s d e. by eexists.
  - repeat constructor; vm_compute; discriminate.
  - by eexists.
Defined.

(** One pass of the loop of [unregister] on a key that is in the registry
    and does not name the path twice. *)
Lemma unregister_key_once (path_id : string) (k : key) (reg : registry) :
  is_Some (reg !! k) ->
  k <> Key2 path_id path_id -> (forall f, k <> Key3 path_id path_id f) ->
  unregister_key path_id k reg
  = (inr tt, if names path_id k then delete k reg else reg).
Proof.
  intros [p Hp] H2 H3.
  assert (Hdel : del_key k reg = (inr tt, delete k reg))
    by (unfold del_key; by rewrite Hp).
  destruct k as [a|a b|a b c]; unfold unregister_key, names.
  - by case_bool_decide.
  - case_bool_decide as Ha; case_bool_decide as Hb; cbn [orb].
    + subst. done.
    + unfold mbind. by rewrite Hdel.
    + unfold mbind, mret. exact Hdel.
    + done.
  - case_bool_decide as Ha; case_bool_decide as Hb; cbn [orb].
    + subst. by destruct (H3 c).
    + unfold mbind. by rewrite Hdel.
    + unfold mbind, mret. exact Hdel.
    + done.
Qed.

Lemma unregister_keys_run (path_id : string) (ks : list key) :
  forall reg : registry,
    NoDup ks -> (forall k, k ∈ ks -> is_Some (reg !! k)) ->
    Key2 path_id path_id ∉ ks ->
    (forall f, Key3 path_id path_id f ∉ ks) ->
    exists reg',
      unregister_keys path_id ks reg = (inr tt, reg') /\
      forall k, reg' !! k
                = if bool_decide (k ∈ ks) && names path_id k
                  then None else reg !! k.
Proof.
  induction ks as [|k0 ks IH]; intros reg Hnd Hin H2 H3.
  - exists reg. split; [done|]. intros k.
    rewrite bool_decide_eq_false_2 by apply not_elem_of_nil. done.
  - apply NoDup_cons in Hnd as [Hk0 Hnd].
    cbn [unregister_keys]. unfold mbind at 1.
    rewrite unregister_key_once.
    + set (reg1 := if names path_id k0 then delete k0 reg else reg).
      assert (Hother : forall k, k <> k0 -> reg1 !! k = reg !! k).
      { intros k Hk. unfold reg1. destruct (names path_id k0); [|done].
        by rewrite lookup_delete_ne. }
      destruct (IH reg1 Hnd) as (reg' & Hrun & Hlook).
      { intros k Hk. rewrite Hother; [apply Hin, elem_of_cons; by right|].
        intros ->. done. }
      { intros Hin'. apply H2, elem_of_cons. by right. }
      { intros f Hin'. apply (H3 f), elem_of_cons. by right. }
      exists reg'. split; [exact Hrun|]. intros k. rewrite Hlook.
      destruct (decide (k = k0)) as [->|Hne].
      * rewrite (bool_decide_eq_false_2 _ Hk0).
        rewrite bool_decide_eq_true_2 by (apply elem_of_cons; by left).
        cbn [andb]. unfold reg1. destruct (names path_id k0); [|done].
        by rewrite lookup_delete_eq.
      * rewrite (Hother k Hne).
        assert (Hiff : bool_decide (k ∈ k0 :: ks) = bool_decide (k ∈ ks)).
        { apply bool_decide_ext. rewrite elem_of_cons.
          split; [by intros [?|?]|by right]. }
        by rewrite Hiff.
    + apply Hin, elem_of_cons. by left.
    + intros ->. apply H2, elem_of_cons. by left.
    + intros f ->. apply (H3 f), elem_of_cons. by left.
Qed.

(** X23: when the registry holds no pair or triple that names the path
    twice, [unregister] returns, and it has removed exactly the entries
    whose key is the path's ID or names it as the first or second
    component. *)
Theorem unregister_removes_the_keys_of_the_path (self : Path.t)
    (reg : registry) :
  reg !! Key2 (Path.path_id self) (Path.path_id self) = None ->
  (forall f, reg !! Key3 (Path.path_id self) (Path.path_id self) f = None) ->
  exists reg',
    unregister self reg = (inr tt, reg') /\
    forall k, reg' !! k
              = if names (Path.path_id self) k then None else reg !! k.
Proof.
  intros H2 H3.
  assert (Hkeys : forall k, k ∈ keys reg <-> is_Some (reg !! k)).
  { intros k. unfold keys. split.
    - intros Hk. apply list_elem_of_fmap in Hk as ([k' p] & -> & Hp).
      apply elem_of_map_to_list in Hp. by exists p.
    - intros [p Hp]. apply list_elem_of_fmap. exists (k, p).
      split; [done|]. by apply elem_of_map_to_list. }
  destruct (unregister_keys_run (Path.path_id self) (keys reg) reg)
    as (reg' & Hrun & Hlook).
  { apply NoDup_fst_map_to_list. }
  { intros k Hk. by apply Hkeys. }
  { intros Hin. apply Hkeys in Hin as [p Hp]. congruence. }
  { intros f Hin. apply Hkeys in Hin as [p Hp]. rewrite H3 in Hp. done. }
  exists reg'. split; [exact Hrun|]. intros k. rewrite Hlook.
  destruct (names (Path.path_id self) k) eqn:Hn.
  - case_bool_decide as Hk; [done|]. cbn.
    destruct (reg !! k) as [p|] eqn:Hp; [|done].
    destruct Hk. apply Hkeys. by exists p.
  - by rewrite andb_false_r.
Qed.

Lemma unregister_removes_the_keys_of_the_path_witness :
  exists reg',
    unregister (FixedPath ZERO "SSB" "J2000" "LUNA") luna_registry
    = (inr tt, reg') /\
    forall k, reg' !! k
              = if names "LUNA" k then None else luna_registry !! k.
Proof.
  assert (Hluna : luna_registry
                  = <[Key3 "MOON" "EARTH" "J2000" := MOON]>
                      (<[Key1 "LUNA" := MOON]> solar_registry))
    by reflexivity.
  apply (unregister_removes_the_keys_of_the_path
           (FixedPath ZERO "SSB" "J2000" "LUNA") luna_registry).
  - reflexivity.
  - intros f. rewrite Hluna. rewrite !lookup_insert_ne by done.
    apply (consistent_keys_registered (frames := identity_frames)
             solar_registry "LUNA" "LUNA").
    + apply solar_registry_consistent.
    + left. reflexivity.
Defined.

Section BareNames.
Context {world : Backplane.World}.
Import Backplane.

(** X24: when [get_surface_event_w_derivs] solves a chain of one body, it
    also files the new event, and its copy without derivatives, under the
    bare name of the body: the name and the one-tuple lead to the same
    objects in both dictionaries.  For a longer chain the bare names are
    left alone. *)
Theorem one_body_events_go_by_the_bare_name (k : list string) (b b1 : t)
    (e : loc) :
  surface_events_w_derivs b !! EChain k = None ->
  get_surface_event_w_derivs k b = (inr e, b1) ->
  surface_events_w_derivs b1 !! EChain k = Some e /\
  is_Some (surface_events b1 !! EChain k) /\
  match k with
  | [body] =>
      surface_events_w_derivs b1 !! EName body = Some e /\
      surface_events b1 !! EName body = surface_events b1 !! EChain k
  | _ =>
      forall body b2 d,
        get_surface_event (tail k) b = (inr d, b2) ->
        surface_events_w_derivs b1 !! EName body
        = surface_events_w_derivs b2 !! EName body /\
        surface_events b1 !! EName body = surface_events b2 !! EName body
  end.
Proof.
  intros Hnone Hrun.
  unfold get_surface_event_w_derivs, get_surface_event_w_derivs_from in Hrun.
  rewrite try_item_miss in Hrun by done.
  apply mbind_inr_inv in Hrun as (d & b2 & Hdest & Hrun).
  destruct k as [|body rest]; [discriminate|].
  apply mbind_inr_inv in Hrun as (s & b3 & Hs & Hrun).
  apply lift_inr_inv in Hs as [Hs ->].
  apply mbind_inr_inv in Hrun as (ev & b3 & Hsolve & Hrun).
  apply mbind_inr_inv in Hrun as (r & b4 & Hnew & Hrun).
  injection Hnew as <- <-.
  apply mbind_inr_inv in Hrun as ([] & b4 & Hset & Hrun).
  injection Hset as <-.
  apply mbind_inr_inv in Hrun as (e0 & b4 & Hread & Hrun).
  injection Hread as <- <-.
  apply mbind_inr_inv in Hrun as (r' & b4 & Hnew' & Hrun).
  injection Hnew' as <- <-.
  apply mbind_inr_inv in Hrun as ([] & b4 & Hset' & Hrun).
  injection Hset' as <-.
  apply mbind_inr_inv in Hrun as ([] & b4 & Hname & Hrun).
  injection Hrun as <- <-.
  (* what the solve left of the dictionaries of the destination *)
  assert (Hsolved : surface_events_w_derivs b3 = surface_events_w_derivs b2 /\
                    surface_events b3 = surface_events b2).
  { unfold solve_surface in Hsolve.
    apply mbind_inr_inv in Hsolve as ([] & c1 & Hc1 & Hsolve).
    injection Hc1 as <-.
    apply mbind_inr_inv in Hsolve as (dv & c2 & Hc2 & Hsolve).
    injection Hc2 as <- <-.
    apply mbind_inr_inv in Hsolve as (rr & c3 & Hc3 & Hsolve).
    apply lift_inr_inv in Hc3 as [Hc3 ->].
    apply mbind_inr_inv in Hsolve as ([] & c4 & Hc4 & Hsolve).
    injection Hc4 as <-. injection Hsolve as <- <-. done. }
  destruct Hsolved as [Hw Hp].
  destruct rest as [|body' rest'].
  - (* one body *)
    rewrite bool_decide_eq_true_2 in Hname by done.
    apply mbind_inr_inv in Hname as ([] & b5 & Hn1 & Hn2).
    injection Hn1 as <-. injection Hn2 as <-. cbn.
    rewrite lookup_insert_eq.
    split; [by rewrite lookup_insert_ne, lookup_insert_eq|].
    rewrite (lookup_insert_ne _ (EName body) (EChain [body])) by done.
    rewrite !lookup_insert_eq. split; [by eexists|done].
  - (* a longer chain *)
    rewrite bool_decide_eq_false_2 in Hname by (cbn; lia).
    injection Hname as <-. cbn.
    rewrite !lookup_insert_eq. split; [done|]. split; [by eexists|].
    intros name b2' d' Hdest'.
    assert (Heq : (inr d, b2) = (inr (A := exn) d', b2'))
      by (by rewrite <- Hdest, <- Hdest').
    injection Heq as _ <-.
    rewrite !lookup_insert_ne by done. by rewrite Hw, Hp.
Qed.

End BareNames.

Lemma one_body_events_go_by_the_bare_name_witness :
  let b0 := Backplane.__init__ (world := two_body_world) [] in
  let b1 := (Backplane.get_surface_event_w_derivs (world := two_body_world)
               ["a"] b0).2 in
  Backplane.surface_events_w_derivs b1 !! Backplane.EChain ["a"]
  = Some 2%nat /\
  is_Some (Backplane.surface_events b1 !! Backplane.EChain ["a"]) /\
  Backplane.surface_events_w_derivs b1 !! Backplane.EName "a" = Some 2%nat /\
  Backplane.surface_events b1 !! Backplane.EName "a"
  = Backplane.surface_events b1 !! Backplane.EChain ["a"].
Proof.
  apply (one_body_events_go_by_the_bare_name (world := two_body_world)
           ["a"] (Backplane.__init__ (world := two_body_world) []) _ 2%nat).
  - reflexivity.
  - vm_compute. reflexivity.
Defined.

(** X25: [connect] puts nothing in the place of an entry and removes none:
    every entry of a consistent registry is still there, unchanged, after
    [connect] has returned for a registered target and origin. *)
Theorem connect_replaces_nothing {frames : FrameRegistry} {laws : FrameLaws}
    (fuel : nat) (reg : registry) (T' O' : string) (frame : option string) :
  consistent reg ->
  is_Some (reg !! Key1 T') -> is_Some (reg !! Key1 O') ->
  exists p reg',
    connect (S fuel) T' O' frame reg = (inr p, reg') /\
    forall K q, reg !! K = Some q -> reg' !! K = Some q.
Proof.
  intros Hc [pT HT] [pO HO].
  destruct (connect_run fuel reg T' O' pT pO frame Hc HT HO)
    as (p & reg' & Hrun & _ & _ & _ & _ & _ & Hmono).
  by exists p, reg'.
Qed.

Lemma connect_replaces_nothing_witness :
  exists p reg',
    connect (frames := identity_frames) 1 "MARS" "MOON" None solar_registry
    = (inr p, reg') /\
    forall K q, solar_registry !! K = Some q -> reg' !! K = Some q.
Proof.
  apply (connect_replaces_nothing (frames := identity_frames)
           (laws := identity_frames_laws) 0 solar_registry "MARS" "MOON" None).
  - apply solar_registry_consistent.
  - apply solar_registry_consistent.
  - apply solar_registry_consistent.
Defined.
